(** * msr-archiver: retry executor, cache freshness, catalog cache,
      completion store, worker pool and progress-tracked transfer

    A shallow embedding of the Go sources and the properties proved of it.
    Part I holds the definitions, one module per Go package or concern;
    Part II holds the theorems. *)

From Stdlib Require Import ZArith NArith List Lia Bool String Ascii.
From stdpp Require Import base option list strings gmap sorting relations pretty.
Set Warnings "-register-all".
Set Warnings "-clear-no-such-hyp".

(** * Part I: definitions *)

Module Go.
Local Open Scope Z_scope.

(** Go [error] values.  A Go [error] variable is [option error]: [None] is [nil]. *)
Inductive error : Type :=
| Canceled
| DeadlineExceeded
| EOF
| ErrShortWrite
| ErrNotExist
| errorString (msg : string)
| wrapError (msg : string) (inner : error)
| joinError (errs : list error).

(** Two's-complement wrap-around of 64-bit signed arithmetic. *)
Definition wrap64 (z : Z) : Z := (z + 2 ^ 63) mod 2 ^ 64 - 2 ^ 63.
Definition mul64 (a b : Z) : Z := wrap64 (a * b).
Definition add64 (a b : Z) : Z := wrap64 (a + b).
Definition maxInt64 : Z := 2 ^ 63 - 1.
Definition minInt64 : Z := - 2 ^ 63.

(** [time.Duration]: an int64 count of nanoseconds. *)
Abbreviation Duration := Z (only parsing).
Definition Nanosecond : Duration := 1.
Definition Millisecond : Duration := 1000000.
Definition Second : Duration := 1000000000.

(** Instants of the process clock, in nanoseconds. *)
Abbreviation Instant := Z (only parsing).

(** [context.Context], as far as the engine observes it: the instant at which
    [Done()] is closed ([None]: never, as for [context.Background()]) and the
    error [Err()] reports from then on. *)
Record Context : Type := mkContext {
  done_at : option Instant;
  cause : error
}.

Definition Background : Context := {| done_at := None; cause := Canceled |}.

Definition Done (ctx : Context) (now : Instant) : bool :=
  match done_at ctx with
  | Some c => c <=? now
  | None => false
  end.

Definition Err (ctx : Context) (now : Instant) : option error :=
  if Done ctx now then Some (cause ctx) else None.

(** Which case of
      select { case <-ctx.Done(): ... case <-time.After(d): ... }
    proceeds, and when.  The timer fires [max 0 d] after [now]; [Done()] is
    ready from [done_at] on.  The case that is ready first proceeds; when both
    become ready at the same instant Go picks one at random, which the
    scheduler's choice [pick_done] stands for. *)
Inductive woke : Type :=
| ByDone (at_ : Instant)
| ByTimer (at_ : Instant).

Definition select_done_or_after (ctx : Context) (now : Instant) (d : Duration)
    (pick_done : bool) : woke :=
  let fire := now + Z.max 0 d in
  match done_at ctx with
  | None => ByTimer fire
  | Some c =>
      let seen := Z.max now c in
      if seen <? fire then ByDone seen
      else if fire <? seen then ByTimer fire
      else if pick_done then ByDone seen else ByTimer fire
  end.

End Go.

Module Retry.
Import Go.
Local Open Scope Z_scope.

(** What one invocation of the wrapped operation does: the closure's captured
    state after the call, how long the call took, and what it returned. *)
Record Outcome (St T : Type) : Type := mkOutcome {
  next : St;
  took : Duration;
  ret : T;
  failure : option error
}.
Arguments mkOutcome {St T}.
Arguments next {St T}.
Arguments took {St T}.
Arguments ret {St T}.
Arguments failure {St T}.

(** The operation: given the clock reading at the call and the captured state. *)
Definition Op (St T : Type) : Type := Instant -> St -> Outcome St T.

(** Observable events of one executor call, in order. *)
Inductive event : Type :=
| Invoked (i : Z) (started finished : Instant) (res : option error)
| Slept (i : Z) (d : Duration) (until : Instant)
| Aborted (i : Z) (at_ : Instant).

Record Run (St T : Type) : Type := mkRun {
  value : T;
  result : option error;
  final_clock : Instant;
  final_mem : St;
  events : list event
}.
Arguments mkRun {St T}.
Arguments value {St T}.
Arguments result {St T}.
Arguments final_clock {St T}.
Arguments final_mem {St T}.
Arguments events {St T}.

Definition before {St T : Type} (evs : list event) (r : Run St T) : Run St T :=
  mkRun (value r) (result r) (final_clock r) (final_mem r) (evs ++ events r).

Definition is_invocation (e : event) : bool :=
  match e with Invoked _ _ _ _ => true | _ => false end.

Definition invocations (evs : list event) : nat :=
  length (filter (fun e => is_invocation e = true) evs).

(** [time.Duration(i) * 400 * time.Millisecond], in int64 arithmetic. *)
Definition backoff (i : Z) : Duration := mul64 (mul64 (wrap64 i) 400) Millisecond.

(** [if attempts < 1 { attempts = 1 }] *)
Definition coerce (attempts : Z) : Z := if attempts <? 1 then 1 else attempts.

Section Executor.
Context {St T : Type}.
Variable zero : T.
Variable ctx : Context.
Variable tie : Z -> bool.
Variable attempts : Z.
Variable fn : Op St T.

(** The loop [for i := 1; i <= attempts; i++] of [withRetryResult], entered at
    iteration [i] with [left = attempts - i + 1] iterations to go, so that
    [i <= attempts] reads [left > 0]. *)
Fixpoint retryResultLoop (left : nat) (i : Z) (err : option error)
    (now : Instant) (m : St) : Run St T :=
  match left with
  | O => mkRun zero err now m []
  | S left' =>
      let o := fn now m in
      let t1 := now + Z.max 0 (took o) in
      let ev := Invoked i now t1 (failure o) in
      match failure o with
      | None => mkRun (ret o) None t1 (next o) [ev]
      | Some callErr =>
          if i =? attempts then mkRun zero (Some callErr) t1 (next o) [ev]
          else
            match select_done_or_after ctx t1 (backoff i) (tie i) with
            | ByDone t => mkRun zero (Some (cause ctx)) t (next o) [ev; Aborted i t]
            | ByTimer t =>
                before [ev; Slept i (backoff i) t]
                  (retryResultLoop left' (i + 1) (Some callErr) t (next o))
            end
      end
  end.

End Executor.

Definition withRetryResult {St T : Type} (zero : T) (ctx : Context) (tie : Z -> bool)
    (attempts : Z) (fn : Op St T) (now : Instant) (m : St) : Run St T :=
  let attempts := coerce attempts in
  retryResultLoop zero ctx tie attempts fn (Z.to_nat attempts) 1 None now m.

Section ExecutorNoValue.
Context {St : Type}.
Variable ctx : Context.
Variable tie : Z -> bool.
Variable attempts : Z.
Variable fn : Op St unit.

(** The loop of [withRetry]: [fn] returns only an error. *)
Fixpoint retryLoop (left : nat) (i : Z) (err : option error)
    (now : Instant) (m : St) : Run St unit :=
  match left with
  | O => mkRun tt err now m []
  | S left' =>
      let o := fn now m in
      let t1 := now + Z.max 0 (took o) in
      let ev := Invoked i now t1 (failure o) in
      match failure o with
      | None => mkRun tt None t1 (next o) [ev]
      | Some e =>
          if i =? attempts then mkRun tt (Some e) t1 (next o) [ev]
          else
            match select_done_or_after ctx t1 (backoff i) (tie i) with
            | ByDone t => mkRun tt (Some (cause ctx)) t (next o) [ev; Aborted i t]
            | ByTimer t =>
                before [ev; Slept i (backoff i) t]
                  (retryLoop left' (i + 1) (Some e) t (next o))
            end
      end
  end.

End ExecutorNoValue.

Definition withRetry {St : Type} (ctx : Context) (tie : Z -> bool)
    (attempts : Z) (fn : Op St unit) (now : Instant) (m : St) : Run St unit :=
  let attempts := coerce attempts in
  retryLoop ctx tie attempts fn (Z.to_nat attempts) 1 None now m.

(** Behaviour of an operation over its successive invocations, whatever the clock
    reads at each call. *)
Fixpoint succeeds_after {St T : Type} (fn : Op St T) (k : nat) (m : St) (v : T) : Prop :=
  match k with
  | O => forall t, failure (fn t m) = None /\ ret (fn t m) = v
  | S k' => forall t, failure (fn t m) <> None /\ succeeds_after fn k' (next (fn t m)) v
  end.

(** The next [n] invocations all fail, the last of them with [e]. *)
Fixpoint keeps_failing {St T : Type} (fn : Op St T) (n : nat) (m : St) (e : error) : Prop :=
  match n with
  | O => False
  | S O => forall t, failure (fn t m) = Some e
  | S n' => forall t, failure (fn t m) <> None /\ keeps_failing fn n' (next (fn t m)) e
  end.

Definition never_cancelled (ctx : Context) : Prop := done_at ctx = None.

End Retry.

Module RetryDoubles.
Import Go Retry.
Local Open Scope Z_scope.

(** The closures of retry_test.go: [calls++; if calls < n { return errors.New("transient") }; return nil]. *)
Definition transient_until (n : Z) : Op Z unit :=
  fun _ calls =>
    let calls := calls + 1 in
    mkOutcome calls 0 tt (if calls <? n then Some (errorString "transient") else None).

Definition transient_then {T : Type} (n : Z) (zero v : T) : Op Z T :=
  fun _ calls =>
    let calls := calls + 1 in
    if calls <? n then mkOutcome calls 0 zero (Some (errorString "transient"))
    else mkOutcome calls 0 v None.

(** [calls++; return expected] *)
Definition always_fails {T : Type} (zero : T) (expected : error) : Op Z T :=
  fun _ calls => mkOutcome (calls + 1) 0 zero (Some expected).

(** A context cancelled at instant 0, before the executor is called. *)
Definition cancelled : Context := mkContext (Some 0) Canceled.

Definition no_tie : Z -> bool := fun _ => false.

End RetryDoubles.

Module GoTime.
Import Go.
Local Open Scope Z_scope.

(** [time.Time]: the wall-clock instant as seconds and nanoseconds since
    January 1, year 1, 00:00:00 UTC, and the monotonic clock reading (in
    nanoseconds) that values obtained from [time.Now()] carry. *)
Record Time : Type := mkTime {
  sec : Z;
  nsec : Z;
  mono : option Z
}.

(** [time.Time{}] *)
Definition zeroTime : Time := mkTime 0 0 None.

(** [t.IsZero()]: [t.sec() == 0 && t.nsec() == 0]. *)
Definition IsZero (t : Time) : bool := (sec t =? 0) && (nsec t =? 0).

Definition clamp64 (z : Z) : Z := Z.max minInt64 (Z.min maxInt64 z).

(** Nanoseconds from [u] to [t]: on the monotonic clock when both carry a
    reading, on the wall clock otherwise. *)
Definition elapsed (t u : Time) : Z :=
  match mono t, mono u with
  | Some a, Some b => a - b
  | _, _ => (sec t - sec u) * Second + (nsec t - nsec u)
  end.

(** [t.Sub(u)]: the duration t-u; when it exceeds what a Duration can store the
    maximum (or minimum) duration is returned. *)
Definition Sub (t u : Time) : Duration := clamp64 (elapsed t u).

End GoTime.

Module Freshness.
Import Go GoTime.
Local Open Scope Z_scope.

Definition shouldUseCachedAlbums (cachedAt : Time) (ttl : Duration) (now : Time) : bool :=
  if ttl <=? 0 then true
  else if IsZero cachedAt then false
  else
    let age := Sub now cachedAt in
    if age <? 0 then true
    else age <=? ttl.

End Freshness.

Module Download.
Import Go GoTime.
Local Open Scope Z_scope.

Module ProgressUpdate.
Record t : Type := mk { BytesWritten : Z; TotalBytes : Z }.
End ProgressUpdate.

Module FileDownloadResult.
Record t : Type := mk { ContentType : string; BytesWritten : Z; Duration : Z }.
End FileDownloadResult.

(** What the environment answers during one iteration of the copy loop. *)
Record Tick : Type := mkTick {
  read_n : Z;                 (* n, readErr := src.Read(buf) *)
  read_err : option error;
  write_n : Z;                (* written, writeErr := dst.Write(buf[:n]) *)
  write_err : option error;
  clock : Time                (* time.Now() *)
}.

(** What [copyWithProgress] returns, with the updates handed to [progress]
    (oldest first) and the exact number of bytes the destination accepted. *)
Record Copied : Type := mkCopied {
  bytesWritten : Z;
  copy_err : option error;
  updates : list ProgressUpdate.t;
  delivered : Z
}.

Section Copy.
Variable totalBytes : Z.
Variable progress : bool.   (* progress != nil *)

(** The [for] loop of [copyWithProgress]; [None] when the script ends before
    the stream does. *)
Fixpoint copyLoop (script : list Tick) (bytesWritten : Z) (lastProgress : Time)
    (updates : list ProgressUpdate.t) (delivered : Z) : option Copied :=
  match script with
  | [] => None
  | tk :: rest =>
      let n := read_n tk in
      let body :=
        if 0 <? n then
          let written := write_n tk in
          let bw := if 0 <? written then add64 bytesWritten written else bytesWritten in
          let dl := if 0 <? written then delivered + written else delivered in
          match write_err tk with
          | Some writeErr => inl (mkCopied bw (Some writeErr) updates dl)
          | None =>
              if negb (written =? n) then inl (mkCopied bw (Some ErrShortWrite) updates dl)
              else if progress then
                let now := clock tk in
                if IsZero lastProgress || (700 * Millisecond <=? Sub now lastProgress)
                then inr (bw, now, updates ++ [ProgressUpdate.mk bw totalBytes], dl)
                else inr (bw, lastProgress, updates, dl)
              else inr (bw, lastProgress, updates, dl)
          end
        else inr (bytesWritten, lastProgress, updates, delivered) in
      match body with
      | inl stopped => Some stopped
      | inr (bw, lp, ups, dl) =>
          match read_err tk with
          | Some EOF =>
              Some (mkCopied bw None
                      (if progress then ups ++ [ProgressUpdate.mk bw totalBytes] else ups) dl)
          | Some readErr => Some (mkCopied bw (Some readErr) ups dl)
          | None => copyLoop rest bw lp ups dl
          end
      end
  end.

Definition copyWithProgress (script : list Tick) : option Copied :=
  copyLoop script 0 zeroTime [] 0.

End Copy.

(** The HTTP response, as far as the transfer reads it. *)
Record Response : Type := mkResponse {
  StatusCode : Z;
  ContentLength : Z;
  ContentTypeHeader : string;   (* resp.Header.Get("Content-Type") *)
  Body : list Tick
}.

(** What the environment answers to the calls of one transfer. *)
Record Env : Type := mkEnv {
  started : Time;                 (* time.Now() on entry *)
  newRequest : option error;      (* http.NewRequestWithContext *)
  doRequest : error + Response;   (* d.httpClient.Do(req) *)
  mkdirAll : option error;        (* os.MkdirAll(filepath.Dir(dstPath)) *)
  create : option error;          (* os.Create(dstPath) *)
  finished : Time                 (* time.Now() in time.Since(started) *)
}.

Record Transfer : Type := mkTransfer {
  outcome : FileDownloadResult.t;
  transfer_err : option error;
  reported : list ProgressUpdate.t;
  on_disk : Z
}.

Definition noResult : FileDownloadResult.t := FileDownloadResult.mk "" 0 0.

Definition failed (e : error) (ups : list ProgressUpdate.t) (dl : Z) : option Transfer :=
  Some (mkTransfer noResult (Some e) ups dl).

Definition DownloadToFileWithProgress (env : Env) (url dstPath : string) (progress : bool)
    : option Transfer :=
  match newRequest env with
  | Some err => failed (wrapError "create request: " err) [] 0
  | None =>
  match doRequest env with
  | inl err => failed (wrapError ("download " ++ url ++ ": ") err) [] 0
  | inr resp =>
  if (StatusCode resp <? 200) || (300 <=? StatusCode resp)
  then failed (errorString ("download " ++ url ++ ": unexpected status "
                            ++ pretty (StatusCode resp))) [] 0
  else
  match mkdirAll env with
  | Some err => failed (wrapError "create parent dirs: " err) [] 0
  | None =>
  match create env with
  | Some err => failed (wrapError ("create file " ++ dstPath ++ ": ") err) [] 0
  | None =>
  let totalBytes := if ContentLength resp <=? 0 then -1 else ContentLength resp in
  match copyWithProgress totalBytes progress (Body resp) with
  | None => None
  | Some c =>
      match copy_err c with
      | Some err => failed (wrapError ("write file " ++ dstPath ++ ": ") err)
                      (updates c) (delivered c)
      | None =>
          Some (mkTransfer
                  (FileDownloadResult.mk (ContentTypeHeader resp) (bytesWritten c)
                     (Sub (finished env) (started env)))
                  None (updates c) (delivered c))
      end
  end end end end end.

End Download.

Module DownloadDoubles.
Import Go GoTime Download.
Local Open Scope Z_scope.

(** A reading of [time.Now()]: 2026-02-13T10:00:00Z, with a monotonic reading. *)
Definition t0 : Time := mkTime 63906573600 0 (Some 1).

(** A full 32 KiB buffer read and written in one piece. *)
Definition chunk (t : Time) : Tick := mkTick 32768 None 32768 None t.
(** [n] bytes read and written. *)
Definition piece (n : Z) (t : Time) : Tick := mkTick n None n None t.
(** [Read] returning [0, io.EOF]. *)
Definition eof (t : Time) : Tick := mkTick 0 (Some EOF) 0 None t.

Definition serving (resp : Response) : Env :=
  mkEnv t0 None (inr resp) None None t0.

(** A five-byte body delivered as 3 + 2 bytes. *)
Definition small : Response :=
  mkResponse 200 5 "audio/wav" [piece 3 t0; piece 2 t0; eof t0].

(** A body of 2^48 = 281474976710655 + 1 full buffers: 2^63 bytes, of
    undeclared length. *)
Definition huge : Response :=
  mkResponse 200 (-1) "audio/wav"
    (repeat (chunk t0) (S (Z.to_nat 281474976710655)) ++ [eof t0]).

End DownloadDoubles.

(** Go slices: [None] is the nil slice. *)
Module Slice.
Import Go.
Definition slice (A : Type) : Type := option (list A).
Definition elems {A : Type} (s : slice A) : list A :=
  match s with Some l => l | None => [] end.
End Slice.

(** Library model: the part of encoding/json that the cache and the state file
    go through, written from the package documentation.  Strings are byte
    strings, as in Go. *)
Module GoJSON.
Import Go Slice.
Local Open Scope string_scope.
Local Open Scope N_scope.

Inductive json : Type :=
| JNull
| JBool (b : bool)
| JNumber (lit : string)
| JString (s : string)
| JArray (items : list json)
| JObject (fields : list (string * json)).

Definition code (c : ascii) : N := N_of_ascii c.
Definition byte (n : N) : ascii := ascii_of_N n.
Definition dquote : ascii := byte 34.
Definition backslash : ascii := byte 92.

Definition hexdigit (n : N) : ascii :=
  if n <? 10 then byte (48 + n) else byte (87 + n).

Definition is_cont (c : ascii) : bool := (128 <=? code c) && (code c <=? 191).
Definition within (lo hi : N) (c : ascii) : bool := (lo <=? code c) && (code c <=? hi).

(** [utf8.DecodeRuneInString]: the size of the encoding at the head of [s]
    when it is valid UTF-8, [None] for an invalid or truncated one. *)
Definition rune_size (s : string) : option nat :=
  match s with
  | EmptyString => None
  | String b0 rest =>
      let c0 := code b0 in
      if c0 <? 128 then Some 1%nat
      else if within 194 223 b0 then
        match rest with
        | String b1 _ => if is_cont b1 then Some 2%nat else None
        | _ => None
        end
      else if within 224 239 b0 then
        match rest with
        | String b1 (String b2 _) =>
            let lo := if c0 =? 224 then 160 else 128 in
            let hi := if c0 =? 237 then 159 else 191 in
            if within lo hi b1 && is_cont b2 then Some 3%nat else None
        | _ => None
        end
      else if within 240 244 b0 then
        match rest with
        | String b1 (String b2 (String b3 _)) =>
            let lo := if c0 =? 240 then 144 else 128 in
            let hi := if c0 =? 244 then 143 else 191 in
            if within lo hi b1 && is_cont b2 && is_cont b3 then Some 4%nat else None
        | _ => None
        end
      else None
  end.

Fixpoint take (n : nat) (s : string) : string :=
  match n, s with
  | S n', String c s' => String c (take n' s')
  | _, _ => EmptyString
  end.

Fixpoint drop (n : nat) (s : string) : string :=
  match n, s with
  | S n', String _ s' => drop n' s'
  | _, _ => s
  end.

(** U+FFFD, the replacement character, in UTF-8. *)
Definition replacement : string := String (byte 239) (String (byte 191) (String (byte 189) EmptyString)).

(** [utf8.ValidString] *)
Fixpoint valid_from (fuel : nat) (s : string) : bool :=
  match fuel with
  | O => true
  | S fuel' =>
      match s with
      | EmptyString => true
      | _ => match rune_size s with
             | Some n => valid_from fuel' (drop n s)
             | None => false
             end
      end
  end.
Definition ValidString (s : string) : bool := valid_from (String.length s) s.

(** The bytes [<], [>], [&], the quote, the backslash and the control
    characters are escaped; every other ASCII byte is copied. *)
Definition html_safe (c : ascii) : bool :=
  let n := code c in
  (32 <=? n) && negb (n =? 34) && negb (n =? 92) && negb (n =? 60) && negb (n =? 62)
  && negb (n =? 38).

Definition escape_ascii (c : ascii) : string :=
  let n := code c in
  if (n =? 34) || (n =? 92) then String backslash (String c EmptyString)
  else if n =? 8 then String backslash "b"
  else if n =? 12 then String backslash "f"
  else if n =? 10 then String backslash "n"
  else if n =? 13 then String backslash "r"
  else if n =? 9 then String backslash "t"
  else String backslash ("u00" ++ String (hexdigit (n / 16)) (String (hexdigit (n mod 16)) "")).

(** The body of a string literal, as [appendString] writes it. *)
Fixpoint escape_from (fuel : nat) (s : string) : string :=
  match fuel with
  | O => EmptyString
  | S fuel' =>
      match s with
      | EmptyString => EmptyString
      | String c rest =>
          if code c <? 128 then
            (if html_safe c then String c EmptyString else escape_ascii c)
            ++ escape_from fuel' rest
          else
            match rune_size s with
            | None => String backslash "ufffd" ++ escape_from fuel' rest
            | Some n =>
                let r := take n s in
                (if String.eqb r (String (byte 226) (String (byte 128) (String (byte 168) "")))
                 then String backslash "u2028"
                 else if String.eqb r (String (byte 226) (String (byte 128) (String (byte 169) "")))
                 then String backslash "u2029"
                 else r) ++ escape_from fuel' (drop n s)
            end
      end
  end.

Definition quote (s : string) : string :=
  String dquote (escape_from (String.length s) s) ++ String dquote EmptyString.

(** The bytes a string literal written by [quote] stands for: the string
    itself, with U+FFFD in place of every byte that does not start a valid
    encoding. *)
Fixpoint coerced_from (fuel : nat) (s : string) : string :=
  match fuel with
  | O => EmptyString
  | S fuel' =>
      match s with
      | EmptyString => EmptyString
      | String _ rest =>
          match rune_size s with
          | Some n => take n s ++ coerced_from fuel' (drop n s)
          | None => replacement ++ coerced_from fuel' rest
          end
      end
  end.
Definition coerced (s : string) : string := coerced_from (String.length s) s.

(** Printing. *)
Fixpoint join (sep : string) (l : list string) : string :=
  match l with
  | [] => EmptyString
  | [x] => x
  | x :: rest => x ++ sep ++ join sep rest
  end.

(** [json.Marshal]'s compact form. *)
Fixpoint compact (v : json) : string :=
  match v with
  | JNull => "null"
  | JBool true => "true"
  | JBool false => "false"
  | JNumber lit => lit
  | JString s => quote s
  | JArray items => "[" ++ join "," (map compact items) ++ "]"
  | JObject fields =>
      "{" ++ join "," (map (fun kv => quote (fst kv) ++ ":" ++ compact (snd kv)) fields) ++ "}"
  end.

Fixpoint spaces (depth : nat) : string :=
  match depth with
  | O => EmptyString
  | S d => "  " ++ spaces d
  end.

Definition newline : string := String (byte 10) EmptyString.

(** [json.MarshalIndent(v, "", "  ")]: one item per line, two spaces per level,
    empty arrays and objects kept closed. *)
Fixpoint indented (depth : nat) (v : json) : string :=
  match v with
  | JArray [] => "[]"
  | JObject [] => "{}"
  | JArray items =>
      "[" ++ newline ++ spaces (S depth)
      ++ join ("," ++ newline ++ spaces (S depth)) (map (indented (S depth)) items)
      ++ newline ++ spaces depth ++ "]"
  | JObject fields =>
      "{" ++ newline ++ spaces (S depth)
      ++ join ("," ++ newline ++ spaces (S depth))
           (map (fun kv => quote (fst kv) ++ ": " ++ indented (S depth) (snd kv)) fields)
      ++ newline ++ spaces depth ++ "}"
  | _ => compact v
  end.


(** The values the cache and the state file are made of: null, booleans,
    strings and keys that are valid UTF-8, arrays and objects of such. *)
Fixpoint plain (v : json) : bool :=
  match v with
  | JNull | JBool _ => true
  | JNumber _ => false
  | JString s => ValidString s
  | JArray items => forallb plain items
  | JObject fields => forallb (fun kv => ValidString (fst kv) && plain (snd kv)) fields
  end.

(** Parsing. *)
Definition is_ws (c : ascii) : bool :=
  let n := code c in (n =? 32) || (n =? 9) || (n =? 10) || (n =? 13).

Fixpoint skip_ws (s : string) : string :=
  match s with
  | String c rest => if is_ws c then skip_ws rest else s
  | EmptyString => s
  end.

Definition is_digit (c : ascii) : bool := within 48 57 c.

Definition hexval (c : ascii) : option N :=
  let n := code c in
  if within 48 57 c then Some (n - 48)
  else if within 97 102 c then Some (n - 87)
  else if within 65 70 c then Some (n - 55)
  else None.

(** [getu4], after the backslash and the [u]. *)
Definition hex4 (s : string) : option (N * string) :=
  match s with
  | String a (String b (String c (String d rest))) =>
      match hexval a, hexval b, hexval c, hexval d with
      | Some x, Some y, Some z, Some w => Some (((x * 16 + y) * 16 + z) * 16 + w, rest)
      | _, _, _, _ => None
      end
  | _ => None
  end.

(** [utf8.EncodeRune] *)
Definition encode_rune (r : N) : string :=
  if r <? 128 then String (byte r) ""
  else if r <? 2048 then String (byte (192 + r / 64)) (String (byte (128 + r mod 64)) "")
  else if ((55296 <=? r) && (r <? 57344)) || (1114111 <? r) then replacement
  else if r <? 65536 then
    String (byte (224 + r / 4096))
      (String (byte (128 + (r / 64) mod 64)) (String (byte (128 + r mod 64)) ""))
  else
    String (byte (240 + r / 262144))
      (String (byte (128 + (r / 4096) mod 64))
         (String (byte (128 + (r / 64) mod 64)) (String (byte (128 + r mod 64)) ""))).

(** The rune a [\u] escape stands for, and the input after it: a surrogate that
    starts a valid pair takes the next escape with it, any other surrogate
    reads as U+FFFD. *)
Definition escaped_rune (r : N) (rest : string) : N * string :=
  if (55296 <=? r) && (r <? 57344) then
    match rest with
    | String b (String u rest') =>
        if Ascii.eqb b backslash && Ascii.eqb u "u"%char then
          match hex4 rest' with
          | Some (r2, rest'') =>
              if (r <? 56320) && (56320 <=? r2) && (r2 <? 57344)
              then (65536 + (r - 55296) * 1024 + (r2 - 56320), rest'')
              else (65533, rest)
          | None => (65533, rest)
          end
        else (65533, rest)
    | _ => (65533, rest)
    end
  else (r, rest).

(** The text of a string literal after its opening quote: the bytes it stands
    for and the input after the closing quote. *)
Fixpoint string_body (fuel : nat) (s : string) (acc : string) : option (string * string) :=
  match fuel with
  | O => None
  | S fuel' =>
      match s with
      | EmptyString => None
      | String c rest =>
          if Ascii.eqb c dquote then Some (acc, rest)
          else if Ascii.eqb c backslash then
            match rest with
            | String e rest' =>
                let plain (x : N) := string_body fuel' rest' (acc ++ String (byte x) "") in
                match code e with
                | 34 => plain 34
                | 92 => plain 92
                | 47 => plain 47
                | 98 => plain 8
                | 102 => plain 12
                | 110 => plain 10
                | 114 => plain 13
                | 116 => plain 9
                | 117 =>
                    match hex4 rest' with
                    | Some (r, rest'') =>
                        let '(r', rest3) := escaped_rune r rest'' in
                        string_body fuel' rest3 (acc ++ encode_rune r')
                    | None => None
                    end
                | _ => None
                end
            | EmptyString => None
            end
          else if code c <? 32 then None
          else if code c <? 128 then string_body fuel' rest (acc ++ String c "")
          else
            match rune_size s with
            | Some n => string_body fuel' (drop n s) (acc ++ take n s)
            | None => string_body fuel' rest (acc ++ replacement)
            end
      end
  end.

Fixpoint digits (s : string) : string * string :=
  match s with
  | String c rest =>
      if is_digit c then let '(d, r) := digits rest in (String c d, r) else (EmptyString, s)
  | EmptyString => (EmptyString, s)
  end.

(** A number literal: an optional minus sign, 0 or a digit string that does
    not start with 0, an optional fraction, an optional exponent. *)
Definition number (s : string) : option (string * string) :=
  let '(sign, s1) :=
    match s with
    | String c rest => if Ascii.eqb c "-"%char then ("-"%string, rest) else (EmptyString, s)
    | _ => (EmptyString, s)
    end in
  let int_part :=
    match s1 with
    | String c rest =>
        if Ascii.eqb c "0"%char then Some ("0"%string, rest)
        else if is_digit c then Some (digits s1)
        else None
    | _ => None
    end in
  match int_part with
  | None => None
  | Some (ip, s2) =>
      let frac :=
        match s2 with
        | String c rest =>
            if Ascii.eqb c "."%char then
              match digits rest with
              | (EmptyString, _) => None
              | (d, r) => Some (String c d, r)
              end
            else Some (EmptyString, s2)
        | _ => Some (EmptyString, s2)
        end in
      match frac with
      | None => None
      | Some (fp, s3) =>
          let exp :=
            match s3 with
            | String c rest =>
                if Ascii.eqb c "e"%char || Ascii.eqb c "E"%char then
                  let '(sg, r1) :=
                    match rest with
                    | String g r =>
                        if Ascii.eqb g "+"%char || Ascii.eqb g "-"%char
                        then (String g "", r) else (EmptyString, rest)
                    | _ => (EmptyString, rest)
                    end in
                  match digits r1 with
                  | (EmptyString, _) => None
                  | (d, r) => Some (String c (sg ++ d), r)
                  end
                else Some (EmptyString, s3)
            | _ => Some (EmptyString, s3)
            end in
          match exp with
          | None => None
          | Some (ep, s4) => Some (sign ++ ip ++ fp ++ ep, s4)
          end
      end
  end.

Definition literal (word : string) (v : json) (s : string) : option (json * string) :=
  if String.eqb (take (String.length word) s) word
  then Some (v, drop (String.length word) s) else None.

Fixpoint value (fuel : nat) (s : string) : option (json * string) :=
  match fuel with
  | O => None
  | S fuel' =>
      match skip_ws s with
      | EmptyString => None
      | String c rest =>
          match code c with
          | 91 =>
              match skip_ws rest with
              | String d rest' =>
                  if Ascii.eqb d "]"%char then Some (JArray [], rest')
                  else items fuel' (skip_ws rest) []
              | EmptyString => None
              end
          | 123 =>
              match skip_ws rest with
              | String d rest' =>
                  if Ascii.eqb d "}"%char then Some (JObject [], rest')
                  else members fuel' (skip_ws rest) []
              | EmptyString => None
              end
          | 34 =>
              match string_body (String.length rest) rest "" with
              | Some (str, rest') => Some (JString str, rest')
              | None => None
              end
          | 116 => literal "true" (JBool true) (String c rest)
          | 102 => literal "false" (JBool false) (String c rest)
          | 110 => literal "null" JNull (String c rest)
          | _ =>
              match number (String c rest) with
              | Some (lit, rest') => Some (JNumber lit, rest')
              | None => None
              end
          end
      end
  end
with items (fuel : nat) (s : string) (acc : list json) : option (json * string) :=
  match fuel with
  | O => None
  | S fuel' =>
      match value fuel' s with
      | None => None
      | Some (v, rest) =>
          match skip_ws rest with
          | String c rest' =>
              if Ascii.eqb c ","%char then items fuel' rest' (acc ++ [v])%list
              else if Ascii.eqb c "]"%char then Some (JArray (acc ++ [v])%list, rest')
              else None
          | EmptyString => None
          end
      end
  end
with members (fuel : nat) (s : string) (acc : list (string * json)) : option (json * string) :=
  match fuel with
  | O => None
  | S fuel' =>
      match skip_ws s with
      | String q rest =>
          if Ascii.eqb q dquote then
            match string_body (String.length rest) rest "" with
            | None => None
            | Some (key, rest1) =>
                match skip_ws rest1 with
                | String c rest2 =>
                    if Ascii.eqb c ":"%char then
                      match value fuel' rest2 with
                      | None => None
                      | Some (v, rest3) =>
                          match skip_ws rest3 with
                          | String d rest4 =>
                              if Ascii.eqb d ","%char then members fuel' rest4 (acc ++ [(key, v)])%list
                              else if Ascii.eqb d "}"%char
                              then Some (JObject (acc ++ [(key, v)])%list, rest4)
                              else None
                          | EmptyString => None
                          end
                      end
                    else None
                | EmptyString => None
                end
            end
          else None
      | EmptyString => None
      end
  end.

(** A whole document: one value, blanks around it, nothing else. *)
Definition parse (s : string) : option json :=
  match value (2 * String.length s + 2) s with
  | Some (v, rest) => match skip_ws rest with EmptyString => Some v | _ => None end
  | None => None
  end.

Definition syntaxError : error := errorString "json: invalid syntax".
Definition typeError : error := errorString "json: cannot unmarshal value into Go value".

(** Key matching of struct fields: exact, or equal under Unicode simple case
    folding.  The tags being ASCII, the runes that fold to one of their
    letters are the letter in either case, U+017F (long s) for [s] and U+212A
    (Kelvin sign) for [k]. *)
Definition lower (c : ascii) : ascii := if within 65 90 c then byte (code c + 32) else c.
Fixpoint folded (s : string) : string :=
  match s with
  | EmptyString => EmptyString
  | String c rest =>
      match rest with
      | String c1 rest1 =>
          if (code c =? 197) && (code c1 =? 191) then String "s" (folded rest1)
          else
            match rest1 with
            | String c2 rest2 =>
                if (code c =? 226) && (code c1 =? 132) && (code c2 =? 170)
                then String "k" (folded rest2)
                else String (lower c) (folded rest)
            | EmptyString => String (lower c) (folded rest)
            end
      | EmptyString => String (lower c) EmptyString
      end
  end.
Definition fold_eq (a b : string) : bool := String.eqb (folded a) (folded b).

(** Decoding into a [string]: null leaves the zero value. *)
Definition to_string (v : json) : error + string :=
  match v with
  | JString s => inr s
  | JNull => inr EmptyString
  | _ => inl typeError
  end.

Fixpoint to_list {A : Type} (f : json -> error + A) (l : list json) : error + list A :=
  match l with
  | [] => inr []
  | v :: rest =>
      match f v, to_list f rest with
      | inr x, inr xs => inr (x :: xs)
      | inl e, _ => inl e
      | _, inl e => inl e
      end
  end.

(** Decoding into a slice: null gives the nil slice. *)
Definition to_slice {A : Type} (f : json -> error + A) (v : json) : error + slice A :=
  match v with
  | JNull => inr None
  | JArray l => match to_list f l with inr xs => inr (Some xs) | inl e => inl e end
  | _ => inl typeError
  end.

Definition of_slice {A : Type} (f : A -> json) (s : slice A) : json :=
  match s with
  | None => JNull
  | Some l => JArray (map f l)
  end.

(** [json.Marshal] and [json.Unmarshal] at type [[]string]. *)
Definition MarshalStrings (l : slice string) : error + string :=
  inr (compact (of_slice JString l)).

Definition UnmarshalStrings (b : string) : error + slice string :=
  match parse b with
  | None => inl syntaxError
  | Some v => to_slice to_string v
  end.

End GoJSON.

(** Library model: [t.UTC().Format(time.RFC3339)] and
    [time.Parse(time.RFC3339, s)]: four-digit year, two-digit fields (the
    hour may have one digit), optional fraction, [Z] or a numeric offset of at
    most 24 hours and 60 minutes. *)
Module RFC3339.
Import Go GoTime.
Local Open Scope string_scope.
Local Open Scope Z_scope.

(** Proleptic Gregorian calendar, days counted from January 1 of year 1. *)
Definition civil_of_days (days : Z) : Z * Z * Z :=
  let z := days + 306 in
  let era := z / 146097 in
  let doe := z mod 146097 in
  let yoe := (doe - doe / 1460 + doe / 36524 - doe / 146096) / 365 in
  let doy := doe - (365 * yoe + yoe / 4 - yoe / 100) in
  let mp := (5 * doy + 2) / 153 in
  let d := doy - (153 * mp + 2) / 5 + 1 in
  let m := if mp <? 10 then mp + 3 else mp - 9 in
  let y := yoe + era * 400 + (if m <=? 2 then 1 else 0) in
  (y, m, d).

Definition days_of_civil (y m d : Z) : Z :=
  let y' := y - (if m <=? 2 then 1 else 0) in
  let era := y' / 400 in
  let yoe := y' mod 400 in
  let doy := (153 * (if 2 <? m then m - 3 else m + 9) + 2) / 5 + d - 1 in
  let doe := yoe * 365 + yoe / 4 - yoe / 100 + doy in
  era * 146097 + doe - 306.

Definition digit (n : Z) : ascii := ascii_of_N (Z.to_N (48 + n mod 10)).

Definition two (n : Z) : string := String (digit (n / 10)) (String (digit n) "").

(** The decimal digits of [n]. *)
Fixpoint decimal (fuel : nat) (n : Z) : string :=
  match fuel with
  | O => EmptyString
  | S fuel' => (if n <? 10 then EmptyString else decimal fuel' (n / 10)) ++ String (digit n) ""
  end.

(** [appendInt(b, year, 4)]: at least four digits, a minus sign before them
    for a negative year. *)
Definition four (n : Z) : string :=
  let digits (u : Z) :=
    if u <? 10000 then String (digit (u / 1000)) (String (digit (u / 100)) (two u))
    else decimal 20 u in
  if n <? 0 then "-" ++ digits (- n) else digits n.

Definition Format (t : Time) : string :=
  let '(y, m, d) := civil_of_days (sec t / 86400) in
  let s := sec t mod 86400 in
  four y ++ "-" ++ two m ++ "-" ++ two d ++ "T"
  ++ two (s / 3600) ++ ":" ++ two (s mod 3600 / 60) ++ ":" ++ two (s mod 60) ++ "Z".

Definition digit_value (c : ascii) : option Z :=
  let n := Z.of_N (N_of_ascii c) in
  if (48 <=? n) && (n <=? 57) then Some (n - 48) else None.

(** [n] decimal digits at the head of [s]. *)
Fixpoint number (n : nat) (s : string) (acc : Z) : option (Z * string) :=
  match n with
  | O => Some (acc, s)
  | S n' =>
      match s with
      | String c rest =>
          match digit_value c with
          | Some v => number n' rest (acc * 10 + v)
          | None => None
          end
      | EmptyString => None
      end
  end.

Definition expect (c : ascii) (s : string) : option string :=
  match s with
  | String x rest => if Ascii.eqb x c then Some rest else None
  | EmptyString => None
  end.

(** The digits of a fraction of a second, as nanoseconds (digits past the ninth
    are dropped). *)
Fixpoint fraction (s : string) (scale : Z) (acc : Z) : Z * string :=
  match s with
  | String c rest =>
      match digit_value c with
      | Some v => fraction rest (scale / 10) (acc + v * scale)
      | None => (acc, s)
      end
  | EmptyString => (acc, s)
  end.

Definition days_in_month (y m : Z) : Z :=
  if m =? 2 then
    if ((y mod 4 =? 0) && negb (y mod 100 =? 0)) || (y mod 400 =? 0) then 29 else 28
  else if (m =? 4) || (m =? 6) || (m =? 9) || (m =? 11) then 30 else 31.

Definition parseError : error := errorString "parsing time: cannot parse".

Definition Parse (s : string) : error + Time :=
  let parsed :=
    '(y, s) ← number 4 s 0;
    s ← expect "-" s;
    '(m, s) ← number 2 s 0;
    s ← expect "-" s;
    '(d, s) ← number 2 s 0;
    s ← expect "T" s;
    '(hh, s) ← (match number 2 s 0 with Some r => Some r | None => number 1 s 0 end);
    s ← expect ":" s;
    '(mm, s) ← number 2 s 0;
    s ← expect ":" s;
    '(ss, s) ← number 2 s 0;
    let '(ns, s) :=
      match s with
      | String c rest =>
          match rest with
          | String c1 _ =>
              if (Ascii.eqb c "." || Ascii.eqb c ",") && bool_decide (is_Some (digit_value c1))
              then fraction rest 100000000 0 else (0, s)
          | EmptyString => (0, s)
          end
      | EmptyString => (0, s)
      end in
    offset ←
      match s with
      | String c rest =>
          if Ascii.eqb c "Z" then
            match rest with EmptyString => Some 0 | _ => None end
          else if Ascii.eqb c "+" || Ascii.eqb c "-" then
            '(oh, r) ← number 2 rest 0;
            r ← expect ":" r;
            '(om, r) ← number 2 r 0;
            match r with
            | EmptyString =>
                if (oh <=? 24) && (om <=? 60)
                then Some ((if Ascii.eqb c "-" then -1 else 1) * (oh * 3600 + om * 60))
                else None
            | _ => None
            end
          else None
      | EmptyString => None
      end;
    if (1 <=? m) && (m <=? 12) && (1 <=? d) && (d <=? days_in_month y m)
       && (hh <? 24) && (mm <? 60) && (ss <? 60)
    then Some (mkTime (days_of_civil y m d * 86400 + hh * 3600 + mm * 60 + ss - offset) ns None)
    else None in
  match parsed with
  | Some t => inr t
  | None => inl parseError
  end.

End RFC3339.

(** The file system, as far as the two persisted files use it: regular files by
    path.  Directories are not tracked; whether [os.MkdirAll] succeeds is the
    environment's answer. *)
Module FS.
Import Go Slice.
Local Open Scope string_scope.

Abbreviation Files := (gmap string string).

(** What the operating system answers during one atomic replacement of a file:
    the error of each call ([None]: it succeeds), the random part of the
    temporary name, and what [os.Remove] leaves of the temporary file when the
    cleanup itself fails ([None]: it is removed). *)
Record Answers : Type := mkAnswers {
  mkdirAll : option error;
  createTemp : option error;
  random : string;
  write : option error;
  close : option error;
  rename : option error;
  leftover : option string
}.

(** Every call succeeds. *)
Definition healthy (rnd : string) : Answers :=
  mkAnswers None None rnd None None None None.

(** [os.ReadFile]; [fault] is a failure other than a missing file. *)
Definition ReadFile (fs : Files) (fault : option error) (path : string) : error + string :=
  match fault with
  | Some e => inl e
  | None =>
      match fs !! path with
      | Some b => inr b
      | None => inl ErrNotExist
      end
  end.

(** [os.IsNotExist] *)
Definition IsNotExist (e : error) : bool :=
  match e with ErrNotExist => true | _ => false end.

(** The name [os.CreateTemp(filepath.Dir(path), filepath.Base(path)+".tmp.*")]
    creates, for a clean [path]. *)
Definition tempName (path rnd : string) : string := path ++ ".tmp." ++ rnd.

(** [_ = os.Remove(tmpPath)] *)
Definition cleanup (fs : Files) (tmpPath : string) (left : option string) : Files :=
  match left with
  | None => delete tmpPath fs
  | Some partial => <[tmpPath := partial]> fs
  end.

End FS.

Module State.
Import Go Slice FS.
Local Open Scope string_scope.

(** [Store]: the path and the set; the mutex serialises the methods, each of
    which is one atomic step of the model. *)
Record Store : Type := mkStore {
  path : string;
  set : gset string
}.

(** The order of [sort.Strings]: bytewise lexicographic. *)
Definition string_le (a b : string) : Prop := String.leb a b = true.

#[export] Instance string_le_dec : RelDecision string_le.
Proof. intros a b. unfold string_le. apply _. Defined.

(** [for name := range s.set { albums = append(albums, name) }; sort.Strings(albums)].
    A map is ranged over in an unspecified order; the sort makes the result
    independent of it. *)
Definition sortedNames (s : gset string) : list string :=
  merge_sort string_le (elements s).

Definition NewStore (fs : Files) (fault : option error) (path : string) : error + Store :=
  match ReadFile fs fault path with
  | inl err =>
      if IsNotExist err then inr (mkStore path ∅)
      else inl (wrapError ("read state file " ++ path ++ ": ") err)
  | inr b =>
      match GoJSON.UnmarshalStrings b with
      | inl err => inl (wrapError ("parse state file " ++ path ++ ": ") err)
      | inr albums => inr (mkStore path (list_to_set (elems albums)))
      end
  end.

Definition IsCompleted (s : Store) (albumName : string) : bool :=
  bool_decide (albumName ∈ set s).

(** What a call leaves behind: the returned error, the store, the files. *)
Record Marked : Type := mkMarked {
  err : option error;
  store : Store;
  files : Files
}.

Definition MarkCompleted (os : Answers) (fs : Files) (s : Store) (albumName : string) : Marked :=
  if bool_decide (albumName ∈ set s) then mkMarked None s fs
  else
    let s := mkStore (path s) ({[albumName]} ∪ set s) in
    let albums := sortedNames (set s) in
    match GoJSON.MarshalStrings (Some albums) with
    | inl err => mkMarked (Some (wrapError "marshal state: " err)) s fs
    | inr payload =>
    match mkdirAll os with
    | Some err => mkMarked (Some (wrapError "create state parent dir: " err)) s fs
    | None =>
    match createTemp os with
    | Some err => mkMarked (Some (wrapError "create temporary state file: " err)) s fs
    | None =>
    let tmpPath := tempName (path s) (random os) in
    let fs := <[tmpPath := ""]> fs in
    match write os with
    | Some err =>
        mkMarked (Some (wrapError "write temporary state file: " err)) s
          (cleanup fs tmpPath (leftover os))
    | None =>
    let fs := <[tmpPath := payload]> fs in
    match close os with
    | Some err =>
        mkMarked (Some (wrapError "close temporary state file: " err)) s
          (cleanup fs tmpPath (leftover os))
    | None =>
    match rename os with
    | Some err =>
        mkMarked (Some (wrapError "atomic replace state file: " err)) s
          (cleanup fs tmpPath (leftover os))
    | None => mkMarked None s (<[path s := payload]> (delete tmpPath fs))
    end end end end end end.

(** A sequence of calls on one store, each with the environment's answers. *)
Fixpoint markAll (calls : list (Answers * string)) (fs : Files) (s : Store) : list (option error) * Marked :=
  match calls with
  | [] => ([], mkMarked None s fs)
  | (os, name) :: rest =>
      let m := MarkCompleted os fs s name in
      let '(errs, final) := markAll rest (files m) (store m) in
      (err m :: errs, final)
  end.

(** The names a sequence of calls marks. *)
Definition names (calls : list (Answers * string)) : list string := map snd calls.


(** [json.Marshal] of the sorted names. *)
Definition encoded (S : gset string) : string :=
  GoJSON.compact (GoJSON.JArray (map GoJSON.JString (sortedNames S))).

End State.

Module StateDoubles.
Import Go Slice FS State.
Local Open Scope string_scope.

Definition quoted (s : string) : string := String GoJSON.dquote s ++ String GoJSON.dquote "".

Definition statePath : string := "completed_albums.json".

(** A state file that was not written by this program: names out of order. *)
Definition unsorted : Files := {[ statePath := "[" ++ quoted "b" ++ "," ++ quoted "a" ++ "]" ]}.

(** The disk refuses the final rename. *)
Definition renameFails (rnd : string) : Answers :=
  mkAnswers None None rnd None None (Some (errorString "rename: no space left on device")) None.


(** The store of an empty directory. *)
Definition emptyStore : Store := mkStore statePath ∅.


(** MarkCompleted of alpha on an empty directory, the rename failing. *)
Definition alphaUnsaved : Marked := MarkCompleted (renameFails "1") ∅ emptyStore "alpha".




End StateDoubles.

Module Model.
Import Go Slice GoTime.
(** [model.Album] *)
Record Album : Type := mkAlbum {
  CID : string;
  Name : string;
  CoverURL : string;
  Artistes : slice string
}.
End Model.

Module Catalog.
Import Go Slice GoTime FS Model GoJSON.
Local Open Scope string_scope.

Record Cache : Type := NewCache { path : string }.

Record payload : Type := mkPayload {
  FetchedAt : string;
  Albums : slice Album
}.

(** How encoding/json writes the two structs: fields in declaration order
    under their [json] tags. *)
Definition album_json (a : Album) : json :=
  JObject [("cid", JString (CID a)); ("name", JString (Name a));
           ("coverUrl", JString (CoverURL a)); ("artistes", of_slice JString (Artistes a))].

Definition payload_json (p : payload) : json :=
  JObject [("fetchedAt", JString (FetchedAt p)); ("albums", of_slice album_json (Albums p))].

(** [json.MarshalIndent(p, "", "  ")] *)
Definition MarshalIndent (p : payload) : error + string := inr (indented 0 (payload_json p)).

(** The field a key of a JSON object is stored in: the one whose tag is the
    key, else the first whose tag equals it up to case. *)
Definition field_of (tags : list string) (key : string) : option string :=
  match List.find (String.eqb key) tags with
  | Some t => Some t
  | None => List.find (fold_eq key) tags
  end.

(** Decoding into a [string] field: null leaves it as it is. *)
Definition set_string (old : string) (v : json) : error + string :=
  match v with
  | JString s => inr s
  | JNull => inr old
  | _ => inl typeError
  end.

Definition set_album_field (a : Album) (kv : string * json) : error + Album :=
  match field_of ["cid"; "name"; "coverUrl"; "artistes"] kv.1 with
  | Some "cid" =>
      match set_string (CID a) kv.2 with
      | inr s => inr (mkAlbum s (Name a) (CoverURL a) (Artistes a))
      | inl e => inl e
      end
  | Some "name" =>
      match set_string (Name a) kv.2 with
      | inr s => inr (mkAlbum (CID a) s (CoverURL a) (Artistes a))
      | inl e => inl e
      end
  | Some "coverUrl" =>
      match set_string (CoverURL a) kv.2 with
      | inr s => inr (mkAlbum (CID a) (Name a) s (Artistes a))
      | inl e => inl e
      end
  | Some "artistes" =>
      match to_slice to_string kv.2 with
      | inr l => inr (mkAlbum (CID a) (Name a) (CoverURL a) l)
      | inl e => inl e
      end
  | _ => inr a
  end.

Fixpoint set_fields {A : Type} (set : A -> string * json -> error + A) (a : A)
    (fields : list (string * json)) : error + A :=
  match fields with
  | [] => inr a
  | kv :: rest =>
      match set a kv with
      | inr a' => set_fields set a' rest
      | inl e => inl e
      end
  end.

Definition to_album (v : json) : error + Album :=
  match v with
  | JObject fields => set_fields set_album_field (mkAlbum "" "" "" None) fields
  | JNull => inr (mkAlbum "" "" "" None)
  | _ => inl typeError
  end.

Definition set_payload_field (p : payload) (kv : string * json) : error + payload :=
  match field_of ["fetchedAt"; "albums"] kv.1 with
  | Some "fetchedAt" =>
      match set_string (FetchedAt p) kv.2 with
      | inr s => inr (mkPayload s (Albums p))
      | inl e => inl e
      end
  | Some "albums" =>
      match to_slice to_album kv.2 with
      | inr l => inr (mkPayload (FetchedAt p) l)
      | inl e => inl e
      end
  | _ => inr p
  end.

(** [json.Unmarshal(b, &p)] for [var p payload]. *)
Definition Unmarshal (b : string) : error + payload :=
  match parse b with
  | None => inl syntaxError
  | Some (JObject fields) => set_fields set_payload_field (mkPayload "" None) fields
  | Some JNull => inr (mkPayload "" None)
  | Some _ => inl typeError
  end.

Definition Load (fs : Files) (fault : option error) (c : Cache) : error + (slice Album * Time) :=
  match ReadFile fs fault (path c) with
  | inl err => inl err
  | inr b =>
      match Unmarshal b with
      | inl err => inl (wrapError ("parse album cache " ++ path c ++ ": ") err)
      | inr p =>
          if negb (String.eqb (FetchedAt p) "") then
            match RFC3339.Parse (FetchedAt p) with
            | inl err =>
                inl (wrapError ("parse fetchedAt in album cache " ++ path c ++ ": ") err)
            | inr parsed => inr (Albums p, parsed)
            end
          else inr (Albums p, zeroTime)
      end
  end.

(** [Save]; [now] is what [time.Now()] reads. *)
Definition Save (now : Time) (os : Answers) (fs : Files) (c : Cache) (albums : slice Album)
    : option error * Files :=
  let p := mkPayload (RFC3339.Format now) albums in
  match MarshalIndent p with
  | inl err => (Some (wrapError "marshal album cache: " err), fs)
  | inr b =>
  match mkdirAll os with
  | Some err => (Some (wrapError "create album cache parent dir: " err), fs)
  | None =>
  match createTemp os with
  | Some err => (Some (wrapError "create temporary album cache file: " err), fs)
  | None =>
  let tmpPath := tempName (path c) (random os) in
  let fs := <[tmpPath := ""]> fs in
  match write os with
  | Some err =>
      (Some (wrapError "write temporary album cache file: " err),
       cleanup fs tmpPath (leftover os))
  | None =>
  let fs := <[tmpPath := b]> fs in
  match close os with
  | Some err =>
      (Some (wrapError "close temporary album cache file: " err),
       cleanup fs tmpPath (leftover os))
  | None =>
  match rename os with
  | Some err =>
      (Some (wrapError "atomic replace album cache file: " err),
       cleanup fs tmpPath (leftover os))
  | None => (None, <[path c := b]> (delete tmpPath fs))
  end end end end end end.

(** Every string of the albums is valid UTF-8. *)
Definition valid_album (a : Album) : bool :=
  ValidString (CID a) && ValidString (Name a) && ValidString (CoverURL a)
  && forallb ValidString (elems (Artistes a)).
Definition valid_albums (albums : slice Album) : bool := forallb valid_album (elems albums).

End Catalog.

Module CatalogDoubles.
Import Go Slice GoTime FS Model Catalog.
Local Open Scope string_scope.

Definition cachePath : Cache := NewCache "albums_cache.json".

(** The albums of TestCacheSaveLoadRoundTrip. *)
Definition alphaBeta : slice Album :=
  Some [mkAlbum "a1" "Alpha" "https://cover/1" (Some ["Artist 1"]);
        mkAlbum "a2" "Beta" "https://cover/2" (Some ["Artist 2"])].

(** An album whose name is the single byte 0xFF, not valid UTF-8. *)
Definition badName : slice Album :=
  Some [mkAlbum "a1" (String (GoJSON.byte 255) "") "https://cover/1" None].

(** 2026-02-13T10:00:00.25Z, as [time.Now()] returns it. *)
Definition clock : Time := mkTime 63906573600%Z 250000000%Z (Some 17%Z).

(** 0001-01-01T00:00:00.5Z, within the first second of year 1. *)
Definition firstSecond : Time := mkTime 0%Z 500000000%Z (Some 17%Z).

(** 10000-01-01T00:00:00Z, the first second past year 9999. *)
Definition year10000 : Time := mkTime 315537897600%Z 0%Z (Some 17%Z).

(** The disk refuses the final rename. *)
Definition renameRefused : Answers :=
  mkAnswers None None "9" None None (Some (errorString "rename: no space left on device")) None.

End CatalogDoubles.

(** [worker.Run], as an interleaving of its goroutines.  A job is an atomic
    effect on the memory the jobs share, taking place when the job returns; it
    sees whether the context is done. *)
Module Worker.
Import Go.

Section Pool.
Context {St : Type}.

Definition Job : Type := bool -> St -> St * option error.

(** A worker goroutine: blocked in [range jobCh], inside [job(ctx)] for the
    job of that index, or past [wg.Done()]. *)
Inductive worker : Type :=
| Idle
| Running (job : nat)
| Exited.

#[export] Instance worker_eq_dec : EqDecision worker.
Proof. solve_decision. Defined.

(** The calling goroutine: in the enqueue loop, past [close(jobCh)] (in
    [wg.Wait()]), or returned. *)
Inductive phase : Type :=
| Feeding
| Closed
| Returned (result : option error).

Record state : Type := mkState {
  main : phase;
  next : nat;                           (* index of the job the loop offers next *)
  pool : list worker;
  errCh : list error;                   (* buffered, capacity len(jobs) *)
  mem : St;
  cancelled : bool;                     (* ctx.Done() is closed *)
  started : list nat;                   (* jobs taken off jobCh, in order *)
  finished : list (nat * option error)  (* jobs returned, in order, with what they returned *)
}.

Variable jobs : list Job.
Variable cancellable : bool.   (* false for context.Background() *)
Variable ctxErr : error.       (* ctx.Err() once done *)

(** [if workers < 1 { workers = 1 }] *)
Definition coerce (workers : Z) : nat := Z.to_nat (if (workers <? 1)%Z then 1%Z else workers).

(** The state [Run] starts from: an empty job list returns at once, before any
    goroutine is started. *)
Definition init (workers : Z) (m : St) (done : bool) : state :=
  match jobs with
  | [] => mkState (Returned None) 0 [] [] m done [] []
  | _ => mkState Feeding 0 (replicate (coerce workers) Idle) [] m done [] []
  end.

(** [errors.Join(errs...)], with the context's error appended when it is done. *)
Definition joined (s : state) : option error :=
  let errs := errCh s ++ (if cancelled s then [ctxErr] else []) in
  match errs with
  | [] => None
  | _ => Some (joinError errs)
  end.

Definition is_exited (w : worker) : bool :=
  match w with Exited => true | _ => false end.

(** The scheduler's choices. *)
Inductive choice : Type :=
| HandOff (w : nat)      (* [jobCh <- job] meets worker w's receive *)
| ObserveDone            (* the select takes [<-ctx.Done()] *)
| CloseQueue             (* the loop is over: [close(jobCh)] *)
| Finish (w : nat)       (* worker w's job returns *)
| Exit (w : nat)         (* worker w sees jobCh closed *)
| Return                 (* [wg.Wait()] is over: drain errCh, join, return *)
| Cancel.                (* the context is cancelled *)

Definition step_by (c : choice) (s : state) : option state :=
  match c with
  | HandOff w =>
      match main s, pool s !! w, jobs !! next s with
      | Feeding, Some Idle, Some _ =>
          Some (mkState Feeding (S (next s)) (<[w := Running (next s)]> (pool s)) (errCh s)
                  (mem s) (cancelled s) (started s ++ [next s]) (finished s))
      | _, _, _ => None
      end
  | ObserveDone =>
      match main s, jobs !! next s with
      | Feeding, Some _ =>
          if cancelled s
          then Some (mkState Closed (next s) (pool s) (errCh s) (mem s) (cancelled s)
                       (started s) (finished s))
          else None
      | _, _ => None
      end
  | CloseQueue =>
      match main s, jobs !! next s with
      | Feeding, None =>
          Some (mkState Closed (next s) (pool s) (errCh s) (mem s) (cancelled s)
                  (started s) (finished s))
      | _, _ => None
      end
  | Finish w =>
      match pool s !! w with
      | Some (Running i) =>
          match jobs !! i with
          | Some job =>
              let '(m, e) := job (cancelled s) (mem s) in
              match e with
              | None =>
                  Some (mkState (main s) (next s) (<[w := Idle]> (pool s)) (errCh s) m
                          (cancelled s) (started s) (finished s ++ [(i, None)]))
              | Some err =>
                  if (length (errCh s) <? length jobs)
                  then Some (mkState (main s) (next s) (<[w := Idle]> (pool s))
                               (errCh s ++ [err]) m (cancelled s) (started s)
                               (finished s ++ [(i, Some err)]))
                  else None
              end
          | None => None
          end
      | _ => None
      end
  | Exit w =>
      match main s, pool s !! w with
      | Feeding, _ => None
      | _, Some Idle =>
          Some (mkState (main s) (next s) (<[w := Exited]> (pool s)) (errCh s) (mem s)
                  (cancelled s) (started s) (finished s))
      | _, _ => None
      end
  | Return =>
      match main s with
      | Closed =>
          if forallb is_exited (pool s)
          then Some (mkState (Returned (joined s)) (next s) (pool s) (errCh s) (mem s)
                       (cancelled s) (started s) (finished s))
          else None
      | _ => None
      end
  | Cancel =>
      if cancellable && negb (cancelled s)
      then Some (mkState (main s) (next s) (pool s) (errCh s) (mem s) true
                   (started s) (finished s))
      else None
  end.

Definition step (s s' : state) : Prop := exists c, step_by c s = Some s'.

(** Running a schedule; [None] when it asks for a step that cannot be taken. *)
Fixpoint run (schedule : list choice) (s : state) : option state :=
  match schedule with
  | [] => Some s
  | c :: rest =>
      match step_by c s with
      | Some s' => run rest s'
      | None => None
      end
  end.

(** The jobs executing at one moment. *)
Definition running (s : state) : list nat :=
  omap (fun w => match w with Running i => Some i | _ => None end) (pool s).

(** What the jobs that returned reported as failures, in order. *)
Definition failures (s : state) : list error := omap snd (finished s).

End Pool.

End Worker.

Module WorkerDoubles.
Import Go Worker.

Definition errA : error := errorString "job a failed".
Definition errB : error := errorString "job b failed".

(** The jobs of TestRunCollectsErrors; each counts itself in the shared memory. *)
Definition collectJobs : list (@Job nat) :=
  [fun _ n => (S n, Some errA); fun _ n => (S n, None); fun _ n => (S n, Some errB)].

(** One interleaving of [Run(ctx, 2, jobs)] for three jobs. *)
Definition interleaving : list choice :=
  [HandOff 0; HandOff 1; Finish 1; HandOff 1; Finish 0; Finish 1;
   CloseQueue; Exit 1; Exit 0; Return].

End WorkerDoubles.

(** [worker.Run] with jobs as the code has them: a job returns nil, returns
    an error, or does not return at all (it blocks for ever).  The
    goroutines, the channels and the scheduler's choices are those of
    [Worker]; a worker leaves [job(ctx)] only when the job returns. *)
Module Blocking.
Import Go Worker.

Section Pool.
Context {St : Type}.

(** What a job does to the memory the jobs share and what it returns, given
    whether the context is done; [None] when it does not return. *)
Definition Job : Type := bool -> St -> option (St * option error).

Variable jobs : list Job.
Variable cancellable : bool.   (* false for context.Background() *)
Variable ctxErr : error.       (* ctx.Err() once done *)

(** The state [Run] starts from: an empty job list returns at once, before any
    goroutine is started. *)
Definition init (workers : Z) (m : St) (done : bool) : state :=
  match jobs with
  | [] => mkState (Returned None) 0 [] [] m done [] []
  | _ => mkState Feeding 0 (replicate (coerce workers) Idle) [] m done [] []
  end.

Definition step_by (c : choice) (s : @state St) : option state :=
  match c with
  | HandOff w =>
      match main s, pool s !! w, jobs !! next s with
      | Feeding, Some Idle, Some _ =>
          Some (mkState Feeding (S (next s)) (<[w := Running (next s)]> (pool s)) (errCh s)
                  (mem s) (cancelled s) (started s ++ [next s]) (finished s))
      | _, _, _ => None
      end
  | ObserveDone =>
      match main s, jobs !! next s with
      | Feeding, Some _ =>
          if cancelled s
          then Some (mkState Closed (next s) (pool s) (errCh s) (mem s) (cancelled s)
                       (started s) (finished s))
          else None
      | _, _ => None
      end
  | CloseQueue =>
      match main s, jobs !! next s with
      | Feeding, None =>
          Some (mkState Closed (next s) (pool s) (errCh s) (mem s) (cancelled s)
                  (started s) (finished s))
      | _, _ => None
      end
  | Finish w =>
      match pool s !! w with
      | Some (Running i) =>
          match jobs !! i with
          | Some job =>
              match job (cancelled s) (mem s) with
              | None => None
              | Some (m, None) =>
                  Some (mkState (main s) (next s) (<[w := Idle]> (pool s)) (errCh s) m
                          (cancelled s) (started s) (finished s ++ [(i, None)]))
              | Some (m, Some err) =>
                  if (length (errCh s) <? length jobs)
                  then Some (mkState (main s) (next s) (<[w := Idle]> (pool s))
                               (errCh s ++ [err]) m (cancelled s) (started s)
                               (finished s ++ [(i, Some err)]))
                  else None
              end
          | None => None
          end
      | _ => None
      end
  | Exit w =>
      match main s, pool s !! w with
      | Feeding, _ => None
      | _, Some Idle =>
          Some (mkState (main s) (next s) (<[w := Exited]> (pool s)) (errCh s) (mem s)
                  (cancelled s) (started s) (finished s))
      | _, _ => None
      end
  | Return =>
      match main s with
      | Closed =>
          if forallb is_exited (pool s)
          then Some (mkState (Returned (joined ctxErr s)) (next s) (pool s) (errCh s) (mem s)
                       (cancelled s) (started s) (finished s))
          else None
      | _ => None
      end
  | Cancel =>
      if cancellable && negb (cancelled s)
      then Some (mkState (main s) (next s) (pool s) (errCh s) (mem s) true
                   (started s) (finished s))
      else None
  end.

(** Running a schedule; [None] when it asks for a step that cannot be taken. *)
Fixpoint run (schedule : list choice) (s : @state St) : option state :=
  match schedule with
  | [] => Some s
  | c :: rest =>
      match step_by c s with
      | Some s' => run rest s'
      | None => None
      end
  end.

(** Nothing more can happen. *)
Definition halted (s : @state St) : Prop := forall c, step_by c s = None.

(** The job returns, whatever the context and the memory it finds. *)
Definition returns (job : Job) : Prop := forall done m, is_Some (job done m).

(** Calling the jobs one after the other in the given order, the context not
    done: the memory they leave and what each returned. *)
Fixpoint replay (order : list nat) (m : St) : option (St * list (nat * option error)) :=
  match order with
  | [] => Some (m, [])
  | i :: rest =>
      match jobs !! i with
      | Some job =>
          match job false m with
          | Some (m', e) =>
              match replay rest m' with
              | Some (m'', returned) => Some (m'', (i, e) :: returned)
              | None => None
              end
          | None => None
          end
      | None => None
      end
  end.

(** The job seen as one that returns: where it does not, nothing happens. *)
Definition settled (job : Job) : Worker.Job :=
  fun done m => default (m, None) (job done m).

End Pool.

End Blocking.

Module BlockingDoubles.
Import Go Worker WorkerDoubles.

(** The jobs of TestRunCollectsErrors; each counts itself in the shared memory. *)
Definition collected : list (@Blocking.Job nat) :=
  [fun _ n => Some (S n, Some errA); fun _ n => Some (S n, None);
   fun _ n => Some (S n, Some errB)].

(** A job that never returns, and one behind it that would. *)
Definition stuck : list (@Blocking.Job nat) :=
  [fun _ _ => None; fun _ n => Some (S n, None)].

End BlockingDoubles.

(** Reading a trace of the retry executor. *)
Module RetryEvents.
Import Go Retry.

(** An invocation that returned nil. *)
Definition succeeded (e : event) : Prop :=
  match e with Invoked _ _ _ None => True | _ => False end.

End RetryEvents.

(** Package download: file names. *)
Module Names.
Local Open Scope char_scope.

(** The pairs given to [strings.NewReplacer]: every old string and every new
    string is a single byte, so [Replace] maps the input byte by byte, the
    first pair that matches a byte deciding. *)
Definition replacer : list (ascii * ascii) :=
  [(":", "_"); ("/", "_"); ("<", "_"); (">", "_"); ("'", "_");
   ("\", "_"); ("|", "_"); ("?", "_"); ("*", "_"); (" ", "_")].

Definition replace_byte (pairs : list (ascii * ascii)) (c : ascii) : ascii :=
  match find (fun p => Ascii.eqb (fst p) c) pairs with
  | Some p => snd p
  | None => c
  end.

Fixpoint Replace (pairs : list (ascii * ascii)) (s : string) : string :=
  match s with
  | EmptyString => EmptyString
  | String c rest => String (replace_byte pairs c) (Replace pairs rest)
  end.

Definition MakeValid (name : string) : string := Replace replacer name.

(** The bytes a file name must not hold. *)
Definition unsafe (c : ascii) : Prop := In c (map fst replacer).

End Names.

(** Package main: from the picker's selection to the albums to download. *)
Module Selection.
Import Go Model.
Local Open Scope string_scope.
Local Open Scope Z_scope.

(** [for idx := range selected { indexes = append(indexes, idx) }; sort.Ints(indexes)] *)
Definition selectedIndexesFromSet (selected : gset Z) : list Z :=
  merge_sort Z.le (elements selected).

(** The runtime panic of an index expression out of range. *)
Definition indexPanic : error := errorString "runtime error: index out of range".

(** The loop of [albumsFromIndexes]. *)
Fixpoint pickAlbums (albums : list Album) (indexes : list Z) (seen : gset Z)
    (selected : list Album) : error + list Album :=
  match indexes with
  | [] => inr selected
  | idx :: rest =>
      if (idx <? 0) || (Z.of_nat (length albums) <=? idx)
      then inl (errorString ("selected album index " ++ pretty idx ++ " out of bounds"))
      else if bool_decide (idx ∈ seen) then pickAlbums albums rest seen selected
      else
        match albums !! Z.to_nat idx with
        | Some album => pickAlbums albums rest ({[idx]} ∪ seen) (selected ++ [album])
        | None => inl indexPanic
        end
  end.

Definition albumsFromIndexes (albums : list Album) (indexes : list Z) : error + list Album :=
  match indexes with
  | [] => inl (errorString "no albums selected")
  | _ =>
      match pickAlbums albums indexes ∅ [] with
      | inl err => inl err
      | inr [] => inl (errorString "no albums selected")
      | inr selected => inr selected
      end
  end.

(** An index of the list. *)
Definition in_range (albums : list Album) (idx : Z) : Prop :=
  0 <= idx < Z.of_nat (length albums).

(** [albumPickerModel.toggleSelection] on the set of selected indexes. *)
Definition toggleSelection (selected : gset Z) (idx : Z) : gset Z :=
  if bool_decide (idx ∈ selected) then selected ∖ {[idx]} else {[idx]} ∪ selected.

(** [albumPickerModel.toggleSelectAllFiltered]: [filtered] are the indexes the
    filter shows. *)
Definition toggleSelectAllFiltered (filtered : list Z) (selected : gset Z) : gset Z :=
  match filtered with
  | [] => selected
  | _ =>
      if forallb (fun idx => bool_decide (idx ∈ selected)) filtered
      then foldl (fun s idx => s ∖ {[idx]}) selected filtered
      else foldl (fun s idx => {[idx]} ∪ s) selected filtered
  end.

(** [a - b] on int. *)
Definition sub64 (a b : Z) : Z := wrap64 (a - b).

(** [listWindow]: the slice of a list of [total] rows shown in [size] lines
    around the cursor. *)
Definition listWindow (total cursor size : Z) : Z * Z :=
  if total <=? 0 then (0, 0)
  else if (size <=? 0) || (total <=? size) then (0, total)
  else
    let start := sub64 cursor (Z.quot size 2) in
    let start := if start <? 0 then 0 else start in
    let start := if total <? add64 start size then sub64 total size else start in
    (start, add64 start size).

End Selection.

Module SelectionDoubles.
Import Model Selection.
Local Open Scope string_scope.

(** The albums of TestAlbumsFromIndexes. *)
Definition first : Album := mkAlbum "a1" "First" "" None.
Definition second : Album := mkAlbum "a2" "Second" "" None.
Definition third : Album := mkAlbum "a3" "Third" "" None.
Definition firstSecondThird : list Album := [first; second; third].

End SelectionDoubles.

(** Package main: [loadAlbums], the catalog from the cache or from the API. *)
Module Albums.
Import Go GoTime Slice FS Model Catalog Freshness Retry.
Local Open Scope string_scope.

(** The fields of [config.Config] that [loadAlbums] reads. *)
Record Config : Type := mkConfig {
  RefreshAlbums : bool;
  AlbumCacheTTL : Duration
}.

(** What the environment answers during one call: the files and the read
    fault [cache.Load] meets, [time.Now()] at the freshness check, the context,
    [apiClient.GetAlbums] with the process clock and the API's state at the
    first attempt, and [time.Now()] and the operating system during
    [cache.Save]. *)
Record World (St : Type) : Type := mkWorld {
  disk : Files;
  readFault : option error;
  wallNow : Time;
  ctx : Context;
  tie : Z -> bool;
  GetAlbums : Op St (slice Album);
  clock : Instant;
  api : St;
  saveNow : Time;
  os : Answers
}.
Arguments mkWorld {St}.
Arguments disk {St}.
Arguments readFault {St}.
Arguments wallNow {St}.
Arguments ctx {St}.
Arguments tie {St}.
Arguments GetAlbums {St}.
Arguments clock {St}.
Arguments api {St}.
Arguments saveNow {St}.
Arguments os {St}.

(** What a call returns and leaves: the albums, the error, the run of the
    retry executor when the API was asked, the files.  The lines handed to the
    logger are not modelled. *)
Record Loaded (St : Type) : Type := mkLoaded {
  albums : slice Album;
  load_err : option error;
  fetch : option (Run St (slice Album));
  disk_after : Files
}.
Arguments mkLoaded {St}.
Arguments albums {St}.
Arguments load_err {St}.
Arguments fetch {St}.
Arguments disk_after {St}.

Definition fetchAlbums {St : Type} (cache : Cache) (w : World St)
    (hasCached : bool) (cached : slice Album) : Loaded St :=
  let r := withRetryResult None (ctx w) (tie w) 3 (GetAlbums w) (clock w) (api w) in
  match result r with
  | Some err =>
      if hasCached then mkLoaded cached None (Some r) (disk w)
      else mkLoaded None (Some (wrapError "fetch albums: " err)) (Some r) (disk w)
  | None =>
      let saved := Save (saveNow w) (os w) (disk w) cache (value r) in
      mkLoaded (value r) None (Some r) saved.2
  end.

Definition loadAlbums {St : Type} (cfg : Config) (cache : Cache) (w : World St) : Loaded St :=
  match Load (disk w) (readFault w) cache with
  | inr (cached, cachedAt) =>
      if negb (RefreshAlbums cfg)
      then
        if shouldUseCachedAlbums cachedAt (AlbumCacheTTL cfg) (wallNow w)
        then mkLoaded cached None None (disk w)
        else fetchAlbums cache w true cached
      else fetchAlbums cache w true cached
  | inl _ => fetchAlbums cache w false None
  end.

(** How many times the API was asked. *)
Definition api_calls {St : Type} (l : Loaded St) : nat :=
  match fetch l with
  | Some r => invocations (events r)
  | None => 0
  end.

End Albums.

Module AlbumsDoubles.
Import Go GoTime Slice FS Model Catalog CatalogDoubles Retry RetryDoubles Albums.
Local Open Scope Z_scope.

(** An API that answers with two albums, and one that is down. *)
Definition apiUp : Op Z (slice Album) := fun _ calls => mkOutcome (calls + 1) 0 alphaBeta None.

(** A cache TTL of one day. *)
Definition day : Config := mkConfig false (24 * 3600 * Second).



(** A run on an empty directory whose disk refuses the rename. *)
Definition diskFull : World Z :=
  mkWorld ∅ None CatalogDoubles.clock Background no_tie apiUp 0 0 CatalogDoubles.clock
    (StateDoubles.renameFails "9").

End AlbumsDoubles.

(** Package download: the copy loop with the clock reading of each report, and
    the transfer without a callback. *)
Module Reports.
Import Go GoTime Download.
Local Open Scope Z_scope.

(** A report of the loop with the [time.Now()] it was made at; the report at
    the end of the stream reads no clock. *)
Record Stamped : Type := mkStamped {
  at_ : option Time;
  update : ProgressUpdate.t
}.

Record CopiedAt : Type := mkCopiedAt {
  bytesWrittenAt : Z;
  copy_errAt : option error;
  stamped : list Stamped;
  deliveredAt : Z
}.

(** Forgetting the clock readings. *)
Definition erase (c : CopiedAt) : Copied :=
  mkCopied (bytesWrittenAt c) (copy_errAt c) (map update (stamped c)) (deliveredAt c).

Section Copy.
Variable totalBytes : Z.
Variable progress : bool.

(** [copyLoop], every report kept with the clock reading it was made at. *)
Fixpoint copyLoopAt (script : list Tick) (bytesWritten : Z) (lastProgress : Time)
    (updates : list Stamped) (delivered : Z) : option CopiedAt :=
  match script with
  | [] => None
  | tk :: rest =>
      let n := read_n tk in
      let body :=
        if 0 <? n then
          let written := write_n tk in
          let bw := if 0 <? written then add64 bytesWritten written else bytesWritten in
          let dl := if 0 <? written then delivered + written else delivered in
          match write_err tk with
          | Some writeErr => inl (mkCopiedAt bw (Some writeErr) updates dl)
          | None =>
              if negb (written =? n) then inl (mkCopiedAt bw (Some ErrShortWrite) updates dl)
              else if progress then
                let now := Download.clock tk in
                if IsZero lastProgress || (700 * Millisecond <=? Sub now lastProgress)
                then inr (bw, now,
                          updates ++ [mkStamped (Some now) (ProgressUpdate.mk bw totalBytes)], dl)
                else inr (bw, lastProgress, updates, dl)
              else inr (bw, lastProgress, updates, dl)
          end
        else inr (bytesWritten, lastProgress, updates, delivered) in
      match body with
      | inl stopped => Some stopped
      | inr (bw, lp, ups, dl) =>
          match read_err tk with
          | Some EOF =>
              Some (mkCopiedAt bw None
                      (if progress
                       then ups ++ [mkStamped None (ProgressUpdate.mk bw totalBytes)]
                       else ups) dl)
          | Some readErr => Some (mkCopiedAt bw (Some readErr) ups dl)
          | None => copyLoopAt rest bw lp ups dl
          end
      end
  end.

End Copy.

(** The clock readings of the reports made inside the loop, oldest first. *)
Definition readings (ups : list Stamped) : list Time := omap at_ ups.

(** Each reading is at least 700ms after the one before. *)
Fixpoint spaced (last : option Time) (ts : list Time) : Prop :=
  match ts with
  | [] => True
  | t :: rest =>
      match last with
      | Some l => 700 * Millisecond <= Sub t l
      | None => True
      end /\ spaced (Some t) rest
  end.

(** [DownloadToFile]: the transfer without a callback; it returns the content
    type and the error. *)
Definition DownloadToFile (env : Env) (url dstPath : string) : option (string * option error) :=
  match DownloadToFileWithProgress env url dstPath false with
  | None => None
  | Some tr =>
      match transfer_err tr with
      | Some err => Some (EmptyString, Some err)
      | None => Some (FileDownloadResult.ContentType (outcome tr), None)
      end
  end.

(** The stream ends within the script: some read returns an error (io.EOF
    included). *)
Definition ends (script : list Tick) : Prop := Exists (fun tk => read_err tk <> None) script.

(** The byte counts of the updates never decrease. *)
Definition ascending (ups : list ProgressUpdate.t) : Prop :=
  Sorted Z.le (map ProgressUpdate.BytesWritten ups).

End Reports.

Module ReportsDoubles.
Import Go GoTime Download DownloadDoubles Reports.
Local Open Scope Z_scope.

(** [ms] milliseconds after 2026-02-13T10:00:00Z, as [time.Now()] returns it. *)
Definition at_ms (ms : Z) : Time :=
  mkTime 63906573600 (ms * 1000000) (Some (1 + ms * 1000000)).

(** Nine bytes in three reads, 100ms and 900ms after the first, then io.EOF. *)
Definition slow : list Tick :=
  [piece 3 (at_ms 0); piece 2 (at_ms 100); piece 4 (at_ms 900); eof (at_ms 950)].

End ReportsDoubles.

Module WorkerRuns.
Import Go Worker.

(** The jobs of TestRunProcessesAllJobs; each counts itself. *)
Definition countJobs : list (@Job nat) :=
  [fun _ n => (S n, None); fun _ n => (S n, None); fun _ n => (S n, None)].

(** One interleaving of [Run(ctx, 2, jobs)] for them. *)
Definition allThree : list choice :=
  [HandOff 0; HandOff 1; Finish 0; HandOff 0; Finish 1; Finish 0;
   CloseQueue; Exit 0; Exit 1; Return].

(** The single job of TestRunReturnsContextErrorWhenCanceled. *)
Definition oneJob : list (@Job nat) := [fun _ n => (S n, None)].

(** With the context done before the call, the select of the enqueue loop
    takes [<-ctx.Done()], or hands the job to the worker all the same. *)
Definition observed : list choice := [ObserveDone; Exit 0; Return].
Definition handedOff : list choice := [HandOff 0; Finish 0; CloseQueue; Exit 0; Return].

(** Three jobs, two workers, the context cancelled while the first job runs. *)
Definition cancelledMidway : list choice :=
  [HandOff 0; Cancel; ObserveDone; Finish 0; Exit 0; Exit 1; Return].

End WorkerRuns.

(** * Part II: theorems *)

Module RetryFacts.
Import Go Retry RetryDoubles.
Local Open Scope Z_scope.

Lemma wrap64_small z : minInt64 <= z <= maxInt64 -> wrap64 z = z.
Proof.
  unfold wrap64, minInt64, maxInt64. intros H.
  rewrite Z.mod_small; lia.
Qed.

Lemma backoff_exact i :
  0 <= i <= 23058430092 -> backoff i = i * 400 * Millisecond.
Proof.
  intros H. unfold backoff, mul64, Millisecond.
  rewrite (wrap64_small i) by (unfold minInt64, maxInt64; lia).
  rewrite (wrap64_small (i * 400)) by (unfold minInt64, maxInt64; lia).
  apply wrap64_small. unfold minInt64, maxInt64. lia.
Qed.

Lemma invocations_cons e evs :
  invocations (e :: evs) = ((if is_invocation e then 1 else 0) + invocations evs)%nat.
Proof.
  unfold invocations. rewrite filter_cons.
  destruct (is_invocation e) eqn:E; case_decide; simpl; congruence.
Qed.

Lemma select_never ctx now d p :
  never_cancelled ctx -> select_done_or_after ctx now d p = ByTimer (now + Z.max 0 d).
Proof. unfold never_cancelled, select_done_or_after. now intros ->. Qed.

Lemma select_cancelled_first ctx now d p c :
  done_at ctx = Some c -> 0 < d -> c < now + d ->
  select_done_or_after ctx now d p = ByDone (Z.max now c).
Proof.
  unfold select_done_or_after. intros -> Hd H.
  destruct (Z.ltb_spec (Z.max now c) (now + Z.max 0 d)); [done | lia].
Qed.

Lemma select_timer_first ctx now d p c :
  done_at ctx = Some c -> now + Z.max 0 d < c ->
  select_done_or_after ctx now d p = ByTimer (now + Z.max 0 d).
Proof.
  unfold select_done_or_after. intros -> H.
  destruct (Z.ltb_spec (Z.max now c) (now + Z.max 0 d)); [lia |].
  destruct (Z.ltb_spec (now + Z.max 0 d) (Z.max now c)); [done | lia].
Qed.

Section Loop.
Context {St T : Type}.
Variable zero : T.
Variable ctx : Context.
Variable tie : Z -> bool.
Variable attempts : Z.
Variable fn : Op St T.

Abbreviation loop := (retryResultLoop zero ctx tie attempts fn).

Lemma loop_S left i err now m :
  loop (S left) i err now m =
  let o := fn now m in
  let t1 := now + Z.max 0 (took o) in
  let ev := Invoked i now t1 (failure o) in
  match failure o with
  | None => mkRun (ret o) None t1 (next o) [ev]
  | Some callErr =>
      if i =? attempts then mkRun zero (Some callErr) t1 (next o) [ev]
      else
        match select_done_or_after ctx t1 (backoff i) (tie i) with
        | ByDone t => mkRun zero (Some (cause ctx)) t (next o) [ev; Aborted i t]
        | ByTimer t =>
            before [ev; Slept i (backoff i) t]
              (loop left (i + 1) (Some callErr) t (next o))
        end
  end.
Proof. reflexivity. Qed.

Lemma loop_succeeds k : forall left i err now m v,
  succeeds_after fn k m v -> (k < left)%nat ->
  Z.of_nat left = attempts - i + 1 ->
  k = 0%nat \/ never_cancelled ctx ->
  result (loop left i err now m) = None /\
  value (loop left i err now m) = v /\
  invocations (events (loop left i err now m)) = S k.
Proof.
  induction k as [|k IH]; intros left i err now m v Hop Hlt Hleft Hctx;
    (destruct left as [|left]; [lia |]); simpl in *.
  - destruct (Hop now) as [-> ->]. done.
  - destruct (Hop now) as [Hf Hrest].
    destruct (failure (fn now m)) as [e|] eqn:Hfail; [| done].
    destruct (Z.eqb_spec i attempts); [lia |].
    destruct Hctx as [| Hnever]; [done |].
    rewrite select_never by done. simpl.
    rewrite !invocations_cons. simpl.
    destruct (IH left (i + 1) (Some e) (now + Z.max 0 (took (fn now m)) + Z.max 0 (backoff i))
                (next (fn now m)) v) as (-> & -> & ->); auto with lia.
Qed.

Lemma loop_exhausts left : forall i err now m e,
  keeps_failing fn left m e ->
  Z.of_nat left = attempts - i + 1 ->
  never_cancelled ctx ->
  result (loop left i err now m) = Some e /\
  value (loop left i err now m) = zero /\
  invocations (events (loop left i err now m)) = left.
Proof.
  induction left as [|left IH]; intros i err now m e Hop Hleft Hctx; [done |].
  destruct left as [|left].
  - simpl in *. rewrite (Hop now).
    destruct (Z.eqb_spec i attempts); [done | lia].
  - change (keeps_failing fn (S (S left)) m e) with
      (forall t, failure (fn t m) <> None /\ keeps_failing fn (S left) (next (fn t m)) e) in Hop.
    destruct (Hop now) as [Hf Hrest].
    rewrite loop_S. cbv zeta.
    destruct (failure (fn now m)) as [e'|] eqn:Hfail; [| done].
    destruct (Z.eqb_spec i attempts); [lia |].
    rewrite select_never by done.
    unfold before; cbn [value result events app].
    rewrite !invocations_cons. cbn [is_invocation].
    destruct (IH (i + 1) (Some e') (now + Z.max 0 (took (fn now m)) + Z.max 0 (backoff i))
                (next (fn now m)) e) as (-> & -> & ->); auto with lia.
Qed.

(** The loop begins with an invocation whenever an iteration is left. *)
Lemma loop_first_event left i err now m :
  (0 < left)%nat ->
  exists f r, In (Invoked i now f r) (events (loop left i err now m)).
Proof.
  destruct left as [|left]; [lia |]. intros _. simpl.
  exists (now + Z.max 0 (took (fn now m))), (failure (fn now m)).
  destruct (failure (fn now m)); [| simpl; auto].
  destruct (i =? attempts); [simpl; auto |].
  destruct (select_done_or_after _ _ _ _); simpl; auto.
Qed.

(** What follows a failed attempt [i < attempts]. *)
Lemma loop_after_failure left : forall i0 err now m i s f e,
  Z.of_nat left = attempts - i0 + 1 ->
  In (Invoked i s f (Some e)) (events (loop left i0 err now m)) ->
  i < attempts ->
  i0 <= i /\
  match select_done_or_after ctx f (backoff i) (tie i) with
  | ByDone t =>
      In (Aborted i t) (events (loop left i0 err now m)) /\
      result (loop left i0 err now m) = Some (cause ctx) /\
      value (loop left i0 err now m) = zero /\
      final_clock (loop left i0 err now m) = t /\
      Z.of_nat (invocations (events (loop left i0 err now m))) = i - i0 + 1
  | ByTimer t =>
      In (Slept i (backoff i) t) (events (loop left i0 err now m)) /\
      exists f' r, In (Invoked (i + 1) t f' r) (events (loop left i0 err now m))
  end.
Proof.
  induction left as [|left IH]; intros i0 err now m i s f e Hleft Hin Hi; [done |].
  simpl in Hin |- *.
  destruct (failure (fn now m)) as [e'|] eqn:Hfail.
  2:{ simpl in Hin. destruct Hin as [Hin | []]. congruence. }
  destruct (Z.eqb_spec i0 attempts) as [-> | Hne].
  { simpl in Hin. destruct Hin as [Hin | []]. injection Hin as ? _ _ _. lia. }
  destruct (select_done_or_after ctx (now + Z.max 0 (took (fn now m))) (backoff i0) (tie i0))
    as [t | t] eqn:Hsel.
  - simpl in Hin. destruct Hin as [Hin | [Hin | []]]; [| done].
    injection Hin as ? ? ? ?. subst i0 s f e'. split; [lia |]. rewrite Hsel. simpl.
    rewrite !invocations_cons. cbn. repeat split; auto; lia.
  - simpl in Hin. destruct Hin as [Hin | [Hin | Hin]]; [| done |].
    + injection Hin as ? ? ? ?. subst i0 s f e'. split; [lia |]. rewrite Hsel. simpl.
      split; [auto |].
      destruct (loop_first_event left (i + 1) (Some e) t (next (fn now m))) as (f' & r & H);
        [lia |]. exists f', r. auto.
    + destruct (IH (i0 + 1) _ _ _ _ _ _ _ ltac:(lia) Hin Hi) as [Hle Hnext].
      split; [lia |].
      destruct (select_done_or_after ctx f (backoff i) (tie i)); simpl.
      * destruct Hnext as (H1 & H2 & H3 & H4 & H5).
        rewrite !invocations_cons. cbn [is_invocation]. repeat split; auto; lia.
      * destruct Hnext as (H1 & f' & r & H2). split; [auto |]. exists f', r. auto.
Qed.

(** The timer of the select always fires at its deadline. *)
Lemma select_timer_at now d p t :
  select_done_or_after ctx now d p = ByTimer t -> t = now + Z.max 0 d.
Proof.
  unfold select_done_or_after. destruct (done_at ctx) as [c|]; [| by intros [= <-]].
  destruct (Z.max now c <? now + Z.max 0 d); [done |].
  destruct (now + Z.max 0 d <? Z.max now c); [by intros [= <-] |].
  destruct p; [done | by intros [= <-]].
Qed.

(** The attempts before attempt [i] that were followed by a wait of at least
    1.2 s: those from the third on, as long as the back-off is exact. *)
Definition long_waits (i0 i : Z) : Z := Z.max 0 (Z.min i 23058430093 - Z.max i0 3).

(** Attempt [i] cannot start before the waits that precede it are over. *)
Lemma loop_clock left : forall i0 err now m i s f res,
  1 <= i0 ->
  In (Invoked i s f res) (events (loop left i0 err now m)) ->
  i0 <= i /\ now + 1200000000 * long_waits i0 i <= s /\ s <= f.
Proof.
  induction left as [|left IH]; intros i0 err now m i s f res Hi0 Hin; [done |].
  rewrite loop_S in Hin. cbv zeta in Hin.
  assert (Hfirst : Invoked i0 now (now + Z.max 0 (took (fn now m))) (failure (fn now m))
                   = Invoked i s f res ->
                   i0 <= i /\ now + 1200000000 * long_waits i0 i <= s /\ s <= f).
  { intros [= <- <- <- _]. unfold long_waits. lia. }
  destruct (failure (fn now m)) as [e|].
  2:{ destruct Hin as [Hin | []]. by apply Hfirst. }
  destruct (i0 =? attempts).
  { destruct Hin as [Hin | []]. by apply Hfirst. }
  destruct (select_done_or_after _ _ _ _) as [t|t] eqn:Hsel.
  { destruct Hin as [Hin | [Hin | []]]; [by apply Hfirst | done]. }
  apply select_timer_at in Hsel.
  destruct Hin as [Hin | [Hin | Hin]]; [by apply Hfirst | done |].
  destruct (IH (i0 + 1) _ _ _ _ _ _ _ ltac:(lia) Hin) as (Hle & Hs & Hf).
  split; [lia |]. split; [| done].
  assert (Hwait : 1200000000 * long_waits i0 i
                  <= Z.max 0 (backoff i0) + 1200000000 * long_waits (i0 + 1) i).
  { destruct (Z_le_gt_dec i0 23058430092) as [Hsmall | Hbig].
    - rewrite (backoff_exact i0) by lia. unfold long_waits, Millisecond. lia.
    - unfold long_waits. lia. }
  lia.
Qed.

(** On Go's clock, whose readings are int64 nanoseconds, an attempt that is
    followed by a wait has an index whose back-off does not wrap. *)
Lemma loop_index_small left err now m i s f res :
  In (Invoked i s f res) (events (loop left 1 err now m)) ->
  minInt64 <= now -> f <= maxInt64 -> 1 <= i <= 23058430092.
Proof.
  intros Hin Hnow Hf.
  destruct (loop_clock left 1 err now m i s f res ltac:(lia) Hin) as (Hle & Hs & Hsf).
  split; [done |].
  destruct (Z_le_gt_dec i 23058430092) as [| Hbig]; [done |].
  unfold long_waits, minInt64, maxInt64 in *. lia.
Qed.

End Loop.

Lemma retryLoop_as_result {St : Type} ctx tie attempts (fn : Op St unit) left :
  forall i err now m,
  retryLoop ctx tie attempts fn left i err now m
  = retryResultLoop tt ctx tie attempts fn left i err now m.
Proof.
  induction left as [|left IH]; intros; simpl; [done |].
  destruct (failure (fn now m)); [| by destruct (ret (fn now m))].
  destruct (i =? attempts); [done |].
  destruct (select_done_or_after _ _ _ _); [done |]. by rewrite IH.
Qed.

Lemma withRetry_as_result {St : Type} ctx tie attempts (fn : Op St unit) now m :
  withRetry ctx tie attempts fn now m = withRetryResult tt ctx tie attempts fn now m.
Proof. apply retryLoop_as_result. Qed.

Lemma coerce_pos N : 1 <= coerce N.
Proof. unfold coerce. destruct (Z.ltb_spec N 1); lia. Qed.


(** C1 (amended).  With cancellation never signalled: an operation that fails on
    its first k < N invocations and then succeeds makes [withRetryResult] and
    [withRetry] return that success after exactly k+1 invocations; an operation
    that fails on each of its N invocations is invoked exactly N times and the
    failure of the N-th invocation is returned (N < 1 counting as 1). *)
Theorem retry_attempt_count {St T : Type} (zero : T) ctx tie N
    (fn : Op St T) (fn0 : Op St unit) now m :
  never_cancelled ctx ->
  (forall k v, Z.of_nat k < coerce N -> succeeds_after fn k m v ->
     let r := withRetryResult zero ctx tie N fn now m in
     result r = None /\ value r = v /\ invocations (events r) = S k) /\
  (forall k, Z.of_nat k < coerce N -> succeeds_after fn0 k m tt ->
     let r := withRetry ctx tie N fn0 now m in
     result r = None /\ invocations (events r) = S k) /\
  (forall e, keeps_failing fn (Z.to_nat (coerce N)) m e ->
     let r := withRetryResult zero ctx tie N fn now m in
     result r = Some e /\ Z.of_nat (invocations (events r)) = coerce N) /\
  (forall e, keeps_failing fn0 (Z.to_nat (coerce N)) m e ->
     let r := withRetry ctx tie N fn0 now m in
     result r = Some e /\ Z.of_nat (invocations (events r)) = coerce N).
Proof.
  intros Hctx. pose proof (coerce_pos N) as HN.
  split; [| split; [| split]].
  - intros k v Hk Hop r. subst r. unfold withRetryResult.
    apply loop_succeeds; auto; lia.
  - intros k Hk Hop r. subst r. rewrite withRetry_as_result. unfold withRetryResult.
    destruct (loop_succeeds tt ctx tie (coerce N) fn0 k (Z.to_nat (coerce N)) 1 None now m tt)
      as (H1 & _ & H2); auto; lia.
  - intros e Hop r. subst r. unfold withRetryResult.
    destruct (loop_exhausts zero ctx tie (coerce N) fn (Z.to_nat (coerce N)) 1 None now m e)
      as (H1 & _ & H2); auto; [lia |].
    rewrite H1, H2. split; [done | lia].
  - intros e Hop r. subst r. rewrite withRetry_as_result. unfold withRetryResult.
    destruct (loop_exhausts tt ctx tie (coerce N) fn0 (Z.to_nat (coerce N)) 1 None now m e)
      as (H1 & _ & H2); auto; [lia |].
    rewrite H1, H2. split; [done | lia].
Qed.

(** The closures of TestWithRetryResultEventuallySucceeds (fails once, then 42)
    and TestWithRetryReturnsLastError, under [context.Background()]. *)
Lemma retry_attempt_count_witness :
  (let r := withRetryResult 0 Background no_tie 3 (transient_then 2 0 42) 0 0 in
   result r = None /\ value r = 42 /\ invocations (events r) = 2%nat) /\
  (let r := withRetry Background no_tie 2 (always_fails tt (errorString "permanent")) 0 0 in
   result r = Some (errorString "permanent") /\ Z.of_nat (invocations (events r)) = 2).
Proof.
  split.
  - apply (retry_attempt_count 0 Background no_tie 3 (transient_then 2 0 42)
             (transient_until 2) 0 0 eq_refl).
    + reflexivity.
    + simpl. intros t. split; [discriminate |]. intros t'. split; reflexivity.
  - apply (retry_attempt_count tt Background no_tie 2 (always_fails tt (errorString "permanent"))
             (always_fails tt (errorString "permanent")) 0 0 eq_refl).
    simpl. intros t. split; [discriminate |]. intros t'. reflexivity.
Defined.

(** C1 as stated fails once the context is cancelled: an operation that fails
    once and would then succeed is invoked once, not twice, and the executor
    returns the cancellation instead of the success. *)
Lemma retry_success_lost_to_cancellation :
  succeeds_after (transient_until 2) 1 0 tt /\
  1 < coerce 3 /\
  result (withRetry cancelled no_tie 3 (transient_until 2) 0 0) = Some Canceled /\
  invocations (events (withRetry cancelled no_tie 3 (transient_until 2) 0 0)) = 1%nat.
Proof.
  repeat split; try reflexivity; try discriminate.
Qed.

(** C2.  Instants being readings of Go's clock, int64 nanoseconds (the call
    is made at such an instant and the deadline of the timer is one): for
    1 <= i < N, once attempt i has failed at instant f, either the timer fires
    first, the executor has slept exactly i x 400ms and attempt i+1 starts at
    f + i x 400ms; or cancellation is signalled before the timer fires, and
    the executor returns at that instant with the context's error, after i
    invocations, whatever error the operation returned. *)
Theorem retry_backoff {St : Type} ctx tie N (fn : Op St unit) now m i s f e :
  let r := withRetry ctx tie N fn now m in
  let d := i * 400 * Millisecond in
  minInt64 <= now -> f + d <= maxInt64 ->
  1 <= i < coerce N ->
  In (Invoked i s f (Some e)) (events r) ->
  ((done_at ctx = None \/ exists c, done_at ctx = Some c /\ f + d < c) ->
     In (Slept i d (f + d)) (events r) /\
     exists f' r', In (Invoked (i + 1) (f + d) f' r') (events r)) /\
  (forall c, done_at ctx = Some c -> c < f + d ->
     In (Aborted i (Z.max f c)) (events r) /\
     result r = Some (cause ctx) /\
     final_clock r = Z.max f c /\
     Z.of_nat (invocations (events r)) = i).
Proof.
  intros r d Hnow Hdeadline Hi Hin. subst r. rewrite withRetry_as_result in *.
  unfold withRetryResult in *.
  assert (Hd : 0 < d) by (unfold d, Millisecond; lia).
  destruct (loop_index_small tt ctx tie (coerce N) fn (Z.to_nat (coerce N)) None now m
              i s f (Some e) Hin Hnow ltac:(lia)) as [_ Hrange].
  destruct (loop_after_failure tt ctx tie (coerce N) fn (Z.to_nat (coerce N)) 1 None now m
              i s f e ltac:(pose proof (coerce_pos N); lia) Hin ltac:(lia)) as [_ Hnext].
  rewrite (backoff_exact i) in Hnext by lia. fold d in Hnext.
  split.
  - intros Hfree.
    assert (select_done_or_after ctx f d (tie i) = ByTimer (f + d)) as Hsel.
    { destruct Hfree as [Hnone | (c & Hc & Hlate)].
      - rewrite select_never by done. f_equal. lia.
      - rewrite (select_timer_first _ _ _ _ c) by (auto; lia). f_equal. lia. }
    rewrite Hsel in Hnext. exact Hnext.
  - intros c Hc Hearly.
    rewrite (select_cancelled_first _ _ _ _ c) in Hnext by auto.
    destruct Hnext as (H1 & H2 & _ & H3 & H4). repeat split; auto. lia.
Qed.

Lemma retry_backoff_witness :
  let r := withRetry Background no_tie 3 (transient_until 3) 0 0 in
  In (Slept 2 800000000 1200000000) (events r) /\
  exists f' r', In (Invoked 3 1200000000 f' r') (events r).
Proof.
  refine (proj1 (retry_backoff Background no_tie 3 (transient_until 3) 0 0 2 400000000
                   400000000 (errorString "transient") _ _ _ _) _).
  - unfold minInt64. lia.
  - unfold maxInt64, Millisecond. lia.
  - change (coerce 3) with 3. lia.
  - vm_compute. auto.
  - left. reflexivity.
Defined.

(** C3 (amended).  With the context cancelled before the call, the operation is
    invoked exactly once; the executor returns success when that invocation
    succeeds, the operation's own failure when N is 1 (or less), and the
    context's error when the invocation fails and N >= 2. *)
Theorem retry_cancelled_upfront {St T : Type} (zero : T) ctx tie N
    (fn : Op St T) (fn0 : Op St unit) now m c :
  done_at ctx = Some c -> c <= now ->
  (let r := withRetryResult zero ctx tie N fn now m in
   invocations (events r) = 1%nat /\
   result r = match failure (fn now m) with
              | None => None
              | Some e => if coerce N =? 1 then Some e else Some (cause ctx)
              end /\
   (failure (fn now m) = None -> value r = ret (fn now m))) /\
  (let r := withRetry ctx tie N fn0 now m in
   invocations (events r) = 1%nat /\
   result r = match failure (fn0 now m) with
              | None => None
              | Some e => if coerce N =? 1 then Some e else Some (cause ctx)
              end).
Proof.
  intros Hc Hle.
  assert (Hgen : forall (T' : Type) (z : T') (g : Op St T'),
    let r := withRetryResult z ctx tie N g now m in
    invocations (events r) = 1%nat /\
    result r = match failure (g now m) with
               | None => None
               | Some e => if coerce N =? 1 then Some e else Some (cause ctx)
               end /\
    (failure (g now m) = None -> value r = ret (g now m))).
  { intros T' z g r. subst r. unfold withRetryResult.
    pose proof (coerce_pos N) as HN.
    destruct (Z.to_nat (coerce N)) as [|left] eqn:Hleft; [lia |].
    rewrite loop_S. cbv zeta.
    destruct (failure (g now m)) as [e|]; [| done].
    rewrite (Z.eqb_sym (coerce N) 1).
    destruct (1 =? coerce N); [by split |].
    rewrite (select_cancelled_first _ _ _ _ c); auto; [| reflexivity | ].
    - by split.
    - change (backoff 1) with 400000000. lia. }
  split.
  - apply Hgen.
  - intros r. subst r. rewrite withRetry_as_result.
    destruct (Hgen unit tt fn0) as (H1 & H2 & _). auto.
Qed.

Lemma retry_cancelled_upfront_witness :
  let r := withRetry cancelled no_tie 3 (always_fails tt (errorString "retryable")) 0 0 in
  invocations (events r) = 1%nat /\ result r = Some Canceled.
Proof.
  apply (retry_cancelled_upfront tt cancelled no_tie 3
           (always_fails tt (errorString "retryable"))
           (always_fails tt (errorString "retryable")) 0 0 0); [reflexivity | lia].
Defined.

(** C3 as stated fails for an operation that succeeds on its first invocation:
    with the context already cancelled the executor still reports success; and
    with N = 1 a failing operation's own error comes back, not the
    cancellation. *)
Lemma retry_cancelled_upfront_still_succeeds :
  Done cancelled 0 = true /\
  result (withRetry cancelled no_tie 3 (transient_until 1) 0 0) = None /\
  result (withRetry cancelled no_tie 1 (always_fails tt (errorString "retryable")) 0 0)
    = Some (errorString "retryable").
Proof. repeat split. Qed.

End RetryFacts.

Module FreshnessFacts.
Import Go GoTime Freshness.
Local Open Scope Z_scope.

Lemma Sub_exact t u :
  minInt64 <= elapsed t u <= maxInt64 -> Sub t u = elapsed t u.
Proof. unfold Sub, clamp64, maxInt64, minInt64. intros. lia. Qed.

(** Saturation only matters for a TTL equal to the largest Duration. *)
Lemma Sub_le_exact t u ttl :
  minInt64 <= ttl < maxInt64 -> (Sub t u <= ttl <-> elapsed t u <= ttl).
Proof. unfold Sub, clamp64, maxInt64, minInt64. intros. lia. Qed.

Lemma Sub_negative t u : Sub t u < 0 <-> elapsed t u < 0.
Proof. unfold Sub, clamp64, maxInt64, minInt64. lia. Qed.

(** C4 (amended).  [shouldUseCachedAlbums] answers true whenever ttl <= 0;
    otherwise false for the zero timestamp; otherwise, for a ttl below the
    largest Duration, true exactly when now - fetchedAt <= ttl, a negative
    difference included, where the difference is taken on the monotonic clock
    when both times carry a reading and on the wall clock otherwise; and for
    the largest Duration as ttl, true for every timestamp that is not zero. *)
Theorem shouldUseCachedAlbums_spec (cachedAt : Time) (ttl : Duration) (now : Time) :
  let wall := (sec now - sec cachedAt) * 1000000000 + (nsec now - nsec cachedAt) in
  let age := match mono now, mono cachedAt with
             | Some a, Some b => a - b
             | _, _ => wall
             end in
  (ttl <= 0 -> shouldUseCachedAlbums cachedAt ttl now = true) /\
  (0 < ttl -> IsZero cachedAt = true -> shouldUseCachedAlbums cachedAt ttl now = false) /\
  (0 < ttl < maxInt64 -> IsZero cachedAt = false ->
     (shouldUseCachedAlbums cachedAt ttl now = true <-> age <= ttl)) /\
  (0 < ttl -> IsZero cachedAt = false -> age < 0 ->
     shouldUseCachedAlbums cachedAt ttl now = true) /\
  (maxInt64 <= ttl -> IsZero cachedAt = false ->
     shouldUseCachedAlbums cachedAt ttl now = true).
Proof.
  intros wall age.
  assert (Hage : age = elapsed now cachedAt).
  { unfold age, wall, elapsed, Second. by destruct (mono now), (mono cachedAt). }
  rewrite Hage. clear Hage age wall.
  unfold shouldUseCachedAlbums.
  split; [| split; [| split; [| split]]].
  - intros H. destruct (Z.leb_spec ttl 0); [done | lia].
  - intros H Hz. destruct (Z.leb_spec ttl 0); [lia |]. by rewrite Hz.
  - intros H Hz. destruct (Z.leb_spec ttl 0); [lia |]. rewrite Hz.
    rewrite <- (Sub_le_exact now cachedAt ttl) by (unfold minInt64; lia).
    destruct (Z.ltb_spec (Sub now cachedAt) 0); [split; [intros; lia | done] |].
    apply Z.leb_le.
  - intros H Hz Hneg. destruct (Z.leb_spec ttl 0); [lia |]. rewrite Hz.
    apply Sub_negative in Hneg.
    destruct (Z.ltb_spec (Sub now cachedAt) 0); [done | lia].
  - intros H Hz. assert (0 < ttl) by (unfold maxInt64 in H; lia).
    destruct (Z.leb_spec ttl 0); [lia |]. rewrite Hz.
    destruct (Z.ltb_spec (Sub now cachedAt) 0); [done |].
    apply Z.leb_le. unfold Sub, clamp64, maxInt64, minInt64 in *. lia.
Qed.

(** C4 as stated fails for the largest Duration as ttl: a cache stamped in
    year 1 is used in 2026, although now - fetchedAt, more than 2^63-1
    nanoseconds, exceeds the ttl; [Time.Sub] has saturated. *)
Lemma fresh_beyond_largest_ttl :
  shouldUseCachedAlbums (mkTime 1 0 None) maxInt64 (mkTime 63906573600 0 None) = true /\
  IsZero (mkTime 1 0 None) = false /\
  0 < maxInt64 /\
  maxInt64 < (63906573600 - 1) * 1000000000 + (0 - 0).
Proof. repeat split. Qed.

End FreshnessFacts.

Module DownloadFacts.
Import Go GoTime Download DownloadDoubles.
Local Open Scope Z_scope.

Lemma wrap64_exact z : minInt64 <= z <= maxInt64 -> wrap64 z = z.
Proof.
  unfold wrap64, minInt64, maxInt64. intros H.
  rewrite Z.mod_small; lia.
Qed.

Lemma add64_wrap64 a b : add64 (wrap64 a) b = wrap64 (a + b).
Proof.
  unfold add64, wrap64. f_equal.
  replace ((a + 2 ^ 63) mod 2 ^ 64 - 2 ^ 63 + b + 2 ^ 63)
    with ((a + 2 ^ 63) mod 2 ^ 64 + b) by lia.
  rewrite Z.add_mod_idemp_l by lia. f_equal. lia.
Qed.

Section Copy.
Variable totalBytes : Z.
Variable progress : bool.

Abbreviation loop := (copyLoop totalBytes progress).

(** The counter is the int64 image of the bytes delivered, and a copy that
    ends without error has reported the counter last. *)
Lemma copyLoop_counter script : forall bw lp ups dl c,
  loop script bw lp ups dl = Some c ->
  bw = wrap64 dl ->
  bytesWritten c = wrap64 (delivered c) /\
  (copy_err c = None -> progress = true ->
   exists earlier, updates c = earlier ++ [ProgressUpdate.mk (bytesWritten c) totalBytes]).
Proof.
  induction script as [|tk rest IH]; intros bw lp ups dl c Hrun Hbw; [done |].
  simpl in Hrun.
  assert (Hbw' : (if 0 <? write_n tk then add64 bw (write_n tk) else bw)
                 = wrap64 (if 0 <? write_n tk then dl + write_n tk else dl)).
  { destruct (0 <? write_n tk); [| done]. subst bw. apply add64_wrap64. }
  destruct (0 <? read_n tk).
  - destruct (write_err tk) as [writeErr|].
    { injection Hrun as <-. simpl. split; [done | discriminate]. }
    destruct (negb (write_n tk =? read_n tk)).
    { injection Hrun as <-. simpl. split; [done | discriminate]. }
    set (bw' := if 0 <? write_n tk then add64 bw (write_n tk) else bw) in *.
    set (dl' := if 0 <? write_n tk then dl + write_n tk else dl) in *.
    assert (Hrest : forall lp' ups',
      match read_err tk with
      | Some EOF =>
          Some (mkCopied bw' None
                  (if progress then ups' ++ [ProgressUpdate.mk bw' totalBytes] else ups') dl')
      | Some readErr => Some (mkCopied bw' (Some readErr) ups' dl')
      | None => loop rest bw' lp' ups' dl'
      end = Some c ->
      bytesWritten c = wrap64 (delivered c) /\
      (copy_err c = None -> progress = true ->
       exists earlier, updates c = earlier ++ [ProgressUpdate.mk (bytesWritten c) totalBytes])).
    { intros lp' ups' H. destruct (read_err tk) as [readErr|]; [| by eapply IH].
      destruct readErr; injection H as <-; simpl; (split; [done |]); try discriminate.
      intros _ ->. by eexists. }
    destruct progress; [| by eapply Hrest].
    destruct (IsZero lp || (700 * Millisecond <=? Sub (clock tk) lp)); by eapply Hrest.
  - destruct (read_err tk) as [readErr|]; [| by eapply IH].
    destruct readErr; injection Hrun as <-; simpl; (split; [done |]); try discriminate.
    intros _ ->. by eexists.
Qed.

(** A run of identical full-size chunks that all arrive at the clock reading of
    the last report: the counter advances, nothing is reported. *)
Lemma copyLoop_steady (tk : Tick) (k : nat) : forall rest dl ups,
  (0 <? read_n tk) = true -> write_n tk = read_n tk ->
  write_err tk = None -> read_err tk = None ->
  IsZero (clock tk) = false -> Sub (clock tk) (clock tk) < 700 * Millisecond ->
  loop (repeat tk k ++ rest) (wrap64 dl) (clock tk) ups dl
  = loop rest (wrap64 (dl + Z.of_nat k * read_n tk)) (clock tk) ups
      (dl + Z.of_nat k * read_n tk).
Proof.
  intros rest dl ups Hn Hw Hwe Hre Hz Hsub. revert dl.
  induction k as [|k IH]; intros dl.
  - simpl. by rewrite Z.add_0_r.
  - cbn [repeat app copyLoop]. rewrite Hw, Hn, Hwe, Hre, Z.eqb_refl, Hz. cbn [negb orb].
    destruct (Z.leb_spec (700 * Millisecond) (Sub (clock tk) (clock tk))); [lia |].
    destruct progress; rewrite add64_wrap64, IH;
      by replace (dl + read_n tk + Z.of_nat k * read_n tk)
        with (dl + Z.of_nat (S k) * read_n tk) by lia.
Qed.

Lemma copyLoop_delivered script : forall bw lp ups dl c,
  loop script bw lp ups dl = Some c -> dl <= delivered c.
Proof.
  induction script as [|tk rest IH]; intros bw lp ups dl c Hrun; [done |].
  simpl in Hrun.
  assert (Hdl : dl <= (if 0 <? write_n tk then dl + write_n tk else dl)).
  { destruct (Z.ltb_spec 0 (write_n tk)); lia. }
  assert (Hrest : forall bw' lp' ups' dl',
    dl <= dl' ->
    match read_err tk with
    | Some EOF =>
        Some (mkCopied bw' None
                (if progress then ups' ++ [ProgressUpdate.mk bw' totalBytes] else ups') dl')
    | Some readErr => Some (mkCopied bw' (Some readErr) ups' dl')
    | None => loop rest bw' lp' ups' dl'
    end = Some c -> dl <= delivered c).
  { intros bw' lp' ups' dl' Hle H. destruct (read_err tk) as [readErr|].
    - destruct readErr; by injection H as <-.
    - apply IH in H. lia. }
  destruct (0 <? read_n tk); [| eapply Hrest; [| exact Hrun]; lia].
  destruct (write_err tk); [by injection Hrun as <- |].
  destruct (negb (write_n tk =? read_n tk)); [by injection Hrun as <- |].
  destruct progress; [| eapply Hrest; [| exact Hrun]; lia].
  destruct (IsZero lp || (700 * Millisecond <=? Sub (clock tk) lp));
    (eapply Hrest; [| exact Hrun]; lia).
Qed.

End Copy.

(** C9 (amended).  A transfer that ends successfully with a progress callback
    and has written at most 2^63-1 bytes hands the callback, as its last
    update, the number of bytes written to the destination, which is also the
    returned BytesWritten, together with the declared length, or -1 when no
    positive length was declared. *)
Theorem final_progress_update env url dstPath resp tr :
  doRequest env = inr resp ->
  DownloadToFileWithProgress env url dstPath true = Some tr ->
  transfer_err tr = None ->
  on_disk tr <= maxInt64 ->
  FileDownloadResult.BytesWritten (outcome tr) = on_disk tr /\
  exists earlier,
    reported tr = earlier ++
      [ProgressUpdate.mk (on_disk tr)
         (if 0 <? ContentLength resp then ContentLength resp else -1)].
Proof.
  intros Hresp Hrun Hok Hsize. unfold DownloadToFileWithProgress, failed in Hrun.
  rewrite Hresp in Hrun.
  destruct (newRequest env); [injection Hrun as <-; discriminate |].
  destruct ((StatusCode resp <? 200) || (300 <=? StatusCode resp));
    [injection Hrun as <-; discriminate |].
  destruct (mkdirAll env); [injection Hrun as <-; discriminate |].
  destruct (create env); [injection Hrun as <-; discriminate |].
  destruct (copyWithProgress _ true (Body resp)) as [c|] eqn:Hcopy; [| done].
  destruct (copy_err c) eqn:Herr; injection Hrun as <-; [discriminate |].
  simpl in *. unfold copyWithProgress in Hcopy.
  pose proof (copyLoop_delivered _ _ _ _ _ _ _ _ Hcopy) as Hpos.
  destruct (copyLoop_counter _ _ _ _ _ _ _ _ Hcopy eq_refl) as [Hbw Hlast].
  rewrite wrap64_exact in Hbw by (unfold minInt64, maxInt64 in *; lia).
  split; [done |].
  destruct (Hlast Herr eq_refl) as [earlier ->]. exists earlier.
  rewrite Hbw. do 3 f_equal.
  destruct (Z.leb_spec (ContentLength resp) 0), (Z.ltb_spec 0 (ContentLength resp)); lia.
Qed.

Lemma final_progress_update_witness :
  exists tr,
    DownloadToFileWithProgress (serving small) "http://host/a" "out/a.wav" true = Some tr /\
    FileDownloadResult.BytesWritten (outcome tr) = 5 /\
    reported tr = [ProgressUpdate.mk 3 5; ProgressUpdate.mk 5 5].
Proof.
  eexists. split; [reflexivity |].
  destruct (final_progress_update (serving small) "http://host/a" "out/a.wav" small _
              eq_refl eq_refl eq_refl) as [Hbw [earlier Hlast]].
  - vm_compute. discriminate.
  - split; [exact Hbw | reflexivity].
Defined.

Lemma steady_chunks (k : nat) rest ups dl :
  copyLoop (-1) true (repeat (chunk t0) k ++ rest) (wrap64 dl) t0 ups dl
  = copyLoop (-1) true rest (wrap64 (dl + Z.of_nat k * 32768)) t0 ups
      (dl + Z.of_nat k * 32768).
Proof. apply (copyLoop_steady (-1) true (chunk t0) k); reflexivity. Qed.

(** One buffer is reported at once, the following [k] go unreported, and the
    end of the stream reports the counter: after 2^48 buffers it has wrapped. *)
Lemma wraps_chunks (k : nat) :
  Z.of_nat k = 281474976710655 ->
  copyWithProgress (-1) true (repeat (chunk t0) (S k) ++ [eof t0])
  = Some (mkCopied (-9223372036854775808) None
            [ProgressUpdate.mk 32768 (-1); ProgressUpdate.mk (-9223372036854775808) (-1)]
            9223372036854775808).
Proof.
  intros Hk. unfold copyWithProgress.
  change (repeat (chunk t0) (S k) ++ [eof t0])
    with (chunk t0 :: (repeat (chunk t0) k ++ [eof t0])).
  change (copyLoop (-1) true (repeat (chunk t0) k ++ [eof t0]) (wrap64 32768) t0
            [ProgressUpdate.mk 32768 (-1)] 32768 = Some
    (mkCopied (-9223372036854775808) None
       [ProgressUpdate.mk 32768 (-1); ProgressUpdate.mk (-9223372036854775808) (-1)]
       9223372036854775808)).
  rewrite steady_chunks. rewrite Hk.
  reflexivity.
Qed.

Lemma wraps_transfer (k : nat) :
  Z.of_nat k = 281474976710655 ->
  DownloadToFileWithProgress
    (serving (mkResponse 200 (-1) "audio/wav" (repeat (chunk t0) (S k) ++ [eof t0])))
    "http://host/a" "out/a.wav" true
  = Some (mkTransfer
            (FileDownloadResult.mk "audio/wav" (-9223372036854775808) 0)
            None
            [ProgressUpdate.mk 32768 (-1); ProgressUpdate.mk (-9223372036854775808) (-1)]
            9223372036854775808).
Proof.
  intros Hk. unfold DownloadToFileWithProgress, serving.
  cbn [newRequest doRequest StatusCode mkdirAll create ContentLength Body
       ContentTypeHeader started finished].
  change ((200 <? 200) || (300 <=? 200)) with false. cbv iota.
  change (-1 <=? 0) with true. cbv iota.
  rewrite (wraps_chunks k Hk). reflexivity.
Qed.

(** C9 as stated fails once the byte counter wraps: after 2^48 buffers of
    32 KiB the destination holds 2^63 bytes, while the final update and the
    returned BytesWritten carry -2^63. *)
Lemma final_progress_update_wraps :
  DownloadToFileWithProgress (serving huge) "http://host/a" "out/a.wav" true
  = Some (mkTransfer
            (FileDownloadResult.mk "audio/wav" (-9223372036854775808) 0)
            None
            [ProgressUpdate.mk 32768 (-1); ProgressUpdate.mk (-9223372036854775808) (-1)]
            9223372036854775808).
Proof.
  exact (wraps_transfer (Z.to_nat 281474976710655) (Z2Nat.id 281474976710655 ltac:(lia))).
Qed.

End DownloadFacts.

(** What [json.Unmarshal] reads back from what [json.Marshal] and
    [json.MarshalIndent] write. *)
Module GoJSONFacts.
Import Go Slice GoJSON.
Local Open Scope string_scope.

Lemma append_cons (c : ascii) (a b : string) : String c a ++ b = String c (a ++ b).
Proof. reflexivity. Qed.

Lemma append_nil_l (s : string) : "" ++ s = s.
Proof. reflexivity. Qed.

(** Literal prefixes are pushed through the appends. *)
Ltac push := repeat (rewrite append_cons || rewrite append_nil_l).

Lemma append_nil_r (s : string) : s ++ "" = s.
Proof. induction s as [|c s IH]; [done | by rewrite append_cons, IH]. Qed.

Lemma append_assoc (a b c : string) : (a ++ b) ++ c = a ++ (b ++ c).
Proof. induction a as [|x a IH]; [done | by rewrite !append_cons, IH]. Qed.

Lemma length_append (a b : string) :
  String.length (a ++ b) = (String.length a + String.length b)%nat.
Proof. induction a as [|x a IH]; [done | rewrite append_cons; simpl; by rewrite IH]. Qed.

Lemma code_byte (c : ascii) : byte (code c) = c.
Proof. apply ascii_N_embedding. Qed.

Lemma code_inj (c d : ascii) : code c = code d -> c = d.
Proof. intros H. by rewrite <- (code_byte c), <- (code_byte d), H. Qed.

Lemma high_bytes (c : ascii) :
  (code c <? 128)%N = false ->
  Ascii.eqb c dquote = false /\ Ascii.eqb c backslash = false /\ (code c <? 32)%N = false.
Proof.
  intros H. apply N.ltb_ge in H. repeat split.
  - destruct (Ascii.eqb_spec c dquote) as [->|]; [vm_compute in H; by destruct H | done].
  - destruct (Ascii.eqb_spec c backslash) as [->|]; [vm_compute in H; by destruct H | done].
  - apply N.ltb_ge. lia.
Qed.

(** One ASCII byte, written and read. *)
Lemma ascii_step (c : ascii) :
  (code c <? 128)%N = true ->
  forall fuel rest acc,
    string_body (S fuel) ((if html_safe c then String c "" else escape_ascii c) ++ rest) acc
    = string_body fuel rest (acc ++ String c "").
Proof.
  destruct c as [b0 b1 b2 b3 b4 b5 b6 b7].
  destruct b7; [destruct b0, b1, b2, b3, b4, b5, b6; intros H; vm_compute in H; discriminate H |].
  intros _ fuel rest acc.
  destruct b0, b1, b2, b3, b4, b5, b6; reflexivity.
Qed.

Lemma ascii_escape_length (c : ascii) :
  (1 <= String.length (if html_safe c then String c "" else escape_ascii c))%nat.
Proof.
  destruct (html_safe c); [simpl; lia |].
  unfold escape_ascii. repeat (case_match; simpl; try lia).
Qed.

(** A well-formed encoding at the head of a string is recognised whatever
    follows it. *)
Lemma rune_size_spec (s : string) (n : nat) :
  rune_size s = Some n ->
  (1 <= n)%nat /\ String.length (take n s) = n /\ s = take n s ++ drop n s /\
  forall t, rune_size (take n s ++ t) = Some n /\
            take n (take n s ++ t) = take n s /\ drop n (take n s ++ t) = t.
Proof.
  assert (Hgoal : forall r s' n',
    String.length r = n' -> (1 <= n')%nat -> take n' (r ++ s') = r -> drop n' (r ++ s') = s' ->
    (forall t, rune_size (r ++ t) = Some n') ->
    (forall t, take n' (r ++ t) = r /\ drop n' (r ++ t) = t) ->
    (1 <= n')%nat /\ String.length (take n' (r ++ s')) = n' /\
    r ++ s' = take n' (r ++ s') ++ drop n' (r ++ s') /\
    forall t, rune_size (take n' (r ++ s') ++ t) = Some n' /\
              take n' (take n' (r ++ s') ++ t) = take n' (r ++ s') /\
              drop n' (take n' (r ++ s') ++ t) = t).
  { intros r s' n' Hlen Hpos Htake Hdrop Hsize Hany. rewrite Htake, Hdrop.
    split; [done |]. split; [done |]. split; [done |].
    intros t. split; [apply Hsize | apply Hany]. }
  destruct s as [|b0 s]; [done |]. unfold rune_size.
  destruct (code b0 <? 128)%N eqn:H0.
  { intros [= <-]. apply (Hgoal (String b0 "") s 1%nat);
      [done | lia | done | done | intros t; simpl; by rewrite H0 | done]. }
  destruct (within 194 223 b0) eqn:H1.
  { destruct s as [|b1 s]; [done |]. destruct (is_cont b1) eqn:Hc; [| done].
    intros [= <-]. apply (Hgoal (String b0 (String b1 "")) s 2%nat);
      [done | lia | done | done | intros t; simpl; by rewrite H0, H1, Hc | done]. }
  destruct (within 224 239 b0) eqn:H2.
  { destruct s as [|b1 [|b2 s]]; try done.
    destruct (within _ _ b1 && is_cont b2) eqn:Hc; [| done].
    intros [= <-]. apply (Hgoal (String b0 (String b1 (String b2 ""))) s 3%nat);
      [done | lia | done | done | intros t; simpl; by rewrite H0, H1, H2, Hc | done]. }
  destruct (within 240 244 b0) eqn:H3; [| done].
  destruct s as [|b1 [|b2 [|b3 s]]]; try done.
  destruct (within _ _ b1 && is_cont b2 && is_cont b3) eqn:Hc; [| done].
  intros [= <-]. apply (Hgoal (String b0 (String b1 (String b2 (String b3 "")))) s 4%nat);
      [done | lia | done | done | intros t; simpl; by rewrite H0, H1, H2, H3, Hc | done].
Qed.

Lemma rune_size_ascii (c : ascii) (s : string) :
  (code c <? 128)%N = true -> rune_size (String c s) = Some 1%nat.
Proof. intros H. simpl. by rewrite H. Qed.

Lemma length_drop (n : nat) (s : string) :
  String.length (drop n s) = (String.length s - n)%nat.
Proof. revert s. induction n as [|n IH]; intros [|c s]; simpl; try done; lia. Qed.

(** How [string_body] reads a byte that is not ASCII. *)
Lemma string_body_high (fuel : nat) (c : ascii) (rest acc : string) :
  (code c <? 128)%N = false ->
  string_body (S fuel) (String c rest) acc =
  match rune_size (String c rest) with
  | Some n => string_body fuel (drop n (String c rest)) (acc ++ take n (String c rest))
  | None => string_body fuel rest (acc ++ replacement)
  end.
Proof.
  intros H. destruct (high_bytes c H) as (H1 & H2 & H3).
  cbn [string_body]. by rewrite H1, H2, H3, H.
Qed.

(** A string literal, written and read: the bytes come back, U+FFFD taking
    the place of those that are not valid UTF-8. *)
Lemma string_body_escape (k : nat) : forall s fuel t acc,
  (String.length s <= k)%nat ->
  (String.length (escape_from k s) < fuel)%nat ->
  string_body fuel (escape_from k s ++ String dquote t) acc
  = Some (acc ++ coerced_from k s, t).
Proof.
  induction k as [|k IH]; intros s fuel t acc Hlen Hfuel.
  { destruct fuel as [|fuel]; [simpl in Hfuel; lia |]. simpl. by rewrite append_nil_r. }
  destruct s as [|c rest].
  { destruct fuel as [|fuel]; [simpl in Hfuel; lia |]. simpl. by rewrite append_nil_r. }
  simpl in Hlen.
  destruct fuel as [|fuel]; [lia |].
  cbn [escape_from coerced_from] in *.
  destruct (code c <? 128)%N eqn:Hc.
  - rewrite rune_size_ascii by done. cbn [take drop].
    rewrite length_append in Hfuel. pose proof (ascii_escape_length c).
    rewrite append_assoc, ascii_step by done.
    rewrite IH by lia. by rewrite <- append_assoc.
  - destruct (rune_size (String c rest)) as [n|] eqn:Hn.
    + destruct (rune_size_spec _ _ Hn) as (Hpos & Hlen' & Hsplit & Hany).
      assert (Hdrop : (String.length (drop n (String c rest)) <= k)%nat).
      { rewrite length_drop. simpl. lia. }
      rewrite length_append in Hfuel.
      set (r := take n (String c rest)) in *.
      destruct (String.eqb_spec r (String (byte 226) (String (byte 128) (String (byte 168) "")))) as [E|_].
      { rewrite E, append_assoc. simpl in Hfuel.
        transitivity (string_body fuel (escape_from k (drop n (String c rest)) ++ String dquote t)
                        (acc ++ String (byte 226) (String (byte 128) (String (byte 168) ""))));
          [reflexivity |].
        rewrite IH by lia. by rewrite <- append_assoc. }
      destruct (String.eqb_spec r (String (byte 226) (String (byte 128) (String (byte 169) "")))) as [E|_].
      { rewrite E, append_assoc. simpl in Hfuel.
        transitivity (string_body fuel (escape_from k (drop n (String c rest)) ++ String dquote t)
                        (acc ++ String (byte 226) (String (byte 128) (String (byte 169) ""))));
          [reflexivity |].
        rewrite IH by lia. by rewrite <- append_assoc. }
      rewrite append_assoc.
      destruct (Hany (escape_from k (drop n (String c rest)) ++ String dquote t))
        as (Hsize & Htake & Hdrop').
      assert (Hhead : exists r', r = String c r').
      { subst r. destruct n; [lia |]. simpl. by eexists. }
      destruct Hhead as [r' Hr]. rewrite Hr in *. rewrite append_cons in *.
      rewrite string_body_high by done. rewrite Hsize, Hdrop', Htake.
      rewrite IH by lia. by rewrite <- append_assoc.
    + rewrite append_assoc. rewrite length_append in Hfuel. simpl in Hfuel.
      transitivity (string_body fuel (escape_from k rest ++ String dquote t) (acc ++ replacement));
        [reflexivity |].
      rewrite IH by lia. by rewrite <- append_assoc.
Qed.

Lemma coerced_valid (k : nat) : forall s,
  (String.length s <= k)%nat -> valid_from k s = true -> coerced_from k s = s.
Proof.
  induction k as [|k IH]; intros s Hlen Hvalid.
  { destruct s; [done | simpl in Hlen; lia]. }
  destruct s as [|c rest]; [done |].
  cbn [valid_from coerced_from] in *.
  destruct (rune_size (String c rest)) as [n|] eqn:Hn; [| done].
  destruct (rune_size_spec _ _ Hn) as (Hpos & _ & Hsplit & _).
  rewrite IH; [by rewrite <- Hsplit | | done].
  rewrite length_drop. simpl in *. lia.
Qed.

(** [quote], read back. *)
Lemma string_body_quote (s t : string) (fuel : nat) :
  (String.length (escape_from (String.length s) s) < fuel)%nat ->
  string_body fuel (escape_from (String.length s) s ++ String dquote t) "" = Some (coerced s, t).
Proof. intros H. by rewrite string_body_escape. Qed.

Lemma coerced_ValidString (s : string) : ValidString s = true -> coerced s = s.
Proof. apply coerced_valid. done. Qed.

(** ** Values *)

Lemma value_eq (f : nat) (s : string) :
  value (S f) s =
  match skip_ws s with
  | EmptyString => None
  | String c rest =>
      match code c with
      | 91 =>
          match skip_ws rest with
          | String d rest' =>
              if Ascii.eqb d "]"%char then Some (JArray [], rest')
              else items f (skip_ws rest) []
          | EmptyString => None
          end
      | 123 =>
          match skip_ws rest with
          | String d rest' =>
              if Ascii.eqb d "}"%char then Some (JObject [], rest')
              else members f (skip_ws rest) []
          | EmptyString => None
          end
      | 34 =>
          match string_body (String.length rest) rest "" with
          | Some (str, rest') => Some (JString str, rest')
          | None => None
          end
      | 116 => literal "true" (JBool true) (String c rest)
      | 102 => literal "false" (JBool false) (String c rest)
      | 110 => literal "null" JNull (String c rest)
      | _ =>
          match number (String c rest) with
          | Some (lit, rest') => Some (JNumber lit, rest')
          | None => None
          end
      end
  end%N.
Proof. reflexivity. Qed.

Lemma items_eq (f : nat) (s : string) (acc : list json) :
  items (S f) s acc =
  match value f s with
  | None => None
  | Some (v, rest) =>
      match skip_ws rest with
      | String c rest' =>
          if Ascii.eqb c ","%char then items f rest' (acc ++ [v])%list
          else if Ascii.eqb c "]"%char then Some (JArray (acc ++ [v])%list, rest')
          else None
      | EmptyString => None
      end
  end.
Proof. reflexivity. Qed.

Lemma members_eq (f : nat) (s : string) (acc : list (string * json)) :
  members (S f) s acc =
  match skip_ws s with
  | String q rest =>
      if Ascii.eqb q dquote then
        match string_body (String.length rest) rest "" with
        | None => None
        | Some (key, rest1) =>
            match skip_ws rest1 with
            | String c rest2 =>
                if Ascii.eqb c ":"%char then
                  match value f rest2 with
                  | None => None
                  | Some (v, rest3) =>
                      match skip_ws rest3 with
                      | String d rest4 =>
                          if Ascii.eqb d ","%char then members f rest4 (acc ++ [(key, v)])%list
                          else if Ascii.eqb d "}"%char
                          then Some (JObject (acc ++ [(key, v)])%list, rest4)
                          else None
                      | EmptyString => None
                      end
                  end
                else None
            | EmptyString => None
            end
        end
      else None
  | EmptyString => None
  end.
Proof. reflexivity. Qed.

Lemma skip_ws_idem (s : string) : skip_ws (skip_ws s) = skip_ws s.
Proof.
  induction s as [|c s IH]; [done |]. simpl.
  destruct (is_ws c) eqn:Hc; [done |]. simpl. by rewrite Hc.
Qed.

Lemma skip_ws_head (c : ascii) (s : string) :
  is_ws c = false -> skip_ws (String c s) = String c s.
Proof. intros H. simpl. by rewrite H. Qed.

Lemma skip_ws_spaces (d : nat) (s : string) : skip_ws (spaces d ++ s) = skip_ws s.
Proof. induction d as [|d IH]; [done |]. exact IH. Qed.

Lemma skip_ws_gap (d : nat) (s : string) : skip_ws (newline ++ spaces d ++ s) = skip_ws s.
Proof. exact (skip_ws_spaces d s). Qed.

Lemma value_ws (f : nat) (s : string) : value f (skip_ws s) = value f s.
Proof. destruct f; [done |]. by rewrite !value_eq, skip_ws_idem. Qed.

Lemma items_ws (f : nat) (s : string) (acc : list json) :
  items f (skip_ws s) acc = items f s acc.
Proof. destruct f; [done |]. by rewrite !items_eq, value_ws. Qed.

Lemma members_ws (f : nat) (s : string) (acc : list (string * json)) :
  members f (skip_ws s) acc = members f s acc.
Proof. destruct f; [done |]. by rewrite !members_eq, skip_ws_idem. Qed.

Lemma length_spaces (d : nat) : String.length (spaces d) = (2 * d)%nat.
Proof. induction d as [|d IH]; [done |]. change (spaces (S d)) with ("  " ++ spaces d).
  rewrite length_append. simpl. lia. Qed.

(** A string literal at the head of the input. *)
Lemma value_quote (f : nat) (s t : string) :
  value (S f) (quote s ++ t) = Some (JString (coerced s), t).
Proof.
  unfold quote. rewrite value_eq, !append_cons, skip_ws_head by done.
  change (code dquote) with 34%N. cbv iota.
  rewrite append_assoc, append_cons.
  rewrite string_body_quote; [done |]. rewrite length_append. simpl. lia.
Qed.

Lemma members_quote (f : nat) (k rest : string) (acc : list (string * json)) :
  members (S f) (quote k ++ ": " ++ rest) acc =
  match value f rest with
  | None => None
  | Some (v, rest3) =>
      match skip_ws rest3 with
      | String d rest4 =>
          if Ascii.eqb d ","%char then members f rest4 (acc ++ [(coerced k, v)])%list
          else if Ascii.eqb d "}"%char then Some (JObject (acc ++ [(coerced k, v)])%list, rest4)
          else None
      | EmptyString => None
      end
  end.
Proof.
  unfold quote. rewrite members_eq, !append_cons, skip_ws_head by done.
  change (Ascii.eqb dquote dquote) with true. cbv iota.
  rewrite append_assoc, append_cons.
  rewrite string_body_quote by (rewrite length_append; simpl; lia).
  push. rewrite skip_ws_head by done. change (Ascii.eqb ":" ":") with true. cbv iota.
  rewrite <- (value_ws f (String " " rest)).
  change (skip_ws (String " " rest)) with (skip_ws rest). by rewrite value_ws.
Qed.

(** ** Indented documents *)

Definition sep (d : nat) : string := "," ++ newline ++ spaces d.
Definition member (d : nat) (kv : string * json) : string :=
  quote (fst kv) ++ ": " ++ indented d (snd kv).
Definition valid_member (kv : string * json) : bool :=
  ValidString (fst kv) && plain (snd kv).

Lemma indented_array (d : nat) (x : json) (l : list json) :
  indented d (JArray (x :: l)) =
  "[" ++ newline ++ spaces (S d) ++ join (sep (S d)) (map (indented (S d)) (x :: l))
  ++ newline ++ spaces d ++ "]".
Proof. reflexivity. Qed.

Lemma indented_object (d : nat) (kv : string * json) (l : list (string * json)) :
  indented d (JObject (kv :: l)) =
  "{" ++ newline ++ spaces (S d) ++ join (sep (S d)) (map (member (S d)) (kv :: l))
  ++ newline ++ spaces d ++ "}".
Proof. reflexivity. Qed.

Lemma join_cons (sp x y : string) (l : list string) :
  join sp (x :: y :: l) = x ++ sp ++ join sp (y :: l).
Proof. reflexivity. Qed.

(** The text of a value starts with a byte that is neither blank nor a
    closing bracket. *)
Lemma indented_head (d : nat) (v : json) :
  plain v = true ->
  exists c s', indented d v = String c s' /\ is_ws c = false /\
               Ascii.eqb c "]" = false /\ Ascii.eqb c "}" = false.
Proof.
  destruct v as [| [|] | lit | s | [|x l] | [|kv l]]; intros Hp; try done;
    try (by eexists _, _).
Qed.

Lemma join_head (d : nat) (x : json) (l : list json) :
  plain x = true ->
  exists c s', join (sep d) (map (indented d) (x :: l)) = String c s' /\ is_ws c = false /\
               Ascii.eqb c "]" = false.
Proof.
  intros Hp. destruct (indented_head d x Hp) as (c & s' & E & Hc & Hb & _).
  destruct l as [|y l]; [by exists c, s' |].
  cbn [map]. rewrite join_cons, E. push. by eexists _, _.
Qed.

Lemma member_head (d : nat) (kv : string * json) (l : list (string * json)) :
  exists s', join (sep d) (map (member d) (kv :: l)) = String dquote s'.
Proof.
  destruct l as [|y l]; cbn [map]; [| rewrite join_cons]; unfold member, quote; push;
    by eexists.
Qed.

Lemma value_array (f d : nat) (c : ascii) (s' : string) :
  is_ws c = false -> Ascii.eqb c "]" = false ->
  value (S f) ("[" ++ newline ++ spaces d ++ String c s') = items f (String c s') [].
Proof.
  intros Hc Hb. rewrite value_eq.
  change ("[" ++ newline ++ spaces d ++ String c s')
    with (String "[" (newline ++ spaces d ++ String c s')).
  rewrite skip_ws_head by done. change (code "[") with 91%N. cbv iota.
  rewrite skip_ws_gap, skip_ws_head by done. by rewrite Hb.
Qed.

Lemma value_object (f d : nat) (s' : string) :
  value (S f) ("{" ++ newline ++ spaces d ++ String dquote s') = members f (String dquote s') [].
Proof.
  rewrite value_eq.
  change ("{" ++ newline ++ spaces d ++ String dquote s')
    with (String "{" (newline ++ spaces d ++ String dquote s')).
  rewrite skip_ws_head by done. change (code "{") with 123%N. cbv iota.
  by rewrite skip_ws_gap, skip_ws_head by done.
Qed.

Lemma items_gap (f d : nat) (c : ascii) (s' : string) (acc : list json) :
  is_ws c = false ->
  items f (newline ++ spaces d ++ String c s') acc = items f (String c s') acc.
Proof. intros Hc. by rewrite <- items_ws, skip_ws_gap, skip_ws_head. Qed.

Lemma members_gap (f d : nat) (c : ascii) (s' : string) (acc : list (string * json)) :
  is_ws c = false ->
  members f (newline ++ spaces d ++ String c s') acc = members f (String c s') acc.
Proof. intros Hc. by rewrite <- members_ws, skip_ws_gap, skip_ws_head. Qed.

Lemma comma_next (s : string) : skip_ws (sep 0 ++ s) = String "," (newline ++ s).
Proof. reflexivity. Qed.

Lemma skip_comma (d : nat) (s : string) : skip_ws (sep d ++ s) = String "," (newline ++ spaces d ++ s).
Proof. unfold sep. by rewrite !append_assoc. Qed.

Ltac lengths H :=
  unfold sep, newline in H; rewrite ?length_append, ?length_spaces in H;
  cbn [String.length] in H.

(** Reading what [indented] wrote gives the value back, and leaves what
    followed it. *)
Lemma read_back (f : nat) :
  (forall v d t,
     plain v = true -> (String.length (indented d v) <= f)%nat ->
     value f (indented d v ++ t) = Some (v, t)) /\
  (forall l d tail t acc,
     l <> [] -> forallb plain l = true ->
     (String.length (join (sep d) (map (indented d) l)) < f)%nat ->
     skip_ws tail = String "]" t ->
     items f (join (sep d) (map (indented d) l) ++ tail) acc = Some (JArray (acc ++ l), t)) /\
  (forall l d tail t acc,
     l <> [] -> forallb valid_member l = true ->
     (String.length (join (sep d) (map (member d) l)) < f)%nat ->
     skip_ws tail = String "}" t ->
     members f (join (sep d) (map (member d) l) ++ tail) acc = Some (JObject (acc ++ l), t)).
Proof.
  induction f as [|f (IHv & IHi & IHm)].
  { split; [| split]; intros; try lia.
    destruct (indented_head d v) as (c & s' & E & _); [done |]. rewrite E in *. simpl in *. lia. }
  split; [| split].
  - intros v d t Hp Hlen.
    destruct v as [| [|] | lit | s | [|x l] | [|kv l]]; try done.
    + cbn [indented compact]. by rewrite value_quote, coerced_ValidString.
    + cbn [plain forallb] in Hp. apply andb_prop in Hp as [Hx Hl].
      rewrite indented_array in *.
      destruct (join_head (S d) x l Hx) as (c & s' & E & Hc & Hb).
      set (J := join (sep (S d)) (map (indented (S d)) (x :: l))) in *.
      lengths Hlen.
      rewrite !append_assoc. rewrite E at 1. rewrite (append_cons c s').
      rewrite value_array by done. rewrite <- (append_cons c s'), <- E.
      apply (IHi (x :: l) (S d)); [done | by cbn [forallb]; rewrite Hx, Hl | fold J; lia |].
      apply (skip_ws_gap d).
    + cbn [plain forallb] in Hp. apply andb_prop in Hp as [Hx Hl].
      rewrite indented_object in *.
      destruct (member_head (S d) kv l) as (s' & E).
      set (J := join (sep (S d)) (map (member (S d)) (kv :: l))) in *.
      lengths Hlen.
      rewrite !append_assoc. rewrite E at 1. rewrite (append_cons dquote s').
      rewrite value_object. rewrite <- (append_cons dquote s'), <- E.
      apply (IHm (kv :: l) (S d));
        [done | exact (proj2 (andb_true_iff _ _) (conj Hx Hl)) | fold J; lia |].
      apply (skip_ws_gap d).
  - intros l d tail t acc Hne Hp Hlen Htail.
    destruct l as [|x l]; [done |]. cbn [forallb] in Hp. apply andb_prop in Hp as [Hx Hl].
    destruct (indented_head d x Hx) as (c0 & s0 & E0 & _).
    assert (Hx1 : (1 <= String.length (indented d x))%nat) by (rewrite E0; simpl; lia).
    rewrite items_eq. destruct l as [|y l].
    + cbn [map join] in *. rewrite IHv by (done || lia). rewrite Htail.
      change (Ascii.eqb "]" ",") with false. change (Ascii.eqb "]" "]") with true. done.
    + cbn [map] in *. rewrite join_cons in *. rewrite !append_assoc.
      cbn [forallb] in Hl. apply andb_prop in Hl as [Hy Hl].
      destruct (join_head d y l Hy) as (c & s' & E & Hc & _). cbn [map] in E.
      set (J := join (sep d) (indented d y :: map (indented d) l)) in *.
      rewrite length_append in Hlen. rewrite (length_append (sep d)) in Hlen.
      assert (Hsep : (1 <= String.length (sep d))%nat) by (unfold sep; simpl; lia).
      rewrite IHv by (done || lia). rewrite skip_comma.
      change (Ascii.eqb "," ",") with true. cbv iota.
      rewrite E at 1. rewrite (append_cons c s'), items_gap by done.
      rewrite <- (append_cons c s'), <- E.
      rewrite (IHi (y :: l) d tail t); [by rewrite <- app_assoc | done | | | done].
      * by cbn [forallb]; rewrite Hy, Hl.
      * cbn [map]. fold J. lia.
  - intros l d tail t acc Hne Hp Hlen Htail.
    destruct l as [|[k v] l]; [done |]. cbn [forallb] in Hp. apply andb_prop in Hp as [Hx Hl].
    unfold valid_member in Hx. cbn [fst snd] in Hx. apply andb_prop in Hx as [Hk Hv].
    destruct (indented_head d v Hv) as (c0 & s0 & E0 & _).
    assert (Hx1 : (1 <= String.length (indented d v))%nat) by (rewrite E0; simpl; lia).
    destruct l as [|y l].
    + cbn [map join] in *. unfold member in *. cbn [fst snd] in *.
      rewrite !append_assoc. rewrite !length_append in Hlen.
      rewrite members_quote, IHv by (done || lia). rewrite Htail.
      change (Ascii.eqb "}" ",") with false. change (Ascii.eqb "}" "}") with true.
      by rewrite coerced_ValidString.
    + cbn [map] in *. rewrite join_cons in *. unfold member at 1. unfold member at 1 in Hlen.
      cbn [fst snd] in *.
      destruct (member_head d y l) as (s' & E). cbn [map] in E.
      set (J := join (sep d) (member d y :: map (member d) l)) in *.
      assert (Hsep : (1 <= String.length (sep d))%nat) by (unfold sep; simpl; lia).
      rewrite !append_assoc. rewrite !length_append in Hlen.
      rewrite members_quote, IHv by (done || lia). rewrite skip_comma.
      change (Ascii.eqb "," ",") with true. cbv iota.
      rewrite E at 1. rewrite (append_cons dquote s'), members_gap by done.
      rewrite <- (append_cons dquote s'), <- E. rewrite coerced_ValidString by done.
      rewrite (IHm (y :: l) d tail t); [by rewrite <- app_assoc | done | done | | done].
      cbn [map]. fold J. lia.
Qed.

(** [json.MarshalIndent] then parsing: the value comes back. *)
Lemma parse_indented (v : json) : plain v = true -> parse (indented 0 v) = Some v.
Proof.
  intros Hp. unfold parse.
  rewrite <- (append_nil_r (indented 0 v)) at 2.
  destruct (read_back (2 * String.length (indented 0 v) + 2)) as [Hv _].
  rewrite Hv by (done || lia). done.
Qed.

(** ** Compact arrays of strings *)

Lemma length_quote (s : string) : (2 <= String.length (quote s))%nat.
Proof. unfold quote. rewrite append_cons. simpl. rewrite length_append. simpl. lia. Qed.

Lemma length_join_quote (l : list string) :
  (length l <= String.length (join "," (map quote l)))%nat.
Proof.
  induction l as [|x [|y l] IH]; [done | |].
  - simpl. pose proof (length_quote x). lia.
  - cbn [map] in *. rewrite join_cons, !length_append. pose proof (length_quote x).
    simpl in *. lia.
Qed.

Lemma items_strings (l : list string) : forall f acc t,
  l <> [] -> (length l < f)%nat ->
  items f (join "," (map quote l) ++ String "]" t) acc
  = Some (JArray (acc ++ map (fun s => JString (coerced s)) l), t).
Proof.
  induction l as [|x l IH]; intros f acc t Hne Hf; [done |].
  destruct f as [|[|f]]; [simpl in Hf; lia | simpl in Hf; lia |].
  rewrite items_eq. destruct l as [|y l].
  - cbn [map join]. rewrite value_quote. done.
  - cbn [map] in *. rewrite join_cons, !append_assoc, value_quote.
    change (skip_ws ("," ++ ?r)) with (String "," r). change (Ascii.eqb "," ",") with true.
    cbv iota. rewrite IH; [by rewrite <- app_assoc | done | simpl in *; lia].
Qed.

(** [json.Marshal] of a list of strings, parsed. *)
Lemma parse_strings (l : list string) :
  parse (compact (JArray (map JString l)))
  = Some (JArray (map (fun s => JString (coerced s)) l)).
Proof.
  destruct l as [|x l]; [done |].
  cbn [compact]. rewrite map_map. cbn [compact].
  set (J := join "," (map quote (x :: l))).
  change (map (fun s => quote s) (x :: l)) with (map quote (x :: l)). fold J.
  unfold parse.
  assert (Hlen : (length (x :: l) <= String.length J)%nat) by apply length_join_quote.
  rewrite length_append, length_append.
  assert (HJ : exists s', J = String dquote s').
  { subst J. destruct l as [|y l]; cbn [map]; [| rewrite join_cons]; unfold quote;
      rewrite append_cons; by eexists. }
  destruct HJ as [s' E].
  replace ("[" ++ J ++ "]") with (String "[" (J ++ String "]" "")) by done.
  set (f := (2 * (String.length "[" + (String.length J + String.length "]")) + 2)%nat).
  assert (Hf : exists f', f = S f' /\ (length (x :: l) < f')%nat).
  { exists (pred f). subst f. simpl in *. lia. }
  destruct Hf as (f' & -> & Hf').
  rewrite value_eq, skip_ws_head by done. change (code "[") with 91%N. cbv iota.
  rewrite E. rewrite (append_cons dquote s'), skip_ws_head by done.
  change (Ascii.eqb dquote "]") with false. cbv iota.
  rewrite <- (append_cons dquote s'), <- E.
  subst J. rewrite items_strings by done. done.
Qed.

Lemma to_list_strings (l : list string) :
  to_list to_string (map (fun s => JString (coerced s)) l) = inr (map coerced l).
Proof. induction l as [|x l IH]; [done |]. simpl. by rewrite IH. Qed.

(** The state file's trip: every name comes back, U+FFFD taking the place of
    the bytes that are not valid UTF-8. *)
Lemma UnmarshalStrings_Marshal (l : list string) :
  UnmarshalStrings (compact (JArray (map JString l))) = inr (Some (map coerced l)).
Proof. unfold UnmarshalStrings. rewrite parse_strings. simpl. by rewrite to_list_strings. Qed.

Lemma to_list_valid_strings (l : list string) :
  forallb ValidString l = true -> to_list to_string (map JString l) = inr l.
Proof.
  induction l as [|x l IH]; [done |]. simpl. intros [_ Hl]%andb_prop. by rewrite IH.
Qed.

End GoJSONFacts.

(** What [time.Parse] reads back from what [Format] writes. *)
Module RFC3339Facts.
Import Go GoTime GoJSON RFC3339 GoJSONFacts.
Local Open Scope string_scope.
Local Open Scope Z_scope.

Lemma digit_code (n : Z) : Z.of_N (N_of_ascii (digit n)) = 48 + n mod 10.
Proof.
  unfold digit. pose proof (Z.mod_pos_bound n 10 ltac:(lia)).
  rewrite N_ascii_embedding by lia. lia.
Qed.

Lemma digit_value_digit (n : Z) : digit_value (digit n) = Some (n mod 10).
Proof.
  unfold digit_value. rewrite digit_code. pose proof (Z.mod_pos_bound n 10 ltac:(lia)).
  destruct (Z.leb_spec 48 (48 + n mod 10)); [| lia].
  destruct (Z.leb_spec (48 + n mod 10) 57); [| lia].
  simpl. f_equal. lia.
Qed.

Lemma number_two (n : Z) (rest : string) :
  0 <= n < 100 -> number 2 (two n ++ rest) 0 = Some (n, rest).
Proof.
  intros Hn. unfold two. rewrite !append_cons. cbn [number].
  rewrite !digit_value_digit. do 2 f_equal. Z.div_mod_to_equations. lia.
Qed.

Lemma number_four (y : Z) (rest : string) :
  0 <= y < 10000 -> number 4 (four y ++ rest) 0 = Some (y, rest).
Proof.
  intros Hy. unfold four.
  destruct (Z.ltb_spec y 0); [lia |]. destruct (Z.ltb_spec y 10000); [| lia].
  unfold two. rewrite !append_cons. cbn [number].
  rewrite !digit_value_digit. do 2 f_equal. Z.div_mod_to_equations. lia.
Qed.

(** ** The calendar *)

(** What has to hold of one day of the 400-year cycle. *)
Definition calendar_ok (doe : Z) : bool :=
  let yoe := (doe - doe / 1460 + doe / 36524 - doe / 146096) / 365 in
  let doy := doe - (365 * yoe + yoe / 4 - yoe / 100) in
  let mp := (5 * doy + 2) / 153 in
  let d := doy - (153 * mp + 2) / 5 + 1 in
  let m := if mp <? 10 then mp + 3 else mp - 9 in
  let c := if m <=? 2 then 1 else 0 in
  (146097 <=? doe)
  || ((0 <=? yoe) && (yoe <? 400) && (1 <=? m) && (m <=? 12) && (1 <=? d)
      && (d <=? days_in_month (yoe + c) m)
      && (yoe * 365 + yoe / 4 - yoe / 100
          + ((153 * (if 2 <? m then m - 3 else m + 9) + 2) / 5 + d - 1) =? doe)
      && (negb ((yoe =? 399) && (m <=? 2)) || (146037 <=? doe))
      && (negb ((yoe =? 0) && negb (m <=? 2)) || (doe <? 306))).

(** Every day from [lo] to [lo + 2^n - 1]. *)
Fixpoint all_in (n : nat) (lo : Z) : bool :=
  match n with
  | O => calendar_ok lo
  | S k => all_in k lo && all_in k (lo + 2 ^ Z.of_nat k)
  end.

Lemma all_in_spec (n : nat) : forall lo,
  all_in n lo = true -> forall x, lo <= x < lo + 2 ^ Z.of_nat n -> calendar_ok x = true.
Proof.
  induction n as [|n IH]; intros lo H x Hx.
  - simpl in *. by replace x with lo by lia.
  - cbn [all_in] in H. apply andb_prop in H as [H1 H2].
    rewrite Nat2Z.inj_succ, Z.pow_succ_r in Hx by lia.
    destruct (Z.lt_ge_cases x (lo + 2 ^ Z.of_nat n)).
    + apply (IH lo); [done | lia].
    + apply (IH (lo + 2 ^ Z.of_nat n)); [done | lia].
Qed.

Lemma calendar_checked : all_in 18 0 = true.
Proof. vm_cast_no_check (eq_refl true). Qed.

Lemma calendar_ok_all (doe : Z) : 0 <= doe -> calendar_ok doe = true.
Proof.
  intros H. destruct (Z.lt_ge_cases doe 146097) as [Hlt|Hge].
  - apply (all_in_spec 18 0 calendar_checked). change (2 ^ Z.of_nat 18) with 262144. lia.
  - unfold calendar_ok. destruct (Z.leb_spec 146097 doe); [done | lia].
Qed.

Lemma days_in_month_cycle (a e m : Z) : days_in_month (a + e * 400) m = days_in_month a m.
Proof.
  unfold days_in_month.
  replace ((a + e * 400) mod 4) with (a mod 4)
    by (replace (a + e * 400) with (a + (e * 100) * 4) by lia; by rewrite Z_mod_plus_full).
  replace ((a + e * 400) mod 100) with (a mod 100)
    by (replace (a + e * 400) with (a + (e * 4) * 100) by lia; by rewrite Z_mod_plus_full).
  by rewrite Z_mod_plus_full.
Qed.

Lemma cycle_split (e y : Z) :
  0 <= y < 400 -> (e * 400 + y) / 400 = e /\ (e * 400 + y) mod 400 = y.
Proof. intros H. Z.div_mod_to_equations. lia. Qed.

(** From the first day of year 1 to the last day of year 9999, the date of a
    day is a date of the calendar, in a year of four digits, and is the date
    of that day only. *)
Lemma civil_of_days_spec (days : Z) :
  0 <= days < 3652059 ->
  exists y m d,
    civil_of_days days = (y, m, d) /\
    1 <= y <= 9999 /\ 1 <= m <= 12 /\ 1 <= d <= days_in_month y m /\
    days_of_civil y m d = days.
Proof.
  intros Hdays. unfold civil_of_days.
  set (z := days + 306).
  pose proof (Z.mod_pos_bound z 146097 ltac:(lia)) as Hdoe.
  pose proof (Z.div_mod z 146097 ltac:(lia)) as Hz.
  set (era := z / 146097) in *. set (doe := z mod 146097) in *.
  assert (Hera : 0 <= era <= 24) by (subst z; lia).
  pose proof (calendar_ok_all doe ltac:(lia)) as Hok. unfold calendar_ok in Hok.
  cbv zeta.
  set (yoe := (doe - doe / 1460 + doe / 36524 - doe / 146096) / 365) in *.
  set (doy := doe - (365 * yoe + yoe / 4 - yoe / 100)) in *.
  set (mp := (5 * doy + 2) / 153) in *.
  set (d := doy - (153 * mp + 2) / 5 + 1) in *.
  set (m := if mp <? 10 then mp + 3 else mp - 9) in *.
  set (c := if m <=? 2 then 1 else 0) in *.
  clearbody m d. clear mp doy.
  destruct (Z.leb_spec 146097 doe); [lia |]. cbn [orb] in Hok.
  repeat (apply andb_prop in Hok as [Hok ?]).
  repeat match goal with
         | H : (_ <=? _) = true |- _ => apply Z.leb_le in H
         | H : (_ <? _) = true |- _ => apply Z.ltb_lt in H
         | H : (_ =? _) = true |- _ => apply Z.eqb_eq in H
         end.
  assert (Hc : 0 <= c <= 1) by (subst c; destruct (m <=? 2); lia).
  assert (Hhigh : ~ (yoe = 399 /\ c = 1 /\ era = 24)).
  { intros (Hy & Hc1 & He). subst c. destruct (Z.leb_spec m 2); [| lia].
    rewrite Hy in *. simpl in *. apply Z.leb_le in H1. subst z. lia. }
  assert (Hlow : ~ (yoe = 0 /\ c = 0 /\ era = 0)).
  { intros (Hy & Hc0 & He). subst c. destruct (Z.leb_spec m 2); [lia |].
    rewrite Hy in *. simpl in *. apply Z.ltb_lt in H0. subst z. lia. }
  exists (yoe + era * 400 + c), m, d.
  split; [done |]. split; [lia |]. split; [lia |]. split.
  - replace (yoe + era * 400 + c) with (yoe + c + era * 400) by lia.
    rewrite days_in_month_cycle. lia.
  - unfold days_of_civil. fold c.
    replace (yoe + era * 400 + c - c) with (era * 400 + yoe) by lia.
    destruct (cycle_split era yoe ltac:(lia)) as [-> ->]. subst z. lia.
Qed.

(** ** Format, then Parse *)

Ltac next := cbn [mbind option_bind]; rewrite ?append_nil_l.
Ltac sign c :=
  cbn [expect]; change (Ascii.eqb c c) with true; cbv iota; next.

(** What Format writes of a time of the years 1 to 9999 is read back as that
    time, without its fraction of a second and its monotonic reading. *)
Lemma Parse_Format (t : Time) :
  0 <= sec t < 315537897600 ->
  Parse (Format t) = inr (mkTime (sec t) 0 None).
Proof.
  intros Hsec. unfold Format.
  pose proof (Z.div_mod (sec t) 86400 ltac:(lia)) as Hsplit.
  pose proof (Z.mod_pos_bound (sec t) 86400 ltac:(lia)) as Hs.
  set (days := sec t / 86400) in *. set (s := sec t mod 86400) in *.
  destruct (civil_of_days_spec days) as (y & m & d & -> & Hy & Hm & Hd & Hback); [lia |].
  pose proof (Z.div_mod s 3600 ltac:(lia)) as Hh.
  pose proof (Z.mod_pos_bound s 3600 ltac:(lia)) as Hh'.
  pose proof (Z.div_mod (s mod 3600) 60 ltac:(lia)) as Hmin.
  pose proof (Z.mod_pos_bound (s mod 3600) 60 ltac:(lia)) as Hmin'.
  assert (Hss : s mod 60 = (s mod 3600) mod 60).
  { rewrite Hh at 1. replace (3600 * (s / 3600) + s mod 3600)
      with (s mod 3600 + (60 * (s / 3600)) * 60) by lia. by rewrite Z_mod_plus_full. }
  set (hh := s / 3600) in *. set (mm := s mod 3600 / 60) in *. set (ss := s mod 60) in *.
  assert (Hdm : days_in_month y m <= 31).
  { unfold days_in_month. repeat case_match; lia. }
  unfold Parse.
  rewrite number_four by lia. next. rewrite (append_cons "-"). sign "-"%char.
  rewrite number_two by lia. next. rewrite (append_cons "-"). sign "-"%char.
  rewrite number_two by lia. next. rewrite (append_cons "T"). sign "T"%char.
  rewrite number_two by lia. next. rewrite (append_cons ":"). sign ":"%char.
  rewrite number_two by lia. next. rewrite (append_cons ":"). sign ":"%char.
  rewrite number_two by lia. next.
  change (Ascii.eqb "Z" "Z") with true. cbv iota. next.
  repeat match goal with
         | |- context [?a <=? ?b] => destruct (Z.leb_spec a b); [| lia]
         | |- context [?a <? ?b] => destruct (Z.ltb_spec a b); [| lia]
         end.
  cbn [andb]. do 2 f_equal. lia.
Qed.

(** ** The text Format writes *)

Fixpoint ascii_only (s : string) : bool :=
  match s with
  | EmptyString => true
  | String c rest => (code c <? 128)%N && ascii_only rest
  end.

Lemma ascii_only_app (a b : string) : ascii_only (a ++ b) = ascii_only a && ascii_only b.
Proof.
  induction a as [|c a IH]; [done |]. rewrite append_cons. cbn [ascii_only].
  by rewrite IH, andb_assoc.
Qed.

Lemma ascii_only_valid (k : nat) : forall s, ascii_only s = true -> valid_from k s = true.
Proof.
  induction k as [|k IH]; intros s H; [done |].
  destruct s as [|c s]; [done |]. cbn [ascii_only] in H. apply andb_prop in H as [Hc Hs].
  cbn [valid_from]. rewrite rune_size_ascii by done. by apply IH.
Qed.

Lemma digit_ascii (n : Z) : (code (digit n) <? 128)%N = true.
Proof.
  apply N.ltb_lt. pose proof (digit_code n). pose proof (Z.mod_pos_bound n 10 ltac:(lia)).
  unfold code. lia.
Qed.

Lemma two_ascii (n : Z) : ascii_only (two n) = true.
Proof. unfold two. cbn [ascii_only]. by rewrite !digit_ascii. Qed.

Lemma decimal_ascii (fuel : nat) : forall n, ascii_only (decimal fuel n) = true.
Proof.
  induction fuel as [|fuel IH]; intros n; [done |]. cbn [decimal].
  rewrite ascii_only_app. cbn [ascii_only]. rewrite digit_ascii.
  destruct (n <? 10); [done |]. by rewrite IH.
Qed.

Lemma four_ascii (n : Z) : ascii_only (four n) = true.
Proof.
  assert (H : forall u, ascii_only
            (if u <? 10000 then String (digit (u / 1000)) (String (digit (u / 100)) (two u))
             else decimal 20 u) = true).
  { intros u. destruct (u <? 10000); [| apply decimal_ascii].
    cbn [ascii_only]. by rewrite !digit_ascii, two_ascii. }
  unfold four. destruct (n <? 0); [| apply H].
  rewrite ascii_only_app, H. done.
Qed.

(** Format writes ASCII only, and never the empty string. *)
Lemma Format_valid (t : Time) : ValidString (Format t) = true.
Proof.
  apply ascii_only_valid. unfold Format.
  destruct (civil_of_days (sec t / 86400)) as [[y m] d].
  rewrite !ascii_only_app, four_ascii, !two_ascii. done.
Qed.

Lemma Format_not_empty (t : Time) : Format t <> "".
Proof.
  unfold Format. destruct (civil_of_days (sec t / 86400)) as [[y m] d].
  intros H. apply (f_equal String.length) in H. rewrite !length_append in H.
  simpl in H. lia.
Qed.

End RFC3339Facts.

Module StateFacts.
Import Go Slice FS State StateDoubles GoJSONFacts.
Local Open Scope string_scope.

(** [sort.Strings] orders by a total order. *)
Lemma compare_trans_le s1 : forall s2 s3,
  String.compare s1 s2 <> Gt -> String.compare s2 s3 <> Gt -> String.compare s1 s3 <> Gt.
Proof.
  induction s1 as [|c1 s1 IH]; intros [|c2 s2] [|c3 s3]; simpl; try done.
  unfold Ascii.compare.
  destruct (N.compare_spec (N_of_ascii c1) (N_of_ascii c2)) as [E12|L12|G12]; [| |done];
  destruct (N.compare_spec (N_of_ascii c2) (N_of_ascii c3)) as [E23|L23|G23]; try done;
  destruct (N.compare_spec (N_of_ascii c1) (N_of_ascii c3)) as [E13|L13|G13];
    try done; try lia.
  apply IH.
Qed.

#[export] Instance string_le_trans : Transitive string_le.
Proof.
  intros a b c. unfold string_le, String.leb. intros Hab Hbc.
  pose proof (compare_trans_le a b c) as H.
  destruct (String.compare a b), (String.compare b c), (String.compare a c);
    try done; exfalso; by apply H.
Qed.

#[export] Instance string_le_total : Total string_le.
Proof. intros a b. apply String.leb_total. Qed.

#[export] Instance string_le_antisym : AntiSymm eq string_le.
Proof. intros a b. apply String.leb_antisym. Qed.

Lemma sortedNames_sorted (S : gset string) : Sorted string_le (sortedNames S).
Proof. apply Sorted_merge_sort, _. Qed.

Lemma sortedNames_perm (S : gset string) : sortedNames S ≡ₚ elements S.
Proof. apply merge_sort_Permutation. Qed.


Lemma elem_of_sortedNames (S : gset string) x : x ∈ sortedNames S ↔ x ∈ S.
Proof. rewrite sortedNames_perm. apply elem_of_elements. Qed.

Lemma list_to_set_sortedNames (S : gset string) : list_to_set (sortedNames S) = S.
Proof. apply set_eq. intros x. rewrite elem_of_list_to_set. apply elem_of_sortedNames. Qed.

(** Whatever order the map is ranged over in, sorting gives the same slice. *)
Lemma sortedNames_any_order (S : gset string) (l : list string) :
  l ≡ₚ elements S -> merge_sort string_le l = sortedNames S.
Proof.
  intros Hl. apply (Sorted_unique string_le).
  - apply Sorted_merge_sort, _.
  - apply sortedNames_sorted.
  - rewrite merge_sort_Permutation, sortedNames_perm. done.
Qed.

Lemma tempName_fresh p rnd : tempName p rnd <> p.
Proof.
  unfold tempName. intros H. apply (f_equal String.length) in H.
  rewrite !length_append in H. simpl in H. lia.
Qed.

Lemma cleanup_other fs tmp left p : tmp <> p -> cleanup fs tmp left !! p = fs !! p.
Proof.
  intros Hne. destruct left; simpl.
  - by rewrite lookup_insert_ne.
  - by rewrite lookup_delete_ne.
Qed.

(** A call on a name already in the set does nothing. *)
Lemma MarkCompleted_present os fs s x :
  x ∈ set s -> MarkCompleted os fs s x = mkMarked None s fs.
Proof. intros H. unfold MarkCompleted. by rewrite bool_decide_eq_true_2. Qed.

(** Whatever happens, the name is in the set afterwards and the path is kept. *)
Lemma MarkCompleted_store os fs s x :
  path (store (MarkCompleted os fs s x)) = path s /\
  set (store (MarkCompleted os fs s x)) = {[x]} ∪ set s.
Proof.
  unfold MarkCompleted. case_bool_decide as Hx.
  - simpl. split; [done |]. set_solver.
  - simpl. destruct (mkdirAll os); [done |]. destruct (createTemp os); [done |].
    destruct (write os); [done |]. destruct (close os); [done |].
    by destruct (rename os).
Qed.

(** The state file after a call: rewritten when a new name was persisted,
    untouched otherwise. *)
Lemma MarkCompleted_file os fs s x :
  files (MarkCompleted os fs s x) !! path s =
  if bool_decide (x ∈ set s) then fs !! path s
  else match err (MarkCompleted os fs s x) with
       | None => Some (GoJSON.compact (GoJSON.JArray (map GoJSON.JString
                         (sortedNames ({[x]} ∪ set s)))))
       | Some _ => fs !! path s
       end.
Proof.
  unfold MarkCompleted. case_bool_decide as Hx; [done |].
  pose proof (tempName_fresh (path s) (random os)) as Hne.
  cbn [GoJSON.MarshalStrings GoJSON.of_slice path set].
  destruct (mkdirAll os); [done |]. destruct (createTemp os); [done |].
  destruct (write os); simpl.
  { rewrite cleanup_other by done. by rewrite lookup_insert_ne. }
  destruct (close os); simpl.
  { rewrite cleanup_other by done. by rewrite !lookup_insert_ne. }
  destruct (rename os); simpl.
  { rewrite cleanup_other by done. by rewrite !lookup_insert_ne. }
  by rewrite lookup_insert_eq.
Qed.

Lemma MarkCompleted_unchanged_files os fs s x :
  x ∈ set s -> files (MarkCompleted os fs s x) = fs.
Proof. intros H. by rewrite MarkCompleted_present. Qed.


Lemma NewStore_ext fs fs' fault p :
  fs !! p = fs' !! p -> NewStore fs fault p = NewStore fs' fault p.
Proof. intros H. unfold NewStore, ReadFile. by rewrite H. Qed.






(** C10.  When MarkCompleted returns an error the name is in the set all the
    same: IsCompleted reports it, a later MarkCompleted of it returns nil
    without any I/O, and the state file is as it was before the failed call, so
    a store built afresh from it does not know the name unless it did before. *)
Theorem mark_failure_keeps_name os fs s x e :
  err (MarkCompleted os fs s x) = Some e ->
  let m := MarkCompleted os fs s x in
  IsCompleted (store m) x = true /\
  (forall os', MarkCompleted os' (files m) (store m) x = mkMarked None (store m) (files m)) /\
  (forall fault, NewStore (files m) fault (path s) = NewStore fs fault (path s)).
Proof.
  intros Herr m. subst m.
  destruct (MarkCompleted_store os fs s x) as [_ Hs].
  assert (x ∈ set (store (MarkCompleted os fs s x))) as Hin by (rewrite Hs; set_solver).
  split; [by apply bool_decide_eq_true_2 |].
  split; [intros os'; by apply MarkCompleted_present |].
  intros fault. apply NewStore_ext.
  rewrite MarkCompleted_file, Herr. by case_bool_decide.
Qed.

Lemma mark_failure_keeps_name_witness :
  IsCompleted (store alphaUnsaved) "alpha" = true /\
  err (MarkCompleted (healthy "2") (files alphaUnsaved) (store alphaUnsaved) "alpha") = None /\
  NewStore (files alphaUnsaved) None statePath = inr emptyStore.
Proof.
  assert (H0 : err (MarkCompleted (renameFails "1") ∅ emptyStore "alpha")
               = Some (wrapError "atomic replace state file: "
                         (errorString "rename: no space left on device")))
    by (vm_compute; reflexivity).
  pose proof (mark_failure_keeps_name _ _ _ _ _ H0) as H. cbv zeta in H.
  destruct H as (H1 & H2 & H3).
  split; [exact H1 |]. split.
  - unfold alphaUnsaved. by rewrite H2.
  - transitivity (NewStore ∅ None statePath); [exact (H3 None) | reflexivity].
Defined.

End StateFacts.

Module CatalogFacts.
Import Go Slice GoTime FS Model Catalog CatalogDoubles GoJSONFacts RFC3339Facts StateFacts.
Local Open Scope string_scope.

(** The cache file after Save: the new snapshot when Save returned nil, what it
    was before otherwise. *)
Lemma Save_file now os fs c albums :
  (Save now os fs c albums).2 !! path c =
  match (Save now os fs c albums).1 with
  | None => Some (GoJSON.indented 0 (payload_json (mkPayload (RFC3339.Format now) albums)))
  | Some _ => fs !! path c
  end.
Proof.
  unfold Save. pose proof (tempName_fresh (path c) (random os)) as Hne.
  cbn [MarshalIndent].
  destruct (mkdirAll os); [done |]. destruct (createTemp os); [done |].
  destruct (write os); simpl.
  { rewrite cleanup_other by done. by rewrite lookup_insert_ne. }
  destruct (close os); simpl.
  { rewrite cleanup_other by done. by rewrite !lookup_insert_ne. }
  destruct (rename os); simpl.
  { rewrite cleanup_other by done. by rewrite !lookup_insert_ne. }
  by rewrite lookup_insert_eq.
Qed.

(** ** What Load decodes from what Save encoded *)

Lemma to_slice_strings (l : slice string) :
  GoJSON.to_slice GoJSON.to_string (GoJSON.of_slice GoJSON.JString l) = inr l.
Proof.
  destruct l as [l|]; [| done]. simpl.
  assert (H : GoJSON.to_list GoJSON.to_string (map GoJSON.JString l) = inr l).
  { induction l as [|x l IH]; [done |]. simpl. by rewrite IH. }
  by rewrite H.
Qed.

Lemma to_album_json (a : Album) : to_album (album_json a) = inr a.
Proof.
  destruct a as [cid name cover artistes]. unfold to_album, album_json.
  cbn [set_fields CID Name CoverURL Artistes].
  change (set_album_field ?a ("cid", ?v)) with
    (match set_string (CID a) v with
     | inr s => inr (mkAlbum s (Name a) (CoverURL a) (Artistes a)) | inl e => inl e end).
  cbn [set_string CID Name CoverURL Artistes].
  change (set_album_field ?a ("name", ?v)) with
    (match set_string (Name a) v with
     | inr s => inr (mkAlbum (CID a) s (CoverURL a) (Artistes a)) | inl e => inl e end).
  cbn [set_string CID Name CoverURL Artistes].
  change (set_album_field ?a ("coverUrl", ?v)) with
    (match set_string (CoverURL a) v with
     | inr s => inr (mkAlbum (CID a) (Name a) s (Artistes a)) | inl e => inl e end).
  cbn [set_string CID Name CoverURL Artistes].
  change (set_album_field ?a ("artistes", ?v)) with
    (match GoJSON.to_slice GoJSON.to_string v with
     | inr l => inr (mkAlbum (CID a) (Name a) (CoverURL a) l) | inl e => inl e end).
  by rewrite to_slice_strings.
Qed.

Lemma to_slice_albums (albums : slice Album) :
  GoJSON.to_slice to_album (GoJSON.of_slice album_json albums) = inr albums.
Proof.
  destruct albums as [l|]; [| done]. simpl.
  assert (H : GoJSON.to_list to_album (map album_json l) = inr l).
  { induction l as [|x l IH]; [done |]. cbn [map GoJSON.to_list]. by rewrite to_album_json, IH. }
  by rewrite H.
Qed.

Lemma plain_strings (l : slice string) :
  forallb GoJSON.ValidString (elems l) = true ->
  GoJSON.plain (GoJSON.of_slice GoJSON.JString l) = true.
Proof.
  destruct l as [l|]; [| done]. simpl.
  induction l as [|x l IH]; [done |]. simpl. intros [-> Hl]%andb_prop. by apply IH.
Qed.

Lemma plain_album (a : Album) : valid_album a = true -> GoJSON.plain (album_json a) = true.
Proof.
  unfold valid_album. intros [[[H1 H2]%andb_prop H3]%andb_prop H4]%andb_prop.
  unfold album_json. cbn [GoJSON.plain forallb fst snd].
  rewrite H1, H2, H3, plain_strings by done. vm_compute. reflexivity.
Qed.

Lemma plain_payload (p : payload) :
  GoJSON.ValidString (FetchedAt p) = true -> valid_albums (Albums p) = true ->
  GoJSON.plain (payload_json p) = true.
Proof.
  intros Hf Ha. unfold payload_json. cbn [GoJSON.plain forallb fst snd]. rewrite Hf.
  assert (H : GoJSON.plain (GoJSON.of_slice album_json (Albums p)) = true).
  { unfold valid_albums in Ha. destruct (Albums p) as [l|]; [| done].
    cbn [GoJSON.of_slice GoJSON.plain elems] in *.
    induction l as [|x l IH]; [done |]. cbn [map forallb] in *.
    apply andb_prop in Ha as [Hx Hl]. by rewrite plain_album, IH. }
  rewrite H. vm_compute. reflexivity.
Qed.

(** A snapshot whose strings are valid UTF-8 is read back as it was written. *)
Lemma Unmarshal_MarshalIndent (p : payload) :
  GoJSON.ValidString (FetchedAt p) = true -> valid_albums (Albums p) = true ->
  Unmarshal (GoJSON.indented 0 (payload_json p)) = inr p.
Proof.
  intros Hf Ha. unfold Unmarshal. rewrite parse_indented by by apply plain_payload.
  destruct p as [f albums]. unfold payload_json. cbn [set_fields FetchedAt Albums].
  change (set_payload_field ?p ("fetchedAt", ?v)) with
    (match set_string (FetchedAt p) v with
     | inr s => inr (mkPayload s (Albums p)) | inl e => inl e end).
  cbn [set_string FetchedAt Albums].
  change (set_payload_field ?p ("albums", ?v)) with
    (match GoJSON.to_slice to_album v with
     | inr l => inr (mkPayload (FetchedAt p) l) | inl e => inl e end).
  by rewrite to_slice_albums.
Qed.

(** C5 (amended).  When Save returns nil, every string of the albums is valid
    UTF-8 and the wall clock reads a time from 0001-01-01T00:00:01Z to the
    end of year 9999, Load on the same path returns the same albums and the
    time of the Save cut to whole seconds: not the zero time, and less than a
    second before the clock reading. *)
Theorem cache_round_trip now os fs c albums :
  let saved := Save now os fs c albums in
  saved.1 = None ->
  valid_albums albums = true ->
  (1 <= sec now < 315537897600)%Z -> (0 <= nsec now < Second)%Z ->
  exists fetchedAt,
    Load saved.2 None c = inr (albums, fetchedAt) /\
    IsZero fetchedAt = false /\
    (0 <= Sub (mkTime (sec now) (nsec now) None) fetchedAt < Second)%Z.
Proof.
  intros saved Hok Hvalid Hsec Hnsec. subst saved.
  exists (mkTime (sec now) 0 None).
  pose proof (Save_file now os fs c albums) as Hfile. rewrite Hok in Hfile.
  split; [| split].
  - unfold Load, ReadFile. rewrite Hfile.
    rewrite Unmarshal_MarshalIndent by (done || apply Format_valid). cbn [FetchedAt Albums].
    destruct (String.eqb_spec (RFC3339.Format now) "") as [E|_];
      [by apply Format_not_empty in E |].
    cbn [negb]. by rewrite Parse_Format by lia.
  - unfold IsZero. simpl. apply andb_false_intro1. apply Z.eqb_neq. lia.
  - unfold Sub, elapsed, clamp64, minInt64, maxInt64, Second in *. simpl. lia.
Qed.

Lemma cache_round_trip_witness :
  exists fetchedAt,
    Load (Save clock (healthy "9") ∅ cachePath alphaBeta).2 None cachePath
    = inr (alphaBeta, fetchedAt) /\
    IsZero fetchedAt = false /\
    (0 <= Sub (mkTime (sec clock) (nsec clock) None) fetchedAt < Second)%Z.
Proof.
  assert (H1 : (Save clock (healthy "9") ∅ cachePath alphaBeta).1 = None)
    by (vm_compute; reflexivity).
  assert (H2 : valid_albums alphaBeta = true) by (vm_compute; reflexivity).
  assert (H3 : (1 <= sec clock < 315537897600)%Z) by (unfold clock; simpl; lia).
  assert (H4 : (0 <= nsec clock < Second)%Z) by (unfold clock, Second; simpl; lia).
  exact (cache_round_trip clock (healthy "9") ∅ cachePath alphaBeta H1 H2 H3 H4).
Defined.

(** C5 as stated fails four times.  A name that is not valid UTF-8 comes back
    as U+FFFD.  When Save fails nothing is written and Load finds no file.
    Within the first second of year 1 the time read back is the zero time.
    From year 10000 on Format writes a year of five digits, which Parse
    rejects: Load fails on the file Save wrote. *)
Lemma cache_round_trip_loses_invalid_utf8 :
  ((Save clock (healthy "9") ∅ cachePath badName).1 = None /\
   Load (Save clock (healthy "9") ∅ cachePath badName).2 None cachePath
   = inr (Some [mkAlbum "a1" GoJSON.replacement "https://cover/1" None],
          mkTime 63906573600 0 None) /\
   GoJSON.replacement <> String (GoJSON.byte 255) "") /\
  ((Save clock renameRefused ∅ cachePath alphaBeta).1
   = Some (wrapError "atomic replace album cache file: "
             (errorString "rename: no space left on device")) /\
   Load (Save clock renameRefused ∅ cachePath alphaBeta).2 None cachePath = inl ErrNotExist) /\
  ((Save firstSecond (healthy "9") ∅ cachePath alphaBeta).1 = None /\
   Load (Save firstSecond (healthy "9") ∅ cachePath alphaBeta).2 None cachePath
   = inr (alphaBeta, zeroTime) /\
   IsZero zeroTime = true) /\
  ((Save year10000 (healthy "9") ∅ cachePath alphaBeta).1 = None /\
   RFC3339.Format year10000 = "10000-01-01T00:00:00Z" /\
   Load (Save year10000 (healthy "9") ∅ cachePath alphaBeta).2 None cachePath
   = inl (wrapError "parse fetchedAt in album cache albums_cache.json: "
            RFC3339.parseError)).
Proof.
  split; [| split; [| split]].
  - vm_compute. repeat split. discriminate.
  - vm_compute. by split.
  - vm_compute. by repeat split.
  - vm_compute. by repeat split.
Qed.

End CatalogFacts.

Module WorkerFacts.
Import Go Worker WorkerDoubles.

Ltac fields := cbn [main next pool errCh mem cancelled started finished].

Section Pool.
Context {St : Type}.
Variable jobs : list (@Job St).
Variable cancellable : bool.
Variable ctxErr : error.

Abbreviation step_by := (step_by jobs cancellable ctxErr).
Abbreviation run := (run jobs cancellable ctxErr).

Definition job_of (w : worker) : option nat :=
  match w with Running i => Some i | _ => None end.

Lemma running_eq (s : @state St) : running s = omap job_of (pool s).
Proof. reflexivity. Qed.

Lemma omap_split {A B} (f : A -> option B) (l : list A) w x :
  l !! w = Some x ->
  omap f l = omap f (take w l) ++ option_list (f x) ++ omap f (drop (S w) l).
Proof.
  intros H. rewrite <- (take_drop_middle l w x H) at 1.
  rewrite omap_app. simpl. by destruct (f x).
Qed.

Lemma omap_insert {A B} (f : A -> option B) (l : list A) w x y :
  l !! w = Some x ->
  omap f (<[w := y]> l) = omap f (take w l) ++ option_list (f y) ++ omap f (drop (S w) l).
Proof.
  intros H. rewrite insert_take_drop by (by eapply lookup_lt_Some).
  rewrite omap_app. simpl. by destruct (f y).
Qed.

Lemma idle_pool_runs_nothing n : omap job_of (replicate n Idle) = [].
Proof. induction n as [|n IH]; [done | exact IH]. Qed.

(** What every reachable state satisfies. *)
Record Inv (size : nat) (s : @state St) : Prop := mkInv {
  inv_size : length (pool s) = size;
  inv_next : next s <= length jobs;
  inv_started : started s = seq 0 (next s);
  inv_jobs : seq 0 (next s) ≡ₚ map fst (finished s) ++ running s;
  inv_errCh : errCh s = failures s;
  inv_feeding : main s = Feeding -> Forall (fun w => w <> Exited) (pool s);
  inv_closed : cancelled s = false -> main s <> Feeding -> next s = length jobs;
  inv_returned : forall r, main s = Returned r ->
    Forall (fun w => w = Exited) (pool s) /\
    (cancellable = false -> r = joined ctxErr s)
}.

Lemma Inv_step size c s s' : Inv size s -> step_by c s = Some s' -> Inv size s'.
Proof.
  intros [Hsize Hnext Hstarted Hjobs Herr Hfeed Hclosed Hret] Hstep.
  destruct c as [w| | |w|w| |]; simpl in Hstep.
  - (* HandOff *)
    destruct (main s) eqn:Hmain; try done.
    destruct (pool s !! w) as [[| |]|] eqn:Hw; try done.
    destruct (jobs !! next s) eqn:Hjob; try done.
    injection Hstep as <-. apply lookup_lt_Some in Hjob as Hlt.
    split; fields.
    + by rewrite length_insert.
    + lia.
    + rewrite Hstarted. by rewrite seq_S.
    + rewrite seq_S. rewrite running_eq in *. fields.
      rewrite (omap_insert _ _ _ _ _ Hw). rewrite (omap_split _ _ _ _ Hw) in Hjobs.
      simpl in *. rewrite Hjobs. solve_Permutation.
    + done.
    + intros _. apply Forall_insert; [auto | done].
    + done.
    + done.
  - (* ObserveDone *)
    destruct (main s) eqn:Hmain; try done.
    destruct (jobs !! next s) eqn:Hjob; try done.
    destruct (cancelled s) eqn:Hc; try done.
    injection Hstep as <-. split; fields; try done.
  - (* CloseQueue *)
    destruct (main s) eqn:Hmain; try done.
    destruct (jobs !! next s) eqn:Hjob; try done.
    injection Hstep as <-. apply lookup_ge_None in Hjob.
    split; fields; try done. intros _ _. lia.
  - (* Finish *)
    destruct (pool s !! w) as [[|i|]|] eqn:Hw; try done.
    destruct (jobs !! i) as [job|] eqn:Hjob; try done.
    destruct (job (cancelled s) (mem s)) as [m e].
    assert (Hperm : forall e', seq 0 (next s) ≡ₚ
              map fst (finished s ++ [(i, e')]) ++ omap job_of (<[w := Idle]> (pool s))).
    { intros e'. rewrite Hjobs, running_eq. rewrite (omap_insert _ _ _ _ _ Hw).
      rewrite (omap_split _ _ _ _ Hw). rewrite map_app. simpl. solve_Permutation. }
    assert (Hidle : main s = Feeding -> Forall (fun w => w <> Exited) (<[w := Idle]> (pool s))).
    { intros H. apply Forall_insert; [auto | done]. }
    assert (Hexit : forall r, main s = Returned r -> False).
    { intros r Hr. destruct (Hret r Hr) as [Hall _].
      rewrite Forall_lookup in Hall. by specialize (Hall w _ Hw). }
    assert (Hfail : forall err, errCh s ++ [err] = failures
              (mkState (main s) (next s) (<[w := Idle]> (pool s)) (errCh s ++ [err]) m
                 (cancelled s) (started s) (finished s ++ [(i, Some err)]))).
    { intros err. unfold failures. fields. rewrite omap_app. simpl. by rewrite Herr. }
    assert (Hpass : errCh s = failures
              (mkState (main s) (next s) (<[w := Idle]> (pool s)) (errCh s) m
                 (cancelled s) (started s) (finished s ++ [(i, None)]))).
    { unfold failures. fields. rewrite omap_app. simpl. by rewrite app_nil_r. }
    destruct e as [err|].
    + destruct (length (errCh s) <? length jobs); try done.
      injection Hstep as <-.
      split; fields; try done;
        first [ by rewrite length_insert | apply Hperm | apply Hfail
              | (intros r Hr; by destruct (Hexit r)) ].
    + injection Hstep as <-.
      split; fields; try done;
        first [ by rewrite length_insert | apply Hperm | apply Hpass
              | (intros r Hr; by destruct (Hexit r)) ].
  - (* Exit *)
    assert (Hperm : seq 0 (next s) ≡ₚ
              map fst (finished s) ++ omap job_of (<[w := Exited]> (pool s)) \/
            pool s !! w <> Some Idle).
    { destruct (pool s !! w) as [[| |]|] eqn:Hw; [| by right ..]. left.
      rewrite Hjobs, running_eq. rewrite (omap_insert _ _ _ _ _ Hw).
      by rewrite (omap_split _ _ _ _ Hw). }
    assert (Hgone : forall r, main s = Returned r -> pool s !! w <> Some Idle).
    { intros r Hr Hw. destruct (Hret r Hr) as [Hall _].
      rewrite Forall_lookup in Hall. by specialize (Hall w _ Hw). }
    destruct (main s) eqn:Hmain; try done;
    destruct (pool s !! w) as [[| |]|] eqn:Hw; try done;
    injection Hstep as <-; split; fields; try done;
      first [ by rewrite length_insert
            | (by destruct Hperm)
            | (intros r Hr; by destruct (Hgone _ eq_refl)) ].
  - (* Return *)
    destruct (main s) eqn:Hmain; try done.
    destruct (forallb is_exited (pool s)) eqn:Hall; try done.
    injection Hstep as <-. split; fields; try done.
    + intros Hc _. by apply Hclosed.
    + intros r [= <-]. split; [| done].
      apply Is_true_true_2, forallb_True in Hall. eapply Forall_impl; [exact Hall |].
      by intros [| |].
  - (* Cancel *)
    destruct (cancellable && negb (cancelled s)) eqn:Hc; try done.
    apply andb_true_iff in Hc as [Hc _].
    injection Hstep as <-. split; fields; try done.
    intros r Hr. destruct (Hret r Hr) as [Hall Hj]. split; [done |].
    intros Hn. by rewrite Hn in Hc.
Qed.

Lemma Inv_init workers m done :
  jobs <> [] -> Inv (coerce workers) (init jobs workers m done).
Proof.
  intros Hne. unfold init. destruct jobs as [|j js] eqn:Hj; [done |].
  split; fields; try done.
  all: try (by rewrite length_replicate).
  all: try (simpl; lia).
  all: try (intros _; by apply Forall_replicate).
  rewrite running_eq. fields. by rewrite idle_pool_runs_nothing.
Qed.

Lemma Inv_run size schedule : forall s s',
  Inv size s -> run schedule s = Some s' -> Inv size s'.
Proof.
  induction schedule as [|c rest IH]; intros s s' Hinv Hrun; simpl in Hrun.
  - by injection Hrun as <-.
  - destruct (step_by c s) as [s1|] eqn:Hstep; [| done].
    eapply IH; [| exact Hrun]. by eapply Inv_step.
Qed.

(** Every step uses up some of a finite budget. *)
Definition weight (w : worker) : nat :=
  match w with Running _ => 2 | Idle => 1 | Exited => 0 end.

Definition budget (s : @state St) : nat :=
  match main s with
  | Feeding => 2 + 3 * (length jobs - next s)
  | Closed => 1
  | Returned _ => 0
  end
  + sum_list (weight <$> pool s)
  + (if cancellable && negb (cancelled s) then 1 else 0).

Lemma sum_list_app (l1 l2 : list nat) : sum_list (l1 ++ l2) = sum_list l1 + sum_list l2.
Proof. induction l1 as [|x l1 IH]; [done |]. cbn. rewrite IH. lia. Qed.

Lemma length_omap {A B} (f : A -> option B) (l : list A) : length (omap f l) <= length l.
Proof. induction l as [|x l IH]; csimpl; [lia |]. destruct (f x); csimpl; lia. Qed.

Lemma weight_insert (l : list worker) w x y :
  l !! w = Some x ->
  sum_list (weight <$> <[w := y]> l) + weight x = sum_list (weight <$> l) + weight y.
Proof.
  intros H. rewrite insert_take_drop by (by eapply lookup_lt_Some).
  rewrite <- (take_drop_middle l w x H) at 3.
  rewrite !fmap_app, !fmap_cons, !sum_list_app. simpl. lia.
Qed.

Lemma step_budget c s s' : step_by c s = Some s' -> budget s' < budget s.
Proof.
  intros Hstep. unfold budget.
  destruct c as [w| | |w|w| |]; simpl in Hstep.
  - destruct (main s) eqn:Hmain; try done.
    destruct (pool s !! w) as [[| |]|] eqn:Hw; try done.
    destruct (jobs !! next s) eqn:Hjob; try done.
    injection Hstep as <-. fields. apply lookup_lt_Some in Hjob.
    pose proof (weight_insert _ _ _ (Running (next s)) Hw). simpl in *. lia.
  - destruct (main s) eqn:Hmain; try done.
    destruct (jobs !! next s) eqn:Hjob; try done.
    destruct (cancelled s) eqn:Hc; try done.
    injection Hstep as <-. fields. lia.
  - destruct (main s) eqn:Hmain; try done.
    destruct (jobs !! next s) eqn:Hjob; try done.
    injection Hstep as <-. fields. lia.
  - destruct (pool s !! w) as [[|i|]|] eqn:Hw; try done.
    destruct (jobs !! i) as [job|] eqn:Hjob; try done.
    destruct (job (cancelled s) (mem s)) as [m e].
    pose proof (weight_insert _ _ _ Idle Hw).
    destruct e as [err|]; [destruct (length (errCh s) <? length jobs); try done |];
      injection Hstep as <-; fields; simpl in *; lia.
  - destruct (main s) eqn:Hmain; try done;
    destruct (pool s !! w) as [[| |]|] eqn:Hw; try done;
    injection Hstep as <-; fields;
    pose proof (weight_insert _ _ _ Exited Hw); simpl in *; lia.
  - destruct (main s) eqn:Hmain; try done.
    destruct (forallb is_exited (pool s)); try done.
    injection Hstep as <-. fields. lia.
  - destruct (cancellable && negb (cancelled s)) eqn:Hc; try done.
    injection Hstep as <-. fields. rewrite andb_false_r. lia.
Qed.

Lemma run_budget schedule : forall s s',
  run schedule s = Some s' -> length schedule + budget s' <= budget s.
Proof.
  induction schedule as [|c rest IH]; intros s s' Hrun; simpl in Hrun.
  - injection Hrun as <-. simpl. lia.
  - destruct (step_by c s) as [s1|] eqn:Hstep; [| done].
    apply step_budget in Hstep. apply IH in Hrun. simpl. lia.
Qed.

Lemma run_app l1 l2 s s1 s2 :
  run l1 s = Some s1 -> run l2 s1 = Some s2 -> run (l1 ++ l2) s = Some s2.
Proof.
  revert s. induction l1 as [|c l1 IH]; intros s H1 H2; simpl in *.
  - by injection H1 as <-.
  - destruct (step_by c s); [| done]. by apply IH.
Qed.

(** Nothing more can happen. *)
Definition halted (s : @state St) : Prop := forall c, step_by c s = None.

(** As long as [Run] has not returned, some goroutine can move. *)
Lemma progress size s :
  0 < size -> Inv size s ->
  (exists r, main s = Returned r) \/ exists c s', step_by c s = Some s'.
Proof.
  intros Hpos [Hsize Hnext Hstarted Hjobs Herr Hfeed Hclosed Hret].
  assert (Hfinish : forall w i, pool s !! w = Some (Running i) ->
            exists s', step_by (Finish w) s = Some s').
  { intros w i Hw. unfold Worker.step_by. rewrite Hw. cbv iota beta.
    assert (i ∈ seq 0 (next s)) as Hi.
    { rewrite Hjobs. apply elem_of_app. right. rewrite running_eq.
      apply list_elem_of_omap. exists (Running i). split; [| done].
      by eapply list_elem_of_lookup_2. }
    apply elem_of_seq in Hi.
    destruct (jobs !! i) as [job|] eqn:Hjob; [| apply lookup_ge_None in Hjob; unfold Job in *; lia].
    destruct (job (cancelled s) (mem s)) as [m [err|]]; [| by eexists].
    assert (length (errCh s) < length jobs) as Hroom.
    { apply (f_equal length) in Hstarted. rewrite length_seq in Hstarted.
      apply Permutation_length in Hjobs. rewrite length_seq, length_app, length_map in Hjobs.
      assert (0 < length (running s)).
      { rewrite running_eq. rewrite (omap_split _ _ _ _ Hw). rewrite !length_app. simpl. lia. }
      assert (length (errCh s) <= length (finished s)).
      { rewrite Herr. unfold failures. apply length_omap. }
      lia. }
    apply Nat.ltb_lt in Hroom. rewrite Hroom. by eexists. }
  destruct (main s) eqn:Hmain.
  - right. destruct (jobs !! next s) as [job|] eqn:Hjob.
    + destruct (pool s !! 0) as [w0|] eqn:Hw0; [| apply lookup_ge_None in Hw0; lia].
      destruct w0 as [|i|].
      * exists (HandOff 0). unfold Worker.step_by. rewrite Hmain, Hw0, Hjob. by eexists.
      * destruct (Hfinish 0 i Hw0) as [s' Hs']. by exists (Finish 0), s'.
      * specialize (Hfeed eq_refl). rewrite Forall_lookup in Hfeed.
        by specialize (Hfeed 0 _ Hw0).
    + exists CloseQueue. unfold Worker.step_by. rewrite Hmain, Hjob. by eexists.
  - right. destruct (decide (Forall (fun w => w = Exited) (pool s))) as [Hall | Hsome].
    + exists Return. unfold Worker.step_by. rewrite Hmain.
      assert (forallb is_exited (pool s) = true) as ->; [| by eexists].
      apply Is_true_true_1, forallb_True. eapply Forall_impl; [exact Hall |]. by intros ? ->.
    + apply not_Forall_Exists in Hsome; [| apply _].
      apply Exists_exists in Hsome as (w & Hin & Hw).
      apply list_elem_of_lookup in Hin as [k Hk].
      destruct w as [|i|]; [| | by destruct Hw].
      * exists (Exit k). unfold Worker.step_by. rewrite Hmain, Hk. by eexists.
      * destruct (Hfinish k i Hk) as [s' Hs']. by exists (Finish k), s'.
  - left. by eexists.
Qed.

Lemma eventually_returns size n : forall s,
  budget s <= n -> 0 < size -> Inv size s ->
  exists rest s' r, run rest s = Some s' /\ main s' = Returned r.
Proof.
  induction n as [|n IH]; intros s Hn Hpos Hinv;
    (destruct (progress size s Hpos Hinv) as [[r Hr] | (c & s1 & Hstep)];
      [by exists [], s, r |]); pose proof (step_budget _ _ _ Hstep) as Hlt; [lia |].
  destruct (IH s1) as (rest & s' & r & Hrun & Hr); [lia | done | by eapply Inv_step |].
  exists (c :: rest), s', r. split; [| done]. simpl. by rewrite Hstep.
Qed.

Lemma never_cancelled_run schedule : forall s s',
  cancellable = false -> run schedule s = Some s' -> cancelled s' = cancelled s.
Proof.
  induction schedule as [|c rest IH]; intros s s' Hc Hrun; simpl in Hrun.
  - by injection Hrun as <-.
  - destruct (step_by c s) as [s1|] eqn:Hstep; [| done].
    rewrite (IH _ _ Hc Hrun). clear Hrun IH.
    unfold Worker.step_by in Hstep. rewrite Hc in Hstep.
    destruct c as [w| | |w|w| |]; simpl in Hstep; try done;
      repeat match type of Hstep with
             | match ?x with _ => _ end = _ => destruct x eqn:?; try done
             | (let '(_, _) := ?x in _) = _ => destruct x eqn:?; try done
             end; by injection Hstep as <-.
Qed.

(** Once [Run] has returned and the context cannot be cancelled, nothing moves. *)
Lemma returned_halted size s r :
  cancellable = false -> Inv size s -> main s = Returned r -> halted s.
Proof.
  intros Hc Hinv Hr c. destruct (inv_returned _ _ Hinv r Hr) as [Hall _].
  rewrite Forall_lookup in Hall.
  unfold Worker.step_by. rewrite Hc, Hr.
  destruct c as [w| | |w|w| |]; try done.
  - destruct (pool s !! w) as [x|] eqn:Hw; [| done]. by rewrite (Hall _ _ Hw).
  - destruct (pool s !! w) as [x|] eqn:Hw; [| done]. by rewrite (Hall _ _ Hw).
Qed.

Lemma pool_size_step c s s' : step_by c s = Some s' -> length (pool s') = length (pool s).
Proof.
  intros Hstep. unfold Worker.step_by in Hstep.
  destruct c as [w| | |w|w| |];
    repeat match type of Hstep with
           | match ?x with _ => _ end = _ => destruct x eqn:?; try done
           | (let '(_, _) := ?x in _) = _ => destruct x eqn:?; try done
           end; injection Hstep as <-; fields; by rewrite ?length_insert.
Qed.

Lemma pool_size_run schedule : forall s s',
  run schedule s = Some s' -> length (pool s') = length (pool s).
Proof.
  induction schedule as [|c rest IH]; intros s s' Hrun; simpl in Hrun.
  - by injection Hrun as <-.
  - destruct (step_by c s) as [s1|] eqn:Hstep; [| done].
    rewrite (IH _ _ Hrun). by eapply pool_size_step.
Qed.

End Pool.

(** With a context that is never cancelled and jobs that return, every
    interleaving is finite and can always be continued until Run returns; when
    nothing can move any more Run has returned, every job of the list was
    started once, in order, and returned once; the result is nil when no job
    failed and otherwise the join of all the failures the jobs returned. *)
Lemma returning_jobs_complete {St : Type} (jobs : list (@Job St)) ctxErr workers m
    schedule s :
  run jobs false ctxErr schedule (init jobs workers m false) = Some s ->
  (length schedule <= budget jobs false (init jobs workers m false) /\
   exists rest s', run jobs false ctxErr rest s = Some s' /\ halted jobs false ctxErr s') /\
  (halted jobs false ctxErr s ->
   exists r, main s = Returned r /\
     started s = seq 0 (length jobs) /\
     map fst (finished s) ≡ₚ seq 0 (length jobs) /\
     r = match failures s with [] => None | errs => Some (joinError errs) end /\
     (r = None <-> Forall (fun done => done.2 = None) (finished s)) /\
     length (pool s) = match jobs with [] => 0 | _ => coerce workers end /\
     (jobs = [] -> schedule = [] /\ r = None)).
Proof.
  intros Hrun.
  destruct jobs as [|j js].
  { (* the empty list: Run has returned before anything starts *)
    assert (Hs : schedule = [] /\ s = init [] workers m false).
    { destruct schedule as [|c rest]; [by injection Hrun as <- |].
      simpl in Hrun. by destruct c as [[|w]| | |[|w]|[|w]| |]. }
    destruct Hs as [-> ->]. split.
    - split; [simpl; lia |]. exists [], (init [] workers m false). split; [done |].
      intros c. by destruct c as [[|w]| | |[|w]|[|w]| |].
    - intros _. exists None. simpl. repeat split; try done. }
  set (jobs := j :: js) in *.
  assert (Hne : jobs <> []) by done.
  assert (Hpos : 0 < coerce workers).
  { unfold coerce. destruct (Z.ltb_spec workers 1); lia. }
  pose proof (Inv_init jobs false ctxErr workers m false Hne) as Hinit.
  pose proof (Inv_run _ _ _ _ _ _ _ Hinit Hrun) as Hinv.
  pose proof (never_cancelled_run _ _ _ _ _ _ eq_refl Hrun) as Hnc.
  change (cancelled (init jobs workers m false)) with false in Hnc.
  split.
  - split.
    + pose proof (run_budget _ _ _ _ _ _ Hrun). lia.
    + destruct (eventually_returns jobs false ctxErr _ _ s (le_n _) Hpos Hinv)
        as (rest & s' & r & Hrest & Hr).
      exists rest, s'. split; [done |].
      eapply returned_halted; [done | | exact Hr]. by eapply Inv_run.
  - intros Hhalt.
    destruct (progress jobs false ctxErr _ s Hpos Hinv) as [[r Hr] | (c & s1 & Hstep)];
      [| by rewrite Hhalt in Hstep].
    exists r. destruct Hinv as [Hsize Hnext Hstarted Hperm Herr Hfeed Hclosed Hret].
    destruct (Hret r Hr) as [Hall Hres].
    assert (Hn : next s = length jobs) by (apply Hclosed; [done | by rewrite Hr]).
    assert (Hrun0 : running s = []).
    { rewrite running_eq. clear -Hall. induction Hall as [|w ws -> _ IH]; [done | exact IH]. }
    rewrite Hrun0, app_nil_r, Hn in Hperm. rewrite Hn in Hstarted.
    assert (Hr' : r = match failures s with [] => None | errs => Some (joinError errs) end).
    { rewrite (Hres eq_refl). unfold joined. rewrite Hnc, app_nil_r, Herr.
      by destruct (failures s). }
    split; [done |]. split; [done |]. split; [by symmetry |]. split; [done |].
    split; [| split].
    + rewrite Hr'. unfold failures. clear. induction (finished s) as [|[i [e|]] l IH]; csimpl.
      * split; [by constructor | done].
      * split; [done |]. intros H. apply Forall_cons in H as [H _]. done.
      * rewrite IH. split; [intros H; by constructor | by intros [_ H]%Forall_cons].
    + done.
    + done.
Qed.

(** C8.  In every state [worker.Run] can reach, under any interleaving and
    whether or not the context is cancelled, the jobs that are executing are
    at most as many as the workers, and the workers are the [coerce workers]
    goroutines started at the beginning (none for an empty job list). *)
Theorem running_jobs_bounded {St : Type} (jobs : list (@Job St)) cancellable ctxErr
    workers m done schedule s :
  run jobs cancellable ctxErr schedule (init jobs workers m done) = Some s ->
  length (running s) <= coerce workers /\
  length (pool s) = match jobs with [] => 0 | _ => coerce workers end.
Proof.
  intros Hrun. apply pool_size_run in Hrun.
  assert (Hpool : length (pool s) = match jobs with [] => 0 | _ => coerce workers end).
  { rewrite Hrun. unfold init. destruct jobs; [done |]. fields. by rewrite length_replicate. }
  split; [| done].
  pose proof (length_omap job_of (pool s)) as Hle. rewrite running_eq.
  rewrite Hpool in Hle. destruct jobs; lia.
Qed.

Lemma running_jobs_bounded_witness :
  exists s,
    run collectJobs false Canceled [HandOff 0; HandOff 1] (init collectJobs 2 0 false) = Some s /\
    running s = [0; 1] /\ length (running s) <= coerce 2.
Proof.
  destruct (run collectJobs false Canceled [HandOff 0; HandOff 1] (init collectJobs 2 0 false))
    as [s|] eqn:Hrun; [| vm_compute in Hrun; discriminate Hrun].
  exists s. split; [done |].
  destruct (running_jobs_bounded _ _ _ _ _ _ _ _ Hrun) as [Hle _].
  split; [| exact Hle].
  vm_compute in Hrun. by injection Hrun as <-.
Defined.

End WorkerFacts.

Module RetryLimits.
Import Go Retry RetryDoubles RetryEvents RetryFacts.
Local Open Scope Z_scope.

Lemma invocations_app evs1 evs2 :
  invocations (evs1 ++ evs2) = (invocations evs1 + invocations evs2)%nat.
Proof. unfold invocations. by rewrite filter_app, length_app. Qed.

Lemma invocations_nil : invocations [] = 0%nat.
Proof. reflexivity. Qed.

Section Loop.
Context {St T : Type}.
Variable zero : T.
Variable ctx : Context.
Variable tie : Z -> bool.
Variable attempts : Z.
Variable fn : Op St T.

Lemma loop_bounds left : forall i err now m,
  let r := retryResultLoop zero ctx tie attempts fn left i err now m in
  (invocations (events r) <= left)%nat /\
  (0 < left -> 1 <= invocations (events r))%nat.
Proof.
  induction left as [|left IH]; intros i err now m r; subst r.
  { simpl. split; [done | lia]. }
  rewrite loop_S. cbv zeta.
  pose proof (IH (i + 1)) as IH'.
  destruct (failure (fn now m)) as [e|];
    [| cbn [events]; rewrite !invocations_cons, invocations_nil; simpl; split; intros; lia].
  destruct (i =? attempts);
    [cbn [events]; rewrite !invocations_cons, invocations_nil; simpl; split; intros; lia |].
  destruct (select_done_or_after _ _ _ _) as [t|t];
    [cbn [events]; rewrite !invocations_cons, invocations_nil; simpl; split; intros; lia |].
  destruct (IH' (Some e) t (next (fn now m))) as [Hle _].
  unfold before. cbn [events]. rewrite invocations_app, !invocations_cons, invocations_nil. simpl.
  split; intros; lia.
Qed.

Lemma loop_outcome left : forall i err now m,
  (0 < left)%nat ->
  let r := retryResultLoop zero ctx tie attempts fn left i err now m in
  (result r <> None -> value r = zero) /\
  (result r = None <-> exists e, last (events r) = Some e /\ succeeded e) /\
  (forall earlier e later, events r = earlier ++ e :: later -> succeeded e -> later = []).
Proof.
  induction left as [|left IH]; intros i err now m Hpos r; subst r; [lia |].
  rewrite loop_S. cbv zeta.
  destruct (failure (fn now m)) as [e|] eqn:Hf.
  2:{ cbn [result value events]. split; [done |]. split.
      - split; [| done]. intros _. eexists. split; [reflexivity | done].
      - intros earlier e later Heq _.
        destruct earlier as [|x earlier]; [by injection Heq as _ <- |].
        injection Heq as _ Heq. by destruct earlier. }
  destruct (i =? attempts).
  { cbn [result value events]. split; [done |]. split.
    - split; [done |]. intros (e' & [= <-] & He'). done.
    - intros earlier e' later Heq He'.
      destruct earlier as [|x earlier]; [injection Heq as <- _; done |].
      injection Heq as _ Heq. by destruct earlier. }
  destruct (select_done_or_after _ _ _ _) as [t|t].
  { cbn [result value events]. split; [done |]. split.
    - split; [done |]. intros (e' & [= <-] & He'). done.
    - intros earlier e' later Heq He'.
      destruct earlier as [|x earlier]; [injection Heq as <- _; done |].
      injection Heq as _ Heq.
      destruct earlier as [|y earlier]; [injection Heq as <- _; done |].
      injection Heq as _ Heq. by destruct earlier. }
  unfold before. cbn [result value events].
  destruct left as [|left'].
  { simpl. split; [done |]. split.
    - split; [done |]. intros (e' & [= <-] & He'). done.
    - intros earlier e' later Heq He'.
      destruct earlier as [|x earlier]; [injection Heq as <- _; done |].
      injection Heq as _ Heq.
      destruct earlier as [|y earlier]; [injection Heq as <- _; done |].
      injection Heq as _ Heq. by destruct earlier. }
  destruct (IH (i + 1) (Some e) t (next (fn now m)) ltac:(lia)) as (Hz & Hlast & Honce).
  set (r := retryResultLoop zero ctx tie attempts fn (S left') (i + 1) (Some e) t
              (next (fn now m))) in *.
  assert (Hne : events r <> []).
  { pose proof (loop_bounds (S left') (i + 1) (Some e) t (next (fn now m))) as [_ H].
    fold r in H. intros Hnil. rewrite Hnil in H. unfold invocations in H. simpl in H. lia. }
  split; [done |]. split.
  - rewrite Hlast. rewrite last_app.
    destruct (last (events r)) eqn:Hl; [done |].
    apply last_None in Hl. done.
  - intros earlier e' later Heq He'.
    destruct earlier as [|x earlier]; [injection Heq as <- _; done |].
    injection Heq as _ Heq.
    destruct earlier as [|y earlier]; [injection Heq as <- _; done |].
    injection Heq as _ Heq. by eapply Honce.
Qed.

End Loop.

(** The attempt ceiling holds under every context and every operation: the
    operation is invoked at least once and at most N times (N < 1 counting
    as 1), by withRetryResult as by withRetry. *)
Theorem retry_attempt_ceiling {St T : Type} (zero : T) ctx tie N
    (fn : Op St T) (fn0 : Op St unit) now m :
  1 <= Z.of_nat (invocations (events (withRetryResult zero ctx tie N fn now m))) <= coerce N /\
  1 <= Z.of_nat (invocations (events (withRetry ctx tie N fn0 now m))) <= coerce N.
Proof.
  pose proof (coerce_pos N) as HN.
  rewrite withRetry_as_result. unfold withRetryResult.
  pose proof (loop_bounds zero ctx tie (coerce N) fn (Z.to_nat (coerce N)) 1 None now m) as [H1 H2].
  pose proof (loop_bounds tt ctx tie (coerce N) fn0 (Z.to_nat (coerce N)) 1 None now m) as [H3 H4].
  cbv zeta in *. lia.
Qed.

(** What the executor returns reflects its last attempt: the result is nil
    exactly when the last event is an invocation that returned nil; nothing
    happens after an invocation that returned nil; and on every failure
    withRetryResult returns the zero value. *)
Theorem retry_stops_at_success {St T : Type} (zero : T) ctx tie N (fn : Op St T) now m :
  let r := withRetryResult zero ctx tie N fn now m in
  (result r <> None -> value r = zero) /\
  (result r = None <-> exists e, last (events r) = Some e /\ succeeded e) /\
  (forall earlier e later, events r = earlier ++ e :: later -> succeeded e -> later = []).
Proof.
  intros r. subst r. unfold withRetryResult. apply loop_outcome.
  pose proof (coerce_pos N). lia.
Qed.

End RetryLimits.

Module FreshnessOrder.
Import Go GoTime Freshness.
Local Open Scope Z_scope.

(** A cache that is fresh under a positive TTL is fresh under every longer
    one. *)
Theorem fresh_for_longer_ttl (cachedAt : Time) (ttl ttl' : Duration) (now : Time) :
  0 < ttl <= ttl' ->
  shouldUseCachedAlbums cachedAt ttl now = true ->
  shouldUseCachedAlbums cachedAt ttl' now = true.
Proof.
  unfold shouldUseCachedAlbums. intros Httl.
  destruct (Z.leb_spec ttl 0); [lia |]. destruct (Z.leb_spec ttl' 0); [lia |].
  destruct (IsZero cachedAt); [done |].
  destruct (Sub now cachedAt <? 0); [done |].
  intros Hage%Z.leb_le. apply Z.leb_le. lia.
Qed.

Lemma fresh_for_longer_ttl_witness :
  shouldUseCachedAlbums (mkTime 63906573600 0 None) (2 * Second)
    (mkTime 63906573601 0 None) = true.
Proof.
  apply (fresh_for_longer_ttl _ Second); [unfold Second; lia | reflexivity].
Defined.

End FreshnessOrder.

Module StateSafety.
Import Go Slice FS State StateDoubles GoJSONFacts StateFacts.
Local Open Scope string_scope.

Lemma markAll_store calls : forall fs s,
  path (store (markAll calls fs s).2) = path s /\
  set (store (markAll calls fs s).2) = list_to_set (names calls) ∪ set s.
Proof.
  induction calls as [|[os x] calls IH]; intros fs s.
  - simpl. split; [done |]. set_solver.
  - simpl. destruct (markAll calls _ _) as [errs final] eqn:Hrest. simpl.
    specialize (IH (files (MarkCompleted os fs s x)) (store (MarkCompleted os fs s x))).
    rewrite Hrest in IH. simpl in IH. destruct IH as [Hp Hs].
    destruct (MarkCompleted_store os fs s x) as [Hp1 Hs1].
    rewrite Hp, Hp1, Hs, Hs1. split; [done |]. set_solver.
Qed.

(** A store built by NewStore from a state file that holds json.Marshal of a
    list of names knows exactly those names, each with U+FFFD in place of
    every byte that is not valid UTF-8: exactly the names, when they are all
    valid UTF-8. *)
Theorem new_store_reads_the_file (fs : Files) (p : string) (written : list string) :
  fs !! p = Some (GoJSON.compact (GoJSON.JArray (map GoJSON.JString written))) ->
  exists s,
    NewStore fs None p = inr s /\
    (forall x, IsCompleted s x = true <-> x ∈ GoJSON.coerced <$> written) /\
    (forallb GoJSON.ValidString written = true ->
     forall x, IsCompleted s x = true <-> x ∈ written).
Proof.
  intros Hfile. unfold NewStore, ReadFile. rewrite Hfile, UnmarshalStrings_Marshal.
  eexists. split; [done |].
  assert (Hknown : forall x,
            IsCompleted (mkStore p (list_to_set (elems (Some (map GoJSON.coerced written))))) x
            = true <-> x ∈ GoJSON.coerced <$> written).
  { intros x. unfold IsCompleted. cbn [set elems].
    by rewrite bool_decide_eq_true, elem_of_list_to_set. }
  split; [exact Hknown |].
  intros Hvalid x. rewrite Hknown.
  assert (Hsame : GoJSON.coerced <$> written = written).
  { clear -Hvalid. induction written as [|y l IH]; [done |].
    cbn [forallb] in Hvalid. apply andb_prop in Hvalid as [Hy Hl].
    cbn [fmap list_fmap]. rewrite coerced_ValidString by done. f_equal. by apply IH. }
  by rewrite Hsame.
Qed.

Lemma new_store_reads_the_file_witness :
  exists s,
    NewStore unsorted None statePath = inr s /\
    IsCompleted s "a" = true /\ IsCompleted s "b" = true /\ IsCompleted s "c" = false.
Proof.
  assert (Hfile : unsorted !! statePath
                  = Some (GoJSON.compact (GoJSON.JArray (map GoJSON.JString ["b"; "a"]))))
    by reflexivity.
  destruct (new_store_reads_the_file unsorted statePath ["b"; "a"] Hfile)
    as (s & Hs & _ & Hknown).
  assert (Hvalid : forallb GoJSON.ValidString ["b"; "a"] = true) by reflexivity.
  exists s. split; [exact Hs |].
  split; [apply (Hknown Hvalid); set_solver |].
  split; [apply (Hknown Hvalid); set_solver |].
  destruct (IsCompleted s "c") eqn:E; [| reflexivity].
  apply (Hknown Hvalid) in E. set_solver.
Defined.

(** Whatever the disk does, a sequence of MarkCompleted calls loses no name:
    every name the store knew and every name marked is known at the end, and
    the store keeps its path. *)
Theorem completed_names_never_lost (calls : list (Answers * string)) (fs : Files) (s : Store) :
  path (store (markAll calls fs s).2) = path s /\
  (forall x, IsCompleted s x = true -> IsCompleted (store (markAll calls fs s).2) x = true) /\
  (forall x, x ∈ names calls -> IsCompleted (store (markAll calls fs s).2) x = true).
Proof.
  destruct (markAll_store calls fs s) as [Hp Hs].
  split; [done |]. unfold IsCompleted. rewrite Hs.
  split; intros x Hx; apply bool_decide_eq_true; [apply bool_decide_eq_true in Hx |];
    set_solver.
Qed.

Lemma MarkCompleted_elsewhere os fs s x q :
  q <> path s -> q <> tempName (path s) (random os) ->
  files (MarkCompleted os fs s x) !! q = fs !! q.
Proof.
  intros Hq Htmp. unfold MarkCompleted. case_bool_decide; [done |].
  cbn [GoJSON.MarshalStrings GoJSON.of_slice path set].
  destruct (mkdirAll os); [done |]. destruct (createTemp os); [done |].
  destruct (write os); simpl.
  { rewrite cleanup_other by done. by rewrite lookup_insert_ne. }
  destruct (close os); simpl.
  { rewrite cleanup_other by done. by rewrite !lookup_insert_ne. }
  destruct (rename os); simpl.
  { rewrite cleanup_other by done. by rewrite !lookup_insert_ne. }
  rewrite lookup_insert_ne by done. rewrite lookup_delete_ne by done.
  by rewrite !lookup_insert_ne.
Qed.

Lemma cleanup_removed fs tmp : cleanup fs tmp None !! tmp = None.
Proof. simpl. apply lookup_delete_eq. Qed.

Lemma MarkCompleted_temp os fs s x :
  err (MarkCompleted os fs s x) = None \/ leftover os = None ->
  fs !! tempName (path s) (random os) = None ->
  files (MarkCompleted os fs s x) !! tempName (path s) (random os) = None.
Proof.
  intros Hclean Hfresh. unfold MarkCompleted in *. case_bool_decide; [done |].
  pose proof (tempName_fresh (path s) (random os)) as Hne.
  cbn [GoJSON.MarshalStrings GoJSON.of_slice path set] in *.
  destruct (mkdirAll os); [done |]. destruct (createTemp os); [done |].
  assert (Hleft : forall e : error, Some e = None \/ leftover os = None -> leftover os = None).
  { intros e [H' | H']; [done | exact H']. }
  destruct (write os); simpl in *.
  { rewrite (Hleft _ Hclean). apply cleanup_removed. }
  destruct (close os); simpl in *.
  { rewrite (Hleft _ Hclean). apply cleanup_removed. }
  destruct (rename os); simpl in *.
  { rewrite (Hleft _ Hclean). apply cleanup_removed. }
  rewrite lookup_insert_ne by done. apply lookup_delete_eq.
Qed.

(** MarkCompleted replaces the state file in one step: after the call the
    file is what it was or the full encoding of the set, the latter whenever a
    new name was recorded without error; every file other than the state file
    and the temporary one is untouched; and no temporary file stays behind
    unless the call failed and the cleanup failed too. *)
Theorem state_file_replaced_atomically (os : Answers) (fs : Files) (s : Store) (x : string) :
  let m := MarkCompleted os fs s x in
  (files m !! path s = fs !! path s \/
   files m !! path s = Some (encoded (set (store m)))) /\
  (err m = None -> x ∉ set s -> files m !! path s = Some (encoded (set (store m)))) /\
  (forall q, q <> path s -> q <> tempName (path s) (random os) -> files m !! q = fs !! q) /\
  (err m = None \/ leftover os = None ->
   fs !! tempName (path s) (random os) = None ->
   files m !! tempName (path s) (random os) = None).
Proof.
  intros m. subst m.
  pose proof (MarkCompleted_file os fs s x) as Hfile.
  destruct (MarkCompleted_store os fs s x) as [_ Hset].
  unfold encoded. rewrite Hset.
  split; [| split; [| split]].
  - rewrite Hfile. case_bool_decide; [by left |].
    destruct (err (MarkCompleted os fs s x)); [by left | by right].
  - intros Herr Hnew. rewrite Hfile, Herr. by rewrite bool_decide_eq_false_2.
  - intros q. apply MarkCompleted_elsewhere.
  - apply MarkCompleted_temp.
Qed.

(** A name whose persistence failed reaches the disk with the next new name
    that is persisted: the file then holds both. *)
Theorem later_success_persists_earlier_name os1 os2 fs s x y e :
  err (MarkCompleted os1 fs s x) = Some e ->
  y ∉ set (store (MarkCompleted os1 fs s x)) ->
  err (MarkCompleted os2 (files (MarkCompleted os1 fs s x))
         (store (MarkCompleted os1 fs s x)) y) = None ->
  files (MarkCompleted os2 (files (MarkCompleted os1 fs s x))
           (store (MarkCompleted os1 fs s x)) y) !! path s
  = Some (encoded ({[y]} ∪ ({[x]} ∪ set s))) /\
  x ∈ sortedNames ({[y]} ∪ ({[x]} ∪ set s)).
Proof.
  intros Hfail Hnew Hok.
  destruct (MarkCompleted_store os1 fs s x) as [Hp Hs].
  pose proof (MarkCompleted_file os2 (files (MarkCompleted os1 fs s x))
                (store (MarkCompleted os1 fs s x)) y) as Hfile.
  rewrite Hp, Hok, Hs in Hfile. rewrite bool_decide_eq_false_2 in Hfile by (by rewrite <- Hs).
  split; [exact Hfile |]. apply elem_of_sortedNames. set_solver.
Qed.

Lemma later_success_persists_earlier_name_witness :
  files (MarkCompleted (healthy "2") (files alphaUnsaved) (store alphaUnsaved) "beta")
    !! statePath
  = Some ("[" ++ quoted "alpha" ++ "," ++ quoted "beta" ++ "]").
Proof.
  assert (H0 : err (MarkCompleted (renameFails "1") ∅ emptyStore "alpha")
               = Some (wrapError "atomic replace state file: "
                         (errorString "rename: no space left on device")))
    by (vm_compute; reflexivity).
  assert (H1 : "beta" ∉ set (store (MarkCompleted (renameFails "1") ∅ emptyStore "alpha"))).
  { apply (bool_decide_unpack _). vm_compute. exact I. }
  assert (H2 : err (MarkCompleted (healthy "2")
                      (files (MarkCompleted (renameFails "1") ∅ emptyStore "alpha"))
                      (store (MarkCompleted (renameFails "1") ∅ emptyStore "alpha")) "beta")
               = None) by (vm_compute; reflexivity).
  destruct (later_success_persists_earlier_name _ _ _ _ _ _ _ H0 H1 H2) as [Hfile _].
  unfold alphaUnsaved. etransitivity; [exact Hfile |]. vm_compute. reflexivity.
Defined.

End StateSafety.

Module CatalogSafety.
Import Go Slice GoTime FS Model Catalog CatalogDoubles StateDoubles StateFacts CatalogFacts.
Local Open Scope string_scope.

Lemma Load_ext fs fs' fault c :
  fs !! path c = fs' !! path c -> Load fs fault c = Load fs' fault c.
Proof. intros H. unfold Load, ReadFile. by rewrite H. Qed.

(** A Save that fails leaves the cache as Load sees it: what was cached before
    is still there, and a cache that did not exist still does not (Load
    returns os.ErrNotExist itself, which os.IsNotExist recognises). *)
Theorem failed_save_keeps_cache now os fs c albums e :
  (Save now os fs c albums).1 = Some e ->
  (forall fault, Load (Save now os fs c albums).2 fault c = Load fs fault c) /\
  (fs !! path c = None ->
   Load (Save now os fs c albums).2 None c = inl ErrNotExist /\
   IsNotExist ErrNotExist = true).
Proof.
  intros Hfail.
  assert (Hsame : (Save now os fs c albums).2 !! path c = fs !! path c).
  { rewrite Save_file. by rewrite Hfail. }
  split.
  - intros fault. by apply Load_ext.
  - intros Hnone. split; [| done].
    rewrite (Load_ext _ fs) by done. unfold Load, ReadFile. by rewrite Hnone.
Qed.

Lemma failed_save_keeps_cache_witness :
  Load (Save clock (renameFails "9") ∅ cachePath alphaBeta).2 None cachePath
  = inl ErrNotExist.
Proof.
  assert (H0 : (Save clock (renameFails "9") ∅ cachePath alphaBeta).1
               = Some (wrapError "atomic replace album cache file: "
                         (errorString "rename: no space left on device")))
    by (vm_compute; reflexivity).
  destruct (failed_save_keeps_cache _ _ _ _ _ _ H0) as [_ H].
  apply H. reflexivity.
Defined.

End CatalogSafety.

Module ReportsFacts.
Import Go GoTime Download DownloadDoubles Reports ReportsDoubles DownloadFacts.
Local Open Scope Z_scope.

Ltac copy_cases tk :=
  destruct (0 <? read_n tk);
    [ destruct (write_err tk);
        [| destruct (negb (write_n tk =? read_n tk)) ] |].

(** The loop with clock readings is the loop: forgetting the readings gives
    what [copyLoop] returns. *)
Lemma copyLoopAt_erase tb p script : forall bw lp ups dl,
  erase <$> copyLoopAt tb p script bw lp ups dl
  = copyLoop tb p script bw lp (map update ups) dl.
Proof.
  induction script as [|tk rest IH]; intros bw lp ups dl; [done |].
  cbn [copyLoopAt copyLoop].
  assert (Hend : forall bw' lp' (ups' : list Stamped) dl',
    erase <$>
      match read_err tk with
      | Some EOF =>
          Some (mkCopiedAt bw' None
                  (if p then ups' ++ [mkStamped None (ProgressUpdate.mk bw' tb)] else ups') dl')
      | Some readErr => Some (mkCopiedAt bw' (Some readErr) ups' dl')
      | None => copyLoopAt tb p rest bw' lp' ups' dl'
      end
    = match read_err tk with
      | Some EOF =>
          Some (mkCopied bw' None
                  (if p then map update ups' ++ [ProgressUpdate.mk bw' tb]
                   else map update ups') dl')
      | Some readErr => Some (mkCopied bw' (Some readErr) (map update ups') dl')
      | None => copyLoop tb p rest bw' lp' (map update ups') dl'
      end).
  { intros bw' lp' ups' dl'. destruct (read_err tk) as [[]|]; try done.
    cbn. unfold erase. cbn. destruct p; [by rewrite map_app | done]. }
  copy_cases tk; try done; try apply Hend.
  destruct p; [| apply Hend].
  destruct (IsZero lp || (700 * Millisecond <=? Sub (Download.clock tk) lp)); [| apply Hend].
  rewrite Hend. by rewrite map_app.
Qed.

Definition latest (l : option Time) (ts : list Time) : option Time :=
  match last ts with
  | Some t => Some t
  | None => l
  end.

Lemma latest_snoc l ts t : latest l (ts ++ [t]) = Some t.
Proof. unfold latest. by rewrite last_snoc. Qed.

Lemma spaced_snoc ts : forall l t,
  spaced l ts ->
  match latest l ts with Some p => 700 * Millisecond <= Sub t p | None => True end ->
  spaced l (ts ++ [t]).
Proof.
  induction ts as [|x ts IH]; intros l t Hs Hlast.
  - simpl in *. split; [| done]. by destruct l.
  - destruct Hs as [Hx Hs]. split; [done |]. apply IH; [done |].
    unfold latest in *. destruct ts as [|y ts]; [done |].
    rewrite last_cons in Hlast. by destruct (last (y :: ts)).
Qed.

Lemma readings_snoc ups s : readings (ups ++ [s]) = readings ups ++ from_option (fun t => [t]) [] (at_ s).
Proof. unfold readings. rewrite omap_app. simpl. by destruct (at_ s). Qed.

(** While the loop runs, the reports made so far are spaced, each has its
    reading, and [lastProgress] is the reading of the latest of them (the zero
    time before the first). *)
Definition steady (lp : Time) (ups : list Stamped) : Prop :=
  spaced None (readings ups) /\
  (if IsZero lp then readings ups = [] else latest None (readings ups) = Some lp) /\
  length ups = length (readings ups).

Lemma copyLoopAt_spaced tb script : forall bw lp ups dl c,
  Forall (fun tk => IsZero (Download.clock tk) = false) script ->
  copyLoopAt tb true script bw lp ups dl = Some c ->
  steady lp ups ->
  spaced None (readings (stamped c)) /\
  (length (readings (stamped c)) <= length (stamped c) <= S (length (readings (stamped c))))%nat.
Proof.
  induction script as [|tk rest IH]; intros bw lp ups dl c Hclock Hrun Hsteady; [done |].
  apply Forall_cons in Hclock as [Hnz Hclock].
  cbn [copyLoopAt] in Hrun.
  assert (Hstop : forall bw' e dl',
    Some (mkCopiedAt bw' e ups dl') = Some c ->
    spaced None (readings (stamped c)) /\
    (length (readings (stamped c)) <= length (stamped c)
     <= S (length (readings (stamped c))))%nat).
  { intros bw' e dl' [= <-]. destruct Hsteady as (Hs & _ & Hlen). cbn [stamped]. split; [done | lia]. }
  assert (Hend : forall bw' lp' (ups' : list Stamped) dl',
    steady lp' ups' ->
    match read_err tk with
    | Some EOF =>
        Some (mkCopiedAt bw' None (ups' ++ [mkStamped None (ProgressUpdate.mk bw' tb)]) dl')
    | Some readErr => Some (mkCopiedAt bw' (Some readErr) ups' dl')
    | None => copyLoopAt tb true rest bw' lp' ups' dl'
    end = Some c ->
    spaced None (readings (stamped c)) /\
    (length (readings (stamped c)) <= length (stamped c)
     <= S (length (readings (stamped c))))%nat).
  { intros bw' lp' ups' dl' Hst H.
    destruct (read_err tk) as [readErr|]; [| by eapply IH].
    destruct Hst as (Hs & _ & Hlen).
    destruct readErr; injection H as <-; cbn [stamped]; try (split; [done | lia]).
    rewrite readings_snoc. cbn [at_ from_option]. rewrite app_nil_r, length_app.
    cbn [length]. split; [done | lia]. }
  copy_cases tk; try (by eapply Hstop); try (by eapply Hend).
  destruct (IsZero lp || (700 * Millisecond <=? Sub (Download.clock tk) lp)) eqn:Htest;
    [| by eapply Hend].
  eapply Hend; [| exact Hrun].
  destruct Hsteady as (Hs & Hlp & Hlen). unfold steady.
  rewrite readings_snoc, !length_app. cbn [at_ from_option length].
  rewrite Hnz, latest_snoc. split; [| split; [done | lia]].
  apply spaced_snoc; [done |].
  destruct (IsZero lp); [by rewrite Hlp |]. rewrite Hlp.
  simpl in Htest. by apply Z.leb_le.
Qed.

Lemma sorted_snoc (l : list Z) (x : Z) :
  Sorted Z.le l -> Forall (fun y => y <= x) l -> Sorted Z.le (l ++ [x]).
Proof.
  induction l as [|a l IH]; intros Hs Hall; simpl; [by repeat constructor |].
  apply Sorted_inv in Hs as [Hs Hhd]. apply Forall_cons in Hall as [Ha Hall].
  constructor; [by apply IH |].
  destruct l as [|b l]; simpl; constructor; [done |]. by apply HdRel_inv in Hhd.
Qed.

Definition counted (tb dl : Z) (ups : list ProgressUpdate.t) : Prop :=
  Sorted Z.le (map ProgressUpdate.BytesWritten ups) /\
  Forall (fun u => 0 <= ProgressUpdate.BytesWritten u <= dl /\ ProgressUpdate.TotalBytes u = tb)
    ups.

Lemma counted_grow tb dl dl' ups : dl <= dl' -> counted tb dl ups -> counted tb dl' ups.
Proof.
  intros Hle [Hs Hall]. split; [done |]. eapply Forall_impl; [exact Hall |].
  intros u [? ?]. split; [lia | done].
Qed.

Lemma counted_snoc tb dl ups :
  0 <= dl -> counted tb dl ups -> counted tb dl (ups ++ [ProgressUpdate.mk dl tb]).
Proof.
  intros Hpos [Hs Hall]. split.
  - rewrite map_app. apply sorted_snoc; [done |].
    apply Forall_map. eapply Forall_impl; [exact Hall |]. intros u [? _]. simpl. lia.
  - apply Forall_app. split; [done |]. constructor; [| done]. simpl. split; [lia | done].
Qed.

(** Below 2^63 bytes the counter is the number of bytes delivered, and the
    reports carry counts that never decrease and never exceed it. *)
Lemma copyLoop_counted tb p script : forall bw lp ups dl c,
  copyLoop tb p script bw lp ups dl = Some c ->
  bw = dl -> 0 <= dl -> delivered c <= maxInt64 -> counted tb dl ups ->
  counted tb (delivered c) (updates c) /\ bytesWritten c = delivered c.
Proof.
  induction script as [|tk rest IH]; intros bw lp ups dl c Hrun -> Hpos Hmax Hups; [done |].
  pose proof (copyLoop_delivered _ _ _ _ _ _ _ _ Hrun) as Hdl.
  cbn [copyLoop] in Hrun.
  set (dl' := if 0 <? write_n tk then dl + write_n tk else dl) in *.
  assert (Hdl' : dl <= dl') by (unfold dl'; destruct (Z.ltb_spec 0 (write_n tk)); lia).
  assert (Hbw : (if 0 <? write_n tk then add64 dl (write_n tk) else dl) = dl' ->
                True) by done.
  assert (Hstop : forall e (l : list ProgressUpdate.t) d,
    Some (mkCopied d e l d) = Some c -> counted tb d l ->
    counted tb (delivered c) (updates c) /\ bytesWritten c = delivered c).
  { intros e l d [= <-] Hl. done. }
  assert (Hend : forall d lp' (l : list ProgressUpdate.t),
    dl <= d -> counted tb d l ->
    match read_err tk with
    | Some EOF =>
        Some (mkCopied d None (if p then l ++ [ProgressUpdate.mk d tb] else l) d)
    | Some readErr => Some (mkCopied d (Some readErr) l d)
    | None => copyLoop tb p rest d lp' l d
    end = Some c ->
    counted tb (delivered c) (updates c) /\ bytesWritten c = delivered c).
  { intros d lp' l Hd Hl H.
    destruct (read_err tk) as [readErr|].
    - destruct readErr; injection H as <-; cbn; try done.
      split; [| done]. destruct p; [| done]. apply counted_snoc; [lia | done].
    - eapply IH; [exact H | done | lia | done | done]. }
  destruct (0 <? read_n tk); [| eapply Hend; [| | exact Hrun]; [lia | done]].
  assert (Hexact : delivered c <= maxInt64 -> dl' <= delivered c ->
            (if 0 <? write_n tk then add64 dl (write_n tk) else dl) = dl').
  { intros _ Hle. unfold dl'. destruct (0 <? write_n tk); [| done].
    unfold add64. apply wrap64_exact. unfold minInt64, maxInt64 in *. lia. }
  assert (Hle : dl' <= delivered c).
  { destruct (write_err tk); [by injection Hrun as <- |].
    destruct (negb (write_n tk =? read_n tk)); [by injection Hrun as <- |].
    assert (forall bw' lp' l,
      match read_err tk with
      | Some EOF =>
          Some (mkCopied bw' None (if p then l ++ [ProgressUpdate.mk bw' tb] else l) dl')
      | Some readErr => Some (mkCopied bw' (Some readErr) l dl')
      | None => copyLoop tb p rest bw' lp' l dl'
      end = Some c -> dl' <= delivered c) as Hgo.
    { intros bw' lp' l H. destruct (read_err tk) as [readErr|].
      - destruct readErr; by injection H as <-.
      - by apply copyLoop_delivered in H. }
    destruct p; [| by eapply Hgo].
    destruct (IsZero lp || _); by eapply Hgo. }
  rewrite (Hexact Hmax Hle) in Hrun.
  pose proof (counted_grow tb dl dl' ups Hdl' Hups) as Hups'.
  destruct (write_err tk); [by eapply Hstop |].
  destruct (negb (write_n tk =? read_n tk)); [by eapply Hstop |].
  destruct p; [| eapply Hend; [| | exact Hrun]; [lia | done]].
  destruct (IsZero lp || _); [| eapply Hend; [| | exact Hrun]; [lia | done]].
  eapply Hend; [| | exact Hrun]; [done |]. apply counted_snoc; [lia | done].
Qed.

(** The callback has no effect on the copy. *)
Lemma copyLoop_callback tb script : forall bw lp lp' ups dl,
  match copyLoop tb false script bw lp [] dl, copyLoop tb true script bw lp' ups dl with
  | Some quiet, Some loud =>
      bytesWritten quiet = bytesWritten loud /\ copy_err quiet = copy_err loud /\
      delivered quiet = delivered loud /\ updates quiet = []
  | None, None => True
  | _, _ => False
  end.
Proof.
  induction script as [|tk rest IH]; intros bw lp lp' ups dl; [done |].
  cbn [copyLoop].
  assert (Hend : forall bw' l1 l1' (l2 : list ProgressUpdate.t) dl',
    match
      match read_err tk with
      | Some EOF => Some (mkCopied bw' None [] dl')
      | Some readErr => Some (mkCopied bw' (Some readErr) [] dl')
      | None => copyLoop tb false rest bw' l1 [] dl'
      end,
      match read_err tk with
      | Some EOF => Some (mkCopied bw' None (l2 ++ [ProgressUpdate.mk bw' tb]) dl')
      | Some readErr => Some (mkCopied bw' (Some readErr) l2 dl')
      | None => copyLoop tb true rest bw' l1' l2 dl'
      end
    with
    | Some quiet, Some loud =>
        bytesWritten quiet = bytesWritten loud /\ copy_err quiet = copy_err loud /\
        delivered quiet = delivered loud /\ updates quiet = []
    | None, None => True
    | _, _ => False
    end).
  { intros bw' l1 l1' l2 dl'. destruct (read_err tk) as [[]|]; try done. apply IH. }
  copy_cases tk; try done; try apply Hend.
  destruct (IsZero lp' || _); apply Hend.
Qed.

Lemma copyLoop_ends tb p script : forall bw lp ups dl,
  ends script -> exists c, copyLoop tb p script bw lp ups dl = Some c.
Proof.
  induction script as [|tk rest IH]; intros bw lp ups dl Hends.
  { by apply Exists_nil in Hends. }
  cbn [copyLoop].
  assert (Hend : forall bw' lp' (l : list ProgressUpdate.t) dl',
    exists c,
      match read_err tk with
      | Some EOF =>
          Some (mkCopied bw' None (if p then l ++ [ProgressUpdate.mk bw' tb] else l) dl')
      | Some readErr => Some (mkCopied bw' (Some readErr) l dl')
      | None => copyLoop tb p rest bw' lp' l dl'
      end = Some c).
  { intros bw' lp' l dl'. destruct (read_err tk) as [readErr|] eqn:Hread.
    - destruct readErr; by eexists.
    - apply IH. apply Exists_cons in Hends as [H | H]; [done | exact H]. }
  copy_cases tk; try (by eexists); try apply Hend.
  destruct p; [| apply Hend].
  destruct (IsZero lp || _); apply Hend.
Qed.

Lemma copyLoop_success tb p script : forall bw lp ups dl c,
  copyLoop tb p script bw lp ups dl = Some c -> copy_err c = None ->
  Exists (fun tk => read_err tk = Some EOF) script.
Proof.
  induction script as [|tk rest IH]; intros bw lp ups dl c Hrun Hok; [done |].
  cbn [copyLoop] in Hrun.
  assert (Hend : forall bw' lp' (l : list ProgressUpdate.t) dl',
    match read_err tk with
    | Some EOF =>
        Some (mkCopied bw' None (if p then l ++ [ProgressUpdate.mk bw' tb] else l) dl')
    | Some readErr => Some (mkCopied bw' (Some readErr) l dl')
    | None => copyLoop tb p rest bw' lp' l dl'
    end = Some c -> Exists (fun tk => read_err tk = Some EOF) (tk :: rest)).
  { intros bw' lp' l dl' H. destruct (read_err tk) as [readErr|] eqn:Hread.
    - destruct readErr; injection H as <-; try done. by left.
    - right. by eapply IH. }
  copy_cases tk; try (by injection Hrun as <-); try (by eapply Hend).
  destruct p; [| by eapply Hend].
  destruct (IsZero lp || _); by eapply Hend.
Qed.

(** The reports made inside the loop are at least 700ms apart by the clock
    readings they were made at, provided no reading is the zero time; the
    only other report is the one at the end of the stream. *)
Theorem progress_reports_throttled tb script c :
  Forall (fun tk => IsZero (Download.clock tk) = false) script ->
  copyLoopAt tb true script 0 zeroTime [] 0 = Some c ->
  copyWithProgress tb true script = Some (erase c) /\
  spaced None (readings (stamped c)) /\
  (length (readings (stamped c)) <= length (updates (erase c))
   <= S (length (readings (stamped c))))%nat.
Proof.
  intros Hclock Hrun. split.
  - unfold copyWithProgress.
    pose proof (copyLoopAt_erase tb true script 0 zeroTime [] 0) as H.
    rewrite Hrun in H. symmetry. exact H.
  - cbn [erase updates]. rewrite length_map.
    apply (copyLoopAt_spaced tb script 0 zeroTime [] 0 c Hclock Hrun).
    split; [done |]. split; done.
Qed.

Lemma progress_reports_throttled_witness :
  exists c,
    copyLoopAt 9 true slow 0 zeroTime [] 0 = Some c /\
    readings (stamped c) = [at_ms 0; at_ms 900] /\
    spaced None (readings (stamped c)) /\
    map update (stamped c)
    = [ProgressUpdate.mk 3 9; ProgressUpdate.mk 9 9; ProgressUpdate.mk 9 9].
Proof.
  destruct (copyLoopAt 9 true slow 0 zeroTime [] 0) as [c|] eqn:Hrun;
    [| vm_compute in Hrun; discriminate Hrun].
  exists c. split; [done |].
  assert (Hclock : Forall (fun tk => IsZero (Download.clock tk) = false) slow)
    by (repeat constructor).
  destruct (progress_reports_throttled 9 slow c Hclock Hrun) as (_ & Hspaced & _).
  vm_compute in Hrun. injection Hrun as <-.
  split; [reflexivity |]. split; [exact Hspaced | reflexivity].
Defined.

(** DownloadToFile makes the transfer DownloadToFileWithProgress makes with a
    callback: the same error, the same content type; and without a callback
    nothing is reported. *)
Theorem transfer_ignores_callback env url dstPath :
  match DownloadToFile env url dstPath, DownloadToFileWithProgress env url dstPath true with
  | Some (contentType, err), Some tr =>
      err = transfer_err tr /\
      contentType = FileDownloadResult.ContentType (outcome tr) /\
      forall quiet, DownloadToFileWithProgress env url dstPath false = Some quiet ->
        reported quiet = [] /\ on_disk quiet = on_disk tr /\
        FileDownloadResult.BytesWritten (outcome quiet)
        = FileDownloadResult.BytesWritten (outcome tr)
  | None, None => True
  | _, _ => False
  end.
Proof.
  unfold DownloadToFile, DownloadToFileWithProgress, failed.
  destruct (newRequest env); [cbn; split; [done |]; split; [done |]; by intros ? [= <-] |].
  destruct (doRequest env) as [e | resp];
    [cbn; split; [done |]; split; [done |]; by intros ? [= <-] |].
  destruct ((StatusCode resp <? 200) || (300 <=? StatusCode resp));
    [cbn; split; [done |]; split; [done |]; by intros ? [= <-] |].
  destruct (mkdirAll env); [cbn; split; [done |]; split; [done |]; by intros ? [= <-] |].
  destruct (create env); [cbn; split; [done |]; split; [done |]; by intros ? [= <-] |].
  set (tb := if ContentLength resp <=? 0 then -1 else ContentLength resp).
  pose proof (copyLoop_callback tb (Body resp) 0 zeroTime zeroTime [] 0) as H.
  unfold copyWithProgress.
  destruct (copyLoop tb false (Body resp) 0 zeroTime [] 0) as [quiet|],
           (copyLoop tb true (Body resp) 0 zeroTime [] 0) as [loud|]; try done.
  destruct H as (Hbw & Herr & Hdl & Hups). rewrite <- Herr.
  destruct (copy_err quiet); cbn.
  - split; [done |]. split; [done |]. intros ? [= <-]. cbn. by rewrite Hups, Hdl.
  - split; [done |]. split; [done |]. intros ? [= <-]. cbn. by rewrite Hups, Hdl, Hbw.
Qed.

(** The copy returns as soon as a read reports an error, io.EOF included, so
    it returns whenever the stream ends; and it returns nil only when a read
    has reported io.EOF. *)
Theorem copy_returns_when_stream_ends tb p script :
  (ends script -> exists c, copyWithProgress tb p script = Some c) /\
  (forall c, copyWithProgress tb p script = Some c -> copy_err c = None ->
     Exists (fun tk => read_err tk = Some EOF) script).
Proof.
  split.
  - apply copyLoop_ends.
  - intros c. apply copyLoop_success.
Qed.

(** For a copy of at most 2^63-1 bytes, the byte counts handed to the
    callback never decrease, lie between 0 and the number of bytes delivered,
    and always come with the same total; the returned count is the number of
    bytes delivered, whether the copy failed or not. *)
Theorem progress_counts_ascend tb p script c :
  copyWithProgress tb p script = Some c -> delivered c <= maxInt64 ->
  ascending (updates c) /\
  Forall (fun u => 0 <= ProgressUpdate.BytesWritten u <= delivered c /\
                   ProgressUpdate.TotalBytes u = tb) (updates c) /\
  bytesWritten c = delivered c.
Proof.
  intros Hrun Hmax. unfold copyWithProgress in Hrun.
  destruct (copyLoop_counted tb p script 0 zeroTime [] 0 c Hrun eq_refl ltac:(lia) Hmax)
    as [[Hsorted Hall] Hbw]; [| done].
  split; constructor.
Qed.

Lemma progress_counts_ascend_witness :
  exists c,
    copyWithProgress 9 true slow = Some c /\
    map ProgressUpdate.BytesWritten (updates c) = [3; 9; 9] /\
    ascending (updates c) /\ bytesWritten c = 9.
Proof.
  destruct (copyWithProgress 9 true slow) as [c|] eqn:Hrun;
    [| vm_compute in Hrun; discriminate Hrun].
  exists c. split; [done |].
  assert (Hmax : delivered c <= maxInt64).
  { vm_compute in Hrun. injection Hrun as <-. vm_compute. discriminate. }
  destruct (progress_counts_ascend 9 true slow c Hrun Hmax) as (Hsorted & _ & Hbw).
  vm_compute in Hrun. injection Hrun as <-.
  split; [reflexivity |]. split; [exact Hsorted | reflexivity].
Defined.

End ReportsFacts.

Module NamesFacts.
Import Names.
Local Open Scope string_scope.

Lemma replace_byte_spec c :
  (unsafe c /\ replace_byte replacer c = "_"%char) \/
  (~ unsafe c /\ replace_byte replacer c = c).
Proof.
  unfold replace_byte, unsafe, replacer. cbn [find map fst snd].
  repeat match goal with
         | |- context [Ascii.eqb ?a c] =>
             destruct (Ascii.eqb_spec a c) as [E | ?];
               [subst c; left; split;
                  [cbn [In]; repeat (first [left; reflexivity | right]) | reflexivity] |]
         end.
  right. split; [| reflexivity]. cbn [In]. intuition congruence.
Qed.

Lemma underscore_safe : ~ unsafe "_"%char.
Proof. unfold unsafe. simpl. intuition discriminate. Qed.

Lemma replace_byte_safe c : ~ unsafe (replace_byte replacer c).
Proof.
  destruct (replace_byte_spec c) as [[_ ->] | [H ->]]; [apply underscore_safe | exact H].
Qed.

(** The name MakeValid returns is as long as the one it was given and holds
    none of the bytes it replaces: no path separator, no blank. *)
Theorem MakeValid_safe (name : string) :
  String.length (MakeValid name) = String.length name /\
  Forall (fun c => ~ unsafe c) (list_ascii_of_string (MakeValid name)).
Proof.
  unfold MakeValid. induction name as [|c name [IHlen IHsafe]]; simpl.
  - split; [reflexivity | constructor].
  - split; [by rewrite IHlen |]. constructor; [apply replace_byte_safe | exact IHsafe].
Qed.

(** MakeValid is idempotent, works on each part of a name separately, and
    leaves a name as it is exactly when the name holds no unsafe byte. *)
Theorem MakeValid_idempotent (name rest : string) :
  MakeValid (MakeValid name) = MakeValid name /\
  MakeValid (name ++ rest) = MakeValid name ++ MakeValid rest /\
  (MakeValid name = name <-> Forall (fun c => ~ unsafe c) (list_ascii_of_string name)).
Proof.
  unfold MakeValid. induction name as [|c name (IH1 & IH2 & IH3)]; simpl.
  - split; [reflexivity |]. split; [reflexivity |]. split; [constructor | reflexivity].
  - split; [| split].
    + rewrite IH1. f_equal.
      destruct (replace_byte_spec (replace_byte replacer c)) as [[H _] | [_ H]]; [| exact H].
      by apply replace_byte_safe in H.
    + by rewrite IH2.
    + split.
      * intros [= Hc Hname]. constructor; [| by apply IH3].
        rewrite <- Hc. apply replace_byte_safe.
      * intros [Hc Hname]%Forall_cons. f_equal; [| by apply IH3].
        destruct (replace_byte_spec c) as [[H _] | [_ H]]; [done | exact H].
Qed.

End NamesFacts.

Module SelectionFacts.
Import Go Model Selection SelectionDoubles.
Local Open Scope Z_scope.

#[local] Instance Z_le_total : Total Z.le.
Proof. intros a b. lia. Qed.

Lemma Sorted_le_lt (l : list Z) : Sorted Z.le l -> NoDup l -> Sorted Z.lt l.
Proof.
  intros Hs Hd. apply Sorted_StronglySorted in Hs; [| intros a b c; lia].
  induction Hs as [|a l Hs IH Hall]; [constructor |].
  apply NoDup_cons in Hd as [Ha Hd].
  constructor; [by apply IH |].
  destruct l as [|b l]; constructor.
  apply Forall_cons in Hall as [Hab _].
  assert (a <> b) by (intros ->; apply Ha; left). lia.
Qed.

Lemma sublist_full {A} (l k : list A) : sublist l k -> (length k <= length l)%nat -> l = k.
Proof.
  induction 1 as [|x l k _ IH|x l k Hsub _]; simpl; intros Hlen; [done | |].
  - f_equal. apply IH. lia.
  - apply sublist_length in Hsub. lia.
Qed.

Lemma range_test albums idx :
  (idx <? 0) || (Z.of_nat (length albums) <=? idx) = false <-> in_range albums idx.
Proof. unfold in_range. rewrite orb_false_iff, Z.ltb_ge, Z.leb_gt. lia. Qed.

Lemma in_range_lookup albums idx :
  in_range albums idx -> exists album, albums !! Z.to_nat idx = Some album.
Proof.
  intros H. apply lookup_lt_is_Some_2. unfold in_range in H. lia.
Qed.

(** The loop, started with [seen] and [selected]: it fails on the first index
    out of range and otherwise appends, in order, the album of each index that
    is neither in [seen] nor met before. *)
Lemma pickAlbums_spec albums indexes : forall seen selected,
  (Forall (in_range albums) indexes ->
   exists picked more,
     pickAlbums albums indexes seen selected = inr (selected ++ more) /\
     Forall2 (fun idx album => albums !! Z.to_nat idx = Some album) picked more /\
     NoDup picked /\ sublist picked indexes /\
     (forall idx, idx ∈ picked <-> idx ∈ indexes /\ idx ∉ seen)) /\
  (~ Forall (in_range albums) indexes ->
   exists idx, idx ∈ indexes /\ ~ in_range albums idx /\
     pickAlbums albums indexes seen selected
     = inl (errorString ("selected album index " ++ pretty idx ++ " out of bounds"))).
Proof.
  induction indexes as [|idx rest IH]; intros seen selected.
  { split.
    - intros _. exists [], []. simpl. rewrite app_nil_r.
      split; [done |]. split; [constructor |]. split; [constructor |].
      split; [constructor |]. intros idx. set_solver.
    - intros H. destruct H. constructor. }
  simpl. destruct ((idx <? 0) || (Z.of_nat (length albums) <=? idx)) eqn:Htest.
  { assert (Hout : ~ in_range albums idx).
    { intros H%range_test. congruence. }
    split.
    - intros [H _]%Forall_cons. done.
    - intros _. exists idx. split; [left |]. done. }
  apply range_test in Htest as Hin.
  case_bool_decide as Hseen.
  { destruct (IH seen selected) as [IHok IHbad]. split.
    - intros [_ Hrest]%Forall_cons.
      destruct (IHok Hrest) as (picked & more & Hrun & Hget & Hnd & Hsub & Hmem).
      exists picked, more. split; [done |]. split; [done |]. split; [done |].
      split; [by apply sublist_cons |].
      intros i. rewrite Hmem. set_solver.
    - intros Hbad.
      destruct IHbad as (i & Hi & Hout & Hrun).
      { intros H. apply Hbad. by constructor. }
      exists i. split; [by right |]. done. }
  destruct (in_range_lookup _ _ Hin) as [album Halbum]. rewrite Halbum.
  destruct (IH ({[idx]} ∪ seen) (selected ++ [album])) as [IHok IHbad]. split.
  - intros [_ Hrest]%Forall_cons.
    destruct (IHok Hrest) as (picked & more & Hrun & Hget & Hnd & Hsub & Hmem).
    exists (idx :: picked), (album :: more).
    split; [by rewrite Hrun, <- app_assoc |].
    split; [by constructor |].
    split; [apply NoDup_cons; split; [| done]; rewrite Hmem; set_solver |].
    split; [by apply sublist_skip |].
    intros i. rewrite elem_of_cons, Hmem, elem_of_cons.
    destruct (decide (i = idx)) as [-> | Hne]; set_solver.
  - intros Hbad.
    destruct IHbad as (i & Hi & Hout & Hrun).
    { intros H. apply Hbad. by constructor. }
    exists i. split; [by right |]. done.
Qed.

Lemma albumsFromIndexes_ok (albums : list Album) (indexes : list Z) :
  indexes <> [] -> Forall (in_range albums) indexes ->
  exists picked selected,
    albumsFromIndexes albums indexes = inr selected /\ selected <> [] /\
    Forall2 (fun idx album => albums !! Z.to_nat idx = Some album) picked selected /\
    NoDup picked /\ sublist picked indexes /\
    (forall idx, idx ∈ picked <-> idx ∈ indexes).
Proof.
  intros Hne Hall. unfold albumsFromIndexes.
  destruct indexes as [|idx rest]; [done |]. set (indexes := idx :: rest) in *.
  destruct (pickAlbums_spec albums indexes ∅ []) as [Hok _].
  destruct (Hok Hall) as (picked & more & Hrun & Hget & Hnd & Hsub & Hmem).
  rewrite Hrun. simpl.
  assert (idx ∈ picked) as Hidx by (apply Hmem; split; [left | set_solver]).
  destruct picked as [|p picked]; [by apply elem_of_nil in Hidx |].
  apply Forall2_cons_inv_l in Hget as (a & more' & Hp & Hget & ->).
  exists (p :: picked), (a :: more'). split; [done |]. split; [done |].
  split; [by constructor |]. split; [done |]. split; [done |].
  intros i. rewrite Hmem. set_solver.
Qed.

Lemma albumsFromIndexes_bad (albums : list Album) (indexes : list Z) :
  indexes = [] \/ ~ Forall (in_range albums) indexes ->
  exists err, albumsFromIndexes albums indexes = inl err /\ err <> indexPanic.
Proof.
  unfold albumsFromIndexes. destruct indexes as [|idx rest].
  { intros _. by eexists. }
  intros [? | Hbad]; [done |].
  destruct (pickAlbums_spec albums (idx :: rest) ∅ []) as [_ H].
  destruct (H Hbad) as (i & _ & _ & Hrun). rewrite Hrun. by eexists.
Qed.

Lemma picked_all (picked indexes : list Z) :
  NoDup indexes -> sublist picked indexes -> (forall idx, idx ∈ picked <-> idx ∈ indexes) ->
  picked = indexes.
Proof.
  intros Hnd Hsub Hmem. apply sublist_full; [done |].
  apply submseteq_length, NoDup_submseteq; [done |]. intros i. by rewrite Hmem.
Qed.

Lemma selected_indexes (selected : gset Z) :
  selectedIndexesFromSet selected ≡ₚ elements selected /\
  Sorted Z.le (selectedIndexesFromSet selected).
Proof.
  unfold selectedIndexesFromSet. split; [apply merge_sort_Permutation |].
  apply Sorted_merge_sort, _.
Qed.

(** The indexes come out strictly ascending, each selected index once and no
    other, in whatever order the map is ranged over. *)
Theorem selectedIndexesFromSet_sorted (selected : gset Z) :
  Sorted Z.lt (selectedIndexesFromSet selected) /\
  (forall idx, idx ∈ selectedIndexesFromSet selected <-> idx ∈ selected) /\
  (forall order, order ≡ₚ elements selected ->
     merge_sort Z.le order = selectedIndexesFromSet selected).
Proof.
  destruct (selected_indexes selected) as [Hperm Hsorted].
  split; [| split].
  - apply Sorted_le_lt; [done |]. rewrite Hperm. apply NoDup_elements.
  - intros idx. rewrite Hperm. apply elem_of_elements.
  - intros order Horder. apply (Sorted_unique Z.le); [apply Sorted_merge_sort, _ | done |].
    by rewrite merge_sort_Permutation, Hperm.
Qed.

(** albumsFromIndexes succeeds exactly for a selection that is not empty and
    names only albums of the list; the index expression albums[idx] is never
    reached with an index out of range. *)
Theorem albumsFromIndexes_succeeds (albums : list Album) (indexes : list Z) :
  ((exists selected, albumsFromIndexes albums indexes = inr selected) <->
   indexes <> [] /\ Forall (in_range albums) indexes) /\
  albumsFromIndexes albums indexes <> inl indexPanic.
Proof.
  destruct (decide (indexes = [])) as [Hnil | Hne].
  { destruct (albumsFromIndexes_bad albums indexes (or_introl Hnil)) as (err & -> & Herr).
    split; [| congruence]. split; [by intros [? ?] | by intros [? _]]. }
  destruct (decide (Forall (in_range albums) indexes)) as [Hall | Hsome].
  - destruct (albumsFromIndexes_ok albums indexes Hne Hall) as (? & selected & -> & _).
    split; [| done]. split; [done |]. intros _. by eexists.
  - destruct (albumsFromIndexes_bad albums indexes (or_intror Hsome)) as (err & -> & Herr).
    split; [| congruence]. split; [by intros [? ?] | by intros [_ ?]].
Qed.

(** What albumsFromIndexes returns: one album for each distinct index of the
    selection, in the order of the selection, never an empty list; for a
    selection without repetition, the album of each index in turn. *)
Theorem albumsFromIndexes_picks (albums : list Album) (indexes : list Z) selected :
  albumsFromIndexes albums indexes = inr selected ->
  selected <> [] /\
  (exists picked,
     Forall2 (fun idx album => albums !! Z.to_nat idx = Some album) picked selected /\
     NoDup picked /\ sublist picked indexes /\
     (forall idx, idx ∈ picked <-> idx ∈ indexes)) /\
  (NoDup indexes ->
   Forall2 (fun idx album => albums !! Z.to_nat idx = Some album) indexes selected).
Proof.
  intros Hrun.
  destruct (decide (indexes <> [] /\ Forall (in_range albums) indexes)) as [[Hne Hall] | Hbad].
  2:{ destruct (albumsFromIndexes_bad albums indexes) as (err & Herr & _); [| congruence].
      destruct (decide (indexes = [])); [by left | right]. intros H. by apply Hbad. }
  destruct (albumsFromIndexes_ok albums indexes Hne Hall)
    as (picked & selected' & Hrun' & Hsel & Hget & Hnd & Hsub & Hmem).
  rewrite Hrun in Hrun'. injection Hrun' as <-.
  split; [done |]. split; [by exists picked |].
  intros Hnodup. by rewrite <- (picked_all picked indexes).
Qed.

Lemma albumsFromIndexes_picks_witness :
  albumsFromIndexes firstSecondThird [0; 2; 0] = inr [first; third] /\
  exists picked,
    Forall2 (fun idx album => firstSecondThird !! Z.to_nat idx = Some album)
      picked [first; third] /\
    NoDup picked /\ sublist picked [0; 2; 0] /\
    (forall idx, idx ∈ picked <-> idx ∈ [0; 2; 0]).
Proof.
  assert (Hrun : albumsFromIndexes firstSecondThird [0; 2; 0] = inr [first; third])
    by (vm_compute; reflexivity).
  split; [exact Hrun |].
  exact (proj1 (proj2 (albumsFromIndexes_picks firstSecondThird [0; 2; 0] _ Hrun))).
Defined.

(** The picker's way out: the albums of a selection that is not empty and lies
    within the list come back in the order of the list, one for each selected
    index. *)
Theorem selection_in_list_order (albums : list Album) (selected : gset Z) :
  selected <> ∅ -> (forall idx, idx ∈ selected -> in_range albums idx) ->
  exists chosen,
    albumsFromIndexes albums (selectedIndexesFromSet selected) = inr chosen /\
    Forall2 (fun idx album => albums !! Z.to_nat idx = Some album)
      (selectedIndexesFromSet selected) chosen /\
    length chosen = size selected.
Proof.
  intros Hne Hrange.
  destruct (selected_indexes selected) as [Hperm _].
  assert (Hnd : NoDup (selectedIndexesFromSet selected))
    by (rewrite Hperm; apply NoDup_elements).
  destruct (albumsFromIndexes_ok albums (selectedIndexesFromSet selected))
    as (picked & chosen & Hrun & _ & Hget & Hpnd & Hsub & Hmem).
  - intros Hnil. apply Hne. apply set_eq. intros i.
    rewrite <- elem_of_elements, <- Hperm, Hnil. set_solver.
  - apply Forall_forall. intros i Hi. apply Hrange. rewrite Hperm in Hi.
    by apply elem_of_elements in Hi.
  - exists chosen. split; [done |].
    rewrite (picked_all _ _ Hnd Hsub Hmem) in Hget. split; [done |].
    apply Forall2_length in Hget. rewrite <- Hget. by rewrite Hperm.
Qed.

Lemma selection_in_list_order_witness :
  exists chosen,
    albumsFromIndexes firstSecondThird (selectedIndexesFromSet {[2; 0]}) = inr chosen /\
    Forall2 (fun idx album => firstSecondThird !! Z.to_nat idx = Some album)
      (selectedIndexesFromSet {[2; 0]}) chosen /\
    length chosen = size ({[2; 0]} : gset Z).
Proof.
  apply (selection_in_list_order firstSecondThird {[2; 0]}).
  - intros H. apply (f_equal (fun S : gset Z => bool_decide (0 ∈ S))) in H.
    vm_compute in H. discriminate H.
  - intros idx Hidx. unfold in_range. simpl.
    apply elem_of_union in Hidx as [->%elem_of_singleton | ->%elem_of_singleton]; lia.
Defined.

Lemma foldl_remove (filtered : list Z) : forall selected : gset Z,
  foldl (fun s idx => s ∖ {[idx]}) selected filtered = selected ∖ list_to_set filtered.
Proof.
  induction filtered as [|i l IH]; intros selected; simpl; [set_solver |].
  rewrite IH. set_solver.
Qed.

Lemma foldl_add (filtered : list Z) : forall selected : gset Z,
  foldl (fun s idx => {[idx]} ∪ s) selected filtered = list_to_set filtered ∪ selected.
Proof.
  induction filtered as [|i l IH]; intros selected; simpl; [set_solver |].
  rewrite IH. set_solver.
Qed.

Lemma all_selected (filtered : list Z) (selected : gset Z) :
  forallb (fun idx => bool_decide (idx ∈ selected)) filtered = true
  <-> forall idx, idx ∈ filtered -> idx ∈ selected.
Proof.
  rewrite forallb_forall. split.
  - intros H idx Hin. apply list_elem_of_In in Hin. apply H in Hin.
    by apply bool_decide_eq_true in Hin.
  - intros H idx Hin. apply bool_decide_eq_true, H. by apply list_elem_of_In.
Qed.

Lemma toggleSelectAllFiltered_eq (filtered : list Z) (selected : gset Z) :
  toggleSelectAllFiltered filtered selected =
  if forallb (fun idx => bool_decide (idx ∈ selected)) filtered
  then selected ∖ list_to_set filtered
  else list_to_set filtered ∪ selected.
Proof.
  unfold toggleSelectAllFiltered. destruct filtered as [|i l]; [simpl; set_solver |].
  by rewrite foldl_remove, foldl_add.
Qed.

(** Toggling one index twice gives the selection back; toggling it once
    changes that index and no other. *)
Theorem toggleSelection_involutive (selected : gset Z) (idx : Z) :
  toggleSelection (toggleSelection selected idx) idx = selected /\
  (idx ∈ toggleSelection selected idx <-> idx ∉ selected) /\
  (forall other, other <> idx ->
     (other ∈ toggleSelection selected idx <-> other ∈ selected)).
Proof.
  unfold toggleSelection. split; [| split].
  - case_bool_decide as H1; case_bool_decide as H2; try set_solver.
    apply set_eq. intros i. destruct (decide (i = idx)); set_solver.
  - case_bool_decide; set_solver.
  - intros other Hne. case_bool_decide; set_solver.
Qed.

(** Select-all on the filtered rows: rows outside the filter keep their state;
    when every filtered row was selected they are all deselected, otherwise
    they are all selected; and a third press does what the first did. *)
Theorem toggleSelectAllFiltered_all_or_none (filtered : list Z) (selected : gset Z) :
  let after := toggleSelectAllFiltered filtered selected in
  (forall idx, idx ∉ filtered -> (idx ∈ after <-> idx ∈ selected)) /\
  ((forall idx, idx ∈ filtered -> idx ∈ selected) ->
     forall idx, idx ∈ filtered -> idx ∉ after) /\
  (~ (forall idx, idx ∈ filtered -> idx ∈ selected) ->
     forall idx, idx ∈ filtered -> idx ∈ after) /\
  toggleSelectAllFiltered filtered
    (toggleSelectAllFiltered filtered (toggleSelectAllFiltered filtered selected))
  = toggleSelectAllFiltered filtered selected.
Proof.
  intros after. subst after.
  split; [| split; [| split]].
  - intros idx Hout. rewrite toggleSelectAllFiltered_eq.
    destruct (forallb _ filtered); set_solver.
  - intros Hall idx Hin. rewrite toggleSelectAllFiltered_eq.
    apply all_selected in Hall. rewrite Hall. set_solver.
  - intros Hsome idx Hin. rewrite toggleSelectAllFiltered_eq.
    destruct (forallb _ filtered) eqn:Hall; [| set_solver].
    destruct Hsome. by apply all_selected.
  - destruct filtered as [|i l]; [done |]. set (filtered := i :: l).
    assert (Hnone : forall S : gset Z,
      forallb (fun idx => bool_decide (idx ∈ S ∖ list_to_set filtered)) filtered = false).
    { intros S. apply not_true_is_false. intros H.
      pose proof (proj1 (all_selected _ _) H i ltac:(left)). set_solver. }
    assert (Hfull : forall S : gset Z,
      forallb (fun idx => bool_decide (idx ∈ list_to_set filtered ∪ S)) filtered = true).
    { intros S. apply all_selected. set_solver. }
    clearbody filtered.
    rewrite (toggleSelectAllFiltered_eq filtered selected).
    destruct (forallb (fun idx => bool_decide (idx ∈ selected)) filtered) eqn:Hall.
    + rewrite (toggleSelectAllFiltered_eq filtered (selected ∖ list_to_set filtered)), Hnone.
      rewrite toggleSelectAllFiltered_eq, Hfull.
      apply set_eq. intros x. set_unfold. tauto.
    + rewrite (toggleSelectAllFiltered_eq filtered (list_to_set filtered ∪ selected)), Hfull.
      rewrite toggleSelectAllFiltered_eq, Hnone.
      apply set_eq. intros x. set_unfold. destruct (decide (x ∈ filtered)); tauto.
Qed.

Lemma wrap64_range z : minInt64 <= z <= maxInt64 -> wrap64 z = z.
Proof.
  unfold wrap64, minInt64, maxInt64. intros H. rewrite Z.mod_small; lia.
Qed.

(** For a list of at most 2^62 rows and a cursor on one of them, the window is
    a range of rows that holds the cursor: the whole list when it fits the
    [size] lines (or [size] is not positive), exactly [size] rows otherwise. *)
Theorem listWindow_holds_cursor (total cursor size : Z) :
  0 <= cursor < total -> total <= 2 ^ 62 -> size <= maxInt64 ->
  let '(first, last) := listWindow total cursor size in
  0 <= first <= cursor /\ cursor < last <= total /\
  last - first = (if (size <=? 0) || (total <=? size) then total else size).
Proof.
  intros Hcursor Htotal Hsize. unfold listWindow.
  destruct (Z.leb_spec total 0); [lia |].
  destruct ((size <=? 0) || (total <=? size)) eqn:Hfit; [lia |].
  apply orb_false_iff in Hfit as [Hpos%Z.leb_gt Hlt%Z.leb_gt].
  unfold sub64, add64.
  assert (Hhalf : 0 <= size ÷ 2 /\ 2 * (size ÷ 2) <= size /\ size < 2 * (size ÷ 2) + 2).
  { rewrite Z.quot_div_nonneg by lia. pose proof (Z.div_mod size 2 ltac:(lia)).
    pose proof (Z.mod_pos_bound size 2 ltac:(lia)). lia. }
  rewrite (wrap64_range (cursor - size ÷ 2)) by (unfold minInt64, maxInt64; lia).
  set (start := if cursor - size ÷ 2 <? 0 then 0 else cursor - size ÷ 2).
  assert (Hstart : 0 <= start <= cursor /\ cursor < start + size).
  { unfold start. destruct (Z.ltb_spec (cursor - size ÷ 2) 0); lia. }
  rewrite (wrap64_range (start + size)) by (unfold minInt64, maxInt64; lia).
  rewrite (wrap64_range (total - size)) by (unfold minInt64, maxInt64; lia).
  destruct (Z.ltb_spec total (start + size)).
  - rewrite (wrap64_range (total - size + size)) by (unfold minInt64, maxInt64; lia). lia.
  - rewrite (wrap64_range (start + size)) by (unfold minInt64, maxInt64; lia). lia.
Qed.

Lemma listWindow_holds_cursor_witness :
  listWindow 10 7 4 = (5, 9) /\
  let '(first, last) := listWindow 10 7 4 in
  0 <= first <= 7 /\ 7 < last <= 10 /\ last - first = 4.
Proof.
  split; [reflexivity |].
  apply (listWindow_holds_cursor 10 7 4); [lia | lia | unfold maxInt64; lia].
Defined.

End SelectionFacts.

Module AlbumsFacts.
Import Go GoTime Slice FS Model Catalog CatalogDoubles Freshness Retry RetryDoubles Albums AlbumsDoubles RetryFacts RetryLimits RFC3339Facts CatalogFacts CatalogSafety.
Local Open Scope string_scope.

(** What asking the API leads to. *)
Lemma fetchAlbums_cases {St : Type} cache (w : World St) hasCached cached :
  let r := withRetryResult None (ctx w) (tie w) 3 (GetAlbums w) (Albums.clock w) (api w) in
  let l := fetchAlbums cache w hasCached cached in
  fetch l = Some r /\
  match result r with
  | Some err =>
      disk_after l = disk w /\
      (if hasCached then albums l = cached /\ load_err l = None
       else albums l = None /\ load_err l = Some (wrapError "fetch albums: " err))
  | None =>
      albums l = value r /\ load_err l = None /\
      disk_after l = (Save (saveNow w) (os w) (disk w) cache (value r)).2
  end.
Proof.
  intros r l. subst r l. unfold fetchAlbums.
  destruct (result (withRetryResult _ _ _ _ _ _ _)) as [err|]; [| done].
  by destruct hasCached.
Qed.

Lemma fetch_budget {St : Type} cache (w : World St) hasCached cached :
  (1 <= api_calls (fetchAlbums cache w hasCached cached) <= 3)%nat.
Proof.
  destruct (fetchAlbums_cases cache w hasCached cached) as [Hfetch _].
  unfold api_calls. rewrite Hfetch. cbv beta iota. unfold withRetryResult.
  pose proof (loop_bounds None (ctx w) (tie w) (coerce 3) (GetAlbums w)
                (Z.to_nat (coerce 3)) 1%Z None (Albums.clock w) (api w)) as [H1 H2].
  cbv zeta in *. change (Z.to_nat (coerce 3)) with 3%nat in *.
  split; [apply H2; lia | exact H1].
Qed.

(** With a cache that can be read loadAlbums never fails: it returns the
    cached albums or the albums the API gave.  It fails only when the cache
    cannot be read and the API failed on its last attempt, and then returns no
    albums, the wrapped error of the API, and leaves the files alone. *)
Theorem loadAlbums_fails_only_without_cache {St : Type} cfg cache (w : World St) :
  let l := loadAlbums cfg cache w in
  (forall cached cachedAt,
     Load (disk w) (readFault w) cache = inr (cached, cachedAt) ->
     load_err l = None /\
     (albums l = cached \/
      exists r, fetch l = Some r /\ result r = None /\ albums l = value r)) /\
  (forall e, load_err l = Some e ->
     (exists readErr, Load (disk w) (readFault w) cache = inl readErr) /\
     (exists r apiErr, fetch l = Some r /\ result r = Some apiErr /\
        e = wrapError "fetch albums: " apiErr) /\
     albums l = None /\ disk_after l = disk w).
Proof.
  intros l. subst l. unfold loadAlbums.
  assert (Hcached : forall cached,
    load_err (fetchAlbums cache w true cached) = None /\
    (albums (fetchAlbums cache w true cached) = cached \/
     exists r, fetch (fetchAlbums cache w true cached) = Some r /\ result r = None /\
       albums (fetchAlbums cache w true cached) = value r)).
  { intros cached. destruct (fetchAlbums_cases cache w true cached) as [Hfetch Hcases].
    cbv zeta in *.
    destruct (result (withRetryResult _ _ _ _ _ _ _)) as [err|] eqn:Hres.
    - destruct Hcases as (_ & Ha & He). split; [done | by left].
    - destruct Hcases as (Ha & He & _). split; [done |]. right. by eexists. }
  destruct (Load (disk w) (readFault w) cache) as [readErr | [cached cachedAt]].
  - split; [done |]. intros e He.
    destruct (fetchAlbums_cases cache w false None) as [Hfetch Hcases]. cbv zeta in *.
    destruct (result (withRetryResult _ _ _ _ _ _ _)) as [err|] eqn:Hres.
    + destruct Hcases as (Hdisk & Ha & He'). rewrite He' in He. injection He as <-.
      split; [by eexists |]. split; [| done]. by eexists _, _.
    + destruct Hcases as (_ & He' & _). congruence.
  - split.
    + intros ? ? [= <- <-].
      destruct (negb (RefreshAlbums cfg)); [| apply Hcached].
      destruct (shouldUseCachedAlbums _ _ _); [| apply Hcached].
      split; [done | by left].
    + intros e He. exfalso.
      destruct (negb (RefreshAlbums cfg));
        [destruct (shouldUseCachedAlbums _ _ _); [done |] |];
        destruct (Hcached cached) as [H _]; congruence.
Qed.

(** The API is asked at most three times, and not at all exactly when the
    cache can be read, no refresh is forced and the cache is fresh; in that
    case the cached albums are returned and no file is written. *)
Theorem loadAlbums_api_budget {St : Type} cfg cache (w : World St) :
  let l := loadAlbums cfg cache w in
  (api_calls l <= 3)%nat /\
  (api_calls l = 0%nat <->
   exists cached cachedAt,
     Load (disk w) (readFault w) cache = inr (cached, cachedAt) /\
     RefreshAlbums cfg = false /\
     shouldUseCachedAlbums cachedAt (AlbumCacheTTL cfg) (wallNow w) = true) /\
  (api_calls l = 0%nat ->
   exists cachedAt, Load (disk w) (readFault w) cache = inr (albums l, cachedAt) /\
     load_err l = None /\ disk_after l = disk w).
Proof.
  intros l. subst l. unfold loadAlbums.
  pose proof (fetch_budget cache w) as Hbudget.
  destruct (Load (disk w) (readFault w) cache) as [readErr | [cached cachedAt]].
  { specialize (Hbudget false None). split; [lia |]. split.
    - split; [lia |]. by intros (? & ? & ? & _).
    - lia. }
  specialize (Hbudget true cached).
  destruct (RefreshAlbums cfg); cbn [negb].
  { split; [lia |]. split.
    - split; [lia |]. by intros (? & ? & _ & ? & _).
    - lia. }
  destruct (shouldUseCachedAlbums cachedAt (AlbumCacheTTL cfg) (wallNow w)) eqn:Hfresh.
  - cbn. split; [lia |]. split.
    + split; [| done]. intros _. by eexists _, _.
    + intros _. by eexists.
  - split; [lia |]. split.
    + split; [lia |]. intros (? & ? & [= <- <-] & _ & ?). congruence.
    + lia.
Qed.

Lemma fetch_of_load {St : Type} cfg cache (w : World St) r :
  fetch (loadAlbums cfg cache w) = Some r ->
  exists hasCached cached,
    loadAlbums cfg cache w = fetchAlbums cache w hasCached cached /\
    r = withRetryResult None (ctx w) (tie w) 3 (GetAlbums w) (Albums.clock w) (api w).
Proof.
  unfold loadAlbums.
  assert (Hgo : forall hasCached cached,
    fetch (fetchAlbums cache w hasCached cached) = Some r ->
    exists hasCached' cached',
      fetchAlbums cache w hasCached cached = fetchAlbums cache w hasCached' cached' /\
      r = withRetryResult None (ctx w) (tie w) 3 (GetAlbums w) (Albums.clock w) (api w)).
  { intros hasCached cached H.
    destruct (fetchAlbums_cases cache w hasCached cached) as [Hfetch _]. cbv zeta in *.
    rewrite Hfetch in H. injection H as <-. by eexists _, _. }
  destruct (Load (disk w) (readFault w) cache) as [readErr | [cached cachedAt]];
    [apply Hgo |].
  destruct (negb (RefreshAlbums cfg)); [| apply Hgo].
  destruct (shouldUseCachedAlbums _ _ _); [done | apply Hgo].
Qed.

(** When the API answers, its albums are what loadAlbums returns, whether or
    not they could be saved; a save that fails is not an error of loadAlbums
    and leaves the cache as it was. *)
Theorem fetched_catalog_wins {St : Type} cfg cache (w : World St) r :
  fetch (loadAlbums cfg cache w) = Some r -> result r = None ->
  let l := loadAlbums cfg cache w in
  let saved := Save (saveNow w) (os w) (disk w) cache (value r) in
  albums l = value r /\ load_err l = None /\ disk_after l = saved.2 /\
  (saved.1 <> None -> forall fault, Load (disk_after l) fault cache = Load (disk w) fault cache).
Proof.
  intros Hfetch Hok l saved. subst l saved.
  destruct (fetch_of_load cfg cache w r Hfetch) as (hasCached & cached & -> & Hr).
  destruct (fetchAlbums_cases cache w hasCached cached) as [_ Hcases]. cbv zeta in *.
  subst r. unfold slice in *. rewrite Hok in Hcases. destruct Hcases as (Ha & He & Hd).
  split; [done |]. split; [done |]. split; [done |].
  intros Hfail fault. rewrite Hd.
  destruct ((Save (saveNow w) (os w) (disk w) cache _).1) as [e|] eqn:Hsave; [| done].
  by destruct (failed_save_keeps_cache _ _ _ _ _ _ Hsave) as [H _].
Qed.

Lemma fetched_catalog_wins_witness :
  albums (loadAlbums day cachePath diskFull) = alphaBeta /\
  load_err (loadAlbums day cachePath diskFull) = None /\
  Load (disk_after (loadAlbums day cachePath diskFull)) None cachePath = inl ErrNotExist.
Proof.
  destruct (fetch (loadAlbums day cachePath diskFull)) as [r|] eqn:Hfetch;
    [| vm_compute in Hfetch; discriminate Hfetch].
  assert (Hok : result r = None).
  { vm_compute in Hfetch. injection Hfetch as <-. reflexivity. }
  destruct (fetched_catalog_wins day cachePath diskFull r Hfetch Hok) as (Ha & He & _ & Hl).
  vm_compute in Hfetch. injection Hfetch as <-.
  split; [exact Ha |]. split; [exact He |].
  rewrite Hl; [reflexivity |]. vm_compute. discriminate.
Defined.



End AlbumsFacts.

Module WorkerCancellation.
Import Go Worker WorkerDoubles WorkerRuns WorkerFacts.

Section Pool.
Context {St : Type}.
Variable jobs : list (@Job St).
Variable cancellable : bool.
Variable ctxErr : error.

Abbreviation step_by := (@Worker.step_by St jobs cancellable ctxErr).
Abbreviation run := (@Worker.run St jobs cancellable ctxErr).
Abbreviation Inv := (@WorkerFacts.Inv St jobs cancellable ctxErr).

(** What [Run] has returned, in terms of the state it returned in: nil only
    after every job ran and none failed; otherwise the join of the failures,
    with the context's error last when the context was done by then. *)
Definition faithful (s : @state St) : Prop :=
  forall r, main s = Returned r ->
    match r with
    | None => failures s = [] /\ next s = length jobs
    | Some e =>
        e = joinError (failures s) \/
        (cancelled s = true /\ e = joinError (failures s ++ [ctxErr]))
    end.

(** Once done, the context stays done, and a call that started with the
    context done returns its error. *)
Definition done_for_good (s : @state St) : Prop :=
  cancelled s = true /\
  forall r, main s = Returned r -> r = Some (joinError (failures s ++ [ctxErr])).

Lemma step_cases c s s' :
  step_by c s = Some s' ->
  (exists r, main s = Returned r /\ c = Cancel /\
     s' = mkState (main s) (next s) (pool s) (errCh s) (mem s) true (started s) (finished s)) \/
  ((forall r, main s' <> Returned r) /\ (cancelled s = true -> cancelled s' = true)) \/
  (main s = Closed /\ c = Return /\ Forall (fun w => w = Exited) (pool s) /\
   s' = mkState (Returned (joined ctxErr s)) (next s) (pool s) (errCh s) (mem s)
          (cancelled s) (started s) (finished s)) \/
  (exists r, main s = Returned r /\ exists w, pool s !! w <> Some Exited /\ w < length (pool s)).
Proof.
  intros Hstep. unfold Worker.step_by in Hstep.
  destruct c as [w| | |w|w| |].
  - destruct (main s) eqn:Hm; try done.
    destruct (pool s !! w) as [[| |]|]; try done. destruct (jobs !! next s); try done.
    injection Hstep as <-. right. left. fields. split; done.
  - destruct (main s) eqn:Hm; try done. destruct (jobs !! next s); try done.
    destruct (cancelled s); try done. injection Hstep as <-. right. left. split; done.
  - destruct (main s) eqn:Hm; try done. destruct (jobs !! next s); try done.
    injection Hstep as <-. right. left. split; done.
  - destruct (pool s !! w) as [[|i|]|] eqn:Hw; try done.
    destruct (jobs !! i) as [job|]; try done.
    destruct (job (cancelled s) (mem s)) as [m e].
    assert (Hrun : (exists r, main s = Returned r /\
                      exists w, pool s !! w <> Some Exited /\ w < length (pool s)) \/
                   forall r, main s <> Returned r).
    { destruct (main s) as [| |r] eqn:Hm; [by right | by right |]. left. exists r.
      split; [done |]. exists w. rewrite Hw. split; [done |]. by eapply lookup_lt_Some. }
    destruct e as [err|].
    + destruct (length (errCh s) <? length jobs); try done.
      injection Hstep as <-. fields.
      destruct Hrun as [H | H]; [by do 3 right | right; left; split; done].
    + injection Hstep as <-. fields.
      destruct Hrun as [H | H]; [by do 3 right | right; left; split; done].
  - destruct (main s) as [| |r] eqn:Hm; try done.
    + destruct (pool s !! w) as [[| |]|] eqn:Hw; try done.
      injection Hstep as <-. right. left. fields. split; done.
    + destruct (pool s !! w) as [[| |]|] eqn:Hw; try done.
      do 3 right. exists r. split; [done |]. exists w. rewrite Hw. split; [done |].
      by eapply lookup_lt_Some.
  - destruct (main s) eqn:Hm; try done.
    destruct (forallb is_exited (pool s)) eqn:Hall; try done.
    injection Hstep as <-. right. right. left. split; [done |]. split; [done |].
    split; [| done].
    apply Forall_forall. intros w Hw. apply list_elem_of_In in Hw.
    rewrite forallb_forall in Hall. apply Hall in Hw. by destruct w.
  - destruct (cancellable && negb (cancelled s)); try done.
    injection Hstep as <-. fields.
    destruct (main s) as [| |r] eqn:Hm.
    + right. left. split; done.
    + right. left. split; done.
    + left. exists r. split; [done |]. split; done.
Qed.

Lemma no_worker_left size s r w :
  Inv size s -> main s = Returned r -> pool s !! w <> Some Exited -> w < length (pool s) ->
  False.
Proof.
  intros Hinv Hr Hw Hlt. destruct (inv_returned _ _ _ _ _ Hinv r Hr) as [Hall _].
  apply lookup_lt_is_Some_2 in Hlt as [x Hx].
  rewrite Forall_lookup in Hall. rewrite (Hall _ _ Hx) in Hx. done.
Qed.

Lemma faithful_step size c s s' :
  Inv size s -> step_by c s = Some s' -> faithful s -> faithful s'.
Proof.
  intros Hinv Hstep Hf.
  destruct (step_cases c s s' Hstep)
    as [(r & Hr & _ & ->) | [[Hnot _] | [(Hm & _ & Hall & ->) | (r & Hr & w & Hw & Hlt)]]].
  - intros r' Hr'. fields. cbn [main] in Hr'. specialize (Hf r' Hr').
    unfold failures in *. cbn [finished next cancelled]. destruct r'; [| done].
    destruct Hf as [Hf | [_ Hf]]; [by left | by right].
  - intros r' Hr'. by apply Hnot in Hr'.
  - intros r' [= <-]. unfold joined, failures. fields.
    rewrite (inv_errCh _ _ _ _ _ Hinv). unfold failures.
    destruct (cancelled s) eqn:Hc.
    + destruct (omap snd (finished s) ++ [ctxErr]) eqn:Happ.
      { by apply app_eq_nil in Happ as [_ ?]. }
      rewrite <- Happ. by right.
    + rewrite app_nil_r. destruct (omap snd (finished s)) eqn:Hfail; [| by left].
      split; [done |]. apply (inv_closed _ _ _ _ _ Hinv); [done | by rewrite Hm].
  - destruct (no_worker_left size s r w Hinv Hr Hw Hlt).
Qed.

Lemma faithful_run size schedule : forall s s',
  Inv size s -> run schedule s = Some s' -> faithful s -> faithful s'.
Proof.
  induction schedule as [|c rest IH]; intros s s' Hinv Hrun Hf; simpl in Hrun.
  - by injection Hrun as <-.
  - destruct (step_by c s) as [s1|] eqn:Hstep; [| done].
    eapply IH; [| exact Hrun |]; [by eapply Inv_step | by eapply faithful_step].
Qed.

Lemma done_step size c s s' :
  Inv size s -> step_by c s = Some s' -> done_for_good s -> done_for_good s'.
Proof.
  intros Hinv Hstep [Hc Hd].
  destruct (step_cases c s s' Hstep)
    as [(r & Hr & _ & ->) | [[Hnot Hkeep] | [(Hm & _ & Hall & ->) | (r & Hr & w & Hw & Hlt)]]].
  - split; [done |]. intros r' Hr'. cbn [main] in Hr'. by apply Hd.
  - split; [by apply Hkeep |]. intros r' Hr'. by apply Hnot in Hr'.
  - split; [done |]. intros r' [= <-]. unfold joined, failures. fields.
    rewrite (inv_errCh _ _ _ _ _ Hinv), Hc. unfold failures.
    destruct (omap snd (finished s) ++ [ctxErr]) eqn:Happ; [| done].
    by apply app_eq_nil in Happ as [_ ?].
  - destruct (no_worker_left size s r w Hinv Hr Hw Hlt).
Qed.

Lemma done_run size schedule : forall s s',
  Inv size s -> run schedule s = Some s' -> done_for_good s -> done_for_good s'.
Proof.
  induction schedule as [|c rest IH]; intros s s' Hinv Hrun Hd; simpl in Hrun.
  - by injection Hrun as <-.
  - destruct (step_by c s) as [s1|] eqn:Hstep; [| done].
    eapply IH; [| exact Hrun |]; [by eapply Inv_step | by eapply done_step].
Qed.

(** A worker inside a job can always finish it: the error channel has room
    for the failure of every job still running. *)
Lemma finish_enabled size s w i :
  Inv size s -> pool s !! w = Some (Running i) ->
  length (errCh s) + length (running s) <= length jobs /\
  exists s', step_by (Finish w) s = Some s'.
Proof.
  intros [Hsize Hnext Hstarted Hjobs Herr Hfeed Hclosed Hret] Hw.
  assert (Hroom : length (errCh s) + length (running s) <= length jobs).
  { apply Permutation_length in Hjobs. rewrite length_seq, length_app, length_map in Hjobs.
    assert (length (errCh s) <= length (finished s)).
    { rewrite Herr. unfold failures. apply length_omap. }
    unfold Job in *. lia. }
  split; [done |].
  unfold Worker.step_by. rewrite Hw. cbv iota beta.
  assert (i ∈ seq 0 (next s)) as Hi.
  { rewrite Hjobs. apply elem_of_app. right. rewrite running_eq.
    apply list_elem_of_omap. exists (Running i). split; [| done].
    by eapply list_elem_of_lookup_2. }
  apply elem_of_seq in Hi.
  destruct (jobs !! i) as [job|] eqn:Hjob;
    [| apply lookup_ge_None in Hjob; unfold Job in *; lia].
  destruct (job (cancelled s) (mem s)) as [m [err|]]; [| by eexists].
  assert (0 < length (running s)).
  { rewrite running_eq. rewrite (omap_split _ _ _ _ Hw). rewrite !length_app. simpl. lia. }
  assert ((length (errCh s) <? length jobs) = true) as ->; [| by eexists].
  apply Nat.ltb_lt. unfold Job in *. lia.
Qed.

End Pool.

Lemma reachable {St : Type} (jobs : list (@Job St)) cancellable ctxErr workers m done
    schedule s :
  Worker.run jobs cancellable ctxErr schedule (init jobs workers m done) = Some s ->
  jobs <> [] ->
  0 < coerce workers /\
  WorkerFacts.Inv jobs cancellable ctxErr (coerce workers) s /\
  faithful jobs ctxErr s /\
  (done = true -> done_for_good ctxErr s).
Proof.
  intros Hrun Hne.
  assert (Hpos : 0 < coerce workers).
  { unfold coerce. destruct (Z.ltb_spec workers 1); lia. }
  pose proof (Inv_init jobs cancellable ctxErr workers m done Hne) as Hinit.
  split; [done |]. split; [by eapply Inv_run |].
  assert (Hmain : main (init jobs workers m done) = Feeding).
  { unfold init. by destruct jobs. }
  split.
  - eapply faithful_run; [exact Hinit | exact Hrun |].
    intros r Hr. by rewrite Hmain in Hr.
  - intros ->. eapply done_run; [exact Hinit | exact Hrun |]. split.
    + unfold init. by destruct jobs.
    + intros r Hr. by rewrite Hmain in Hr.
Qed.

Lemma empty_run {St : Type} cancellable ctxErr workers (m : St) done schedule s :
  Worker.run [] cancellable ctxErr schedule (init [] workers m done) = Some s ->
  main s = Returned None /\ started s = [] /\ finished s = [] /\ pool s = [].
Proof.
  revert done. induction schedule as [|c rest IH]; intros done Hrun.
  - injection Hrun as <-. done.
  - simpl in Hrun.
    destruct c as [[|w]| | |[|w]|[|w]| |]; try done.
    simpl in Hrun. destruct (cancellable && negb done); [| done].
    by apply (IH true).
Qed.

(** Whatever the context does, a nil result can be trusted: Run returns nil
    only when every job of the list was started, has returned, and returned
    nil. *)
Theorem nil_means_every_job_succeeded {St : Type} (jobs : list (@Job St)) cancellable ctxErr
    workers m done schedule s :
  Worker.run jobs cancellable ctxErr schedule (init jobs workers m done) = Some s ->
  main s = Returned None ->
  started s = seq 0 (length jobs) /\
  map fst (finished s) ≡ₚ seq 0 (length jobs) /\
  Forall (fun done => done.2 = None) (finished s).
Proof.
  intros Hrun Hnil.
  destruct jobs as [|j js].
  { destruct (empty_run _ _ _ _ _ _ _ Hrun) as (_ & -> & -> & _). done. }
  destruct (reachable _ _ _ _ _ _ _ _ Hrun ltac:(done)) as (_ & Hinv & Hf & _).
  destruct (Hf None Hnil) as [Hfail Hnext].
  destruct Hinv as [Hsize _ Hstarted Hperm _ _ _ Hret].
  destruct (Hret None Hnil) as [Hall _].
  assert (Hrun0 : running s = []).
  { rewrite running_eq. clear -Hall. induction Hall as [|w ws -> _ IH]; [done | exact IH]. }
  rewrite Hrun0, app_nil_r, Hnext in Hperm. rewrite Hnext in Hstarted.
  split; [done |]. split; [by symmetry |].
  unfold failures in Hfail. clear -Hfail.
  induction (finished s) as [|[i [e|]] l IH]; [constructor | done |].
  constructor; [done | by apply IH].
Qed.

Lemma nil_means_every_job_succeeded_witness :
  exists s,
    Worker.run countJobs false Canceled allThree (init countJobs 2 0 false) = Some s /\
    main s = Returned None /\ mem s = 3 /\ started s = [0; 1; 2].
Proof.
  destruct (Worker.run countJobs false Canceled allThree (init countJobs 2 0 false))
    as [s|] eqn:Hrun; [| vm_compute in Hrun; discriminate Hrun].
  exists s. split; [done |].
  assert (Hnil : main s = Returned None).
  { vm_compute in Hrun. by injection Hrun as <-. }
  destruct (nil_means_every_job_succeeded _ _ _ _ _ _ _ _ Hrun Hnil) as (Hstarted & _).
  split; [exact Hnil |]. split; [| exact Hstarted].
  vm_compute in Hrun. by injection Hrun as <-.
Defined.

(** A call made with the context already done returns an error that ends
    with the context's error, whatever the jobs did and whichever case the
    select took; except for an empty job list, which returns nil before the
    context is looked at. *)
Theorem cancelled_run_reports_context_error {St : Type} (jobs : list (@Job St)) cancellable
    ctxErr workers m schedule s r :
  Worker.run jobs cancellable ctxErr schedule (init jobs workers m true) = Some s ->
  main s = Returned r ->
  r = match jobs with
      | [] => None
      | _ => Some (joinError (failures s ++ [ctxErr]))
      end.
Proof.
  intros Hrun Hr.
  destruct jobs as [|j js].
  { destruct (empty_run _ _ _ _ _ _ _ Hrun) as (Hm & _). congruence. }
  destruct (reachable _ _ _ _ _ _ _ _ Hrun ltac:(done)) as (_ & _ & _ & Hd).
  destruct (Hd eq_refl) as [_ Hret]. by apply Hret.
Qed.

Lemma cancelled_run_reports_context_error_witness :
  (exists s, Worker.run oneJob true Canceled observed (init oneJob 1 0 true) = Some s /\
     main s = Returned (Some (joinError [Canceled])) /\ mem s = 0) /\
  (exists s, Worker.run oneJob true Canceled handedOff (init oneJob 1 0 true) = Some s /\
     main s = Returned (Some (joinError [Canceled])) /\ mem s = 1).
Proof.
  split.
  - destruct (Worker.run oneJob true Canceled observed (init oneJob 1 0 true))
      as [s|] eqn:Hrun; [| vm_compute in Hrun; discriminate Hrun].
    exists s. split; [done |].
    destruct (main s) as [| |r] eqn:Hm;
      [vm_compute in Hrun; injection Hrun as <-; discriminate Hm
      |vm_compute in Hrun; injection Hrun as <-; discriminate Hm |].
    rewrite (cancelled_run_reports_context_error _ _ _ _ _ _ _ _ Hrun Hm).
    vm_compute in Hrun. injection Hrun as <-. split; reflexivity.
  - destruct (Worker.run oneJob true Canceled handedOff (init oneJob 1 0 true))
      as [s|] eqn:Hrun; [| vm_compute in Hrun; discriminate Hrun].
    exists s. split; [done |].
    destruct (main s) as [| |r] eqn:Hm;
      [vm_compute in Hrun; injection Hrun as <-; discriminate Hm
      |vm_compute in Hrun; injection Hrun as <-; discriminate Hm |].
    rewrite (cancelled_run_reports_context_error _ _ _ _ _ _ _ _ Hrun Hm).
    vm_compute in Hrun. injection Hrun as <-. split; reflexivity.
Defined.

(** In every state Run can reach, cancelled or not: the jobs started are the
    first ones of the list, each once and in order; each of them has returned
    or is running, and none has returned twice; a running job can always
    return, the error channel having room for its failure; and once Run has
    returned no job is running. *)
Theorem started_jobs_run_once {St : Type} (jobs : list (@Job St)) cancellable ctxErr
    workers m done schedule s :
  Worker.run jobs cancellable ctxErr schedule (init jobs workers m done) = Some s ->
  started s = seq 0 (next s) /\ next s <= length jobs /\
  map fst (finished s) ++ running s ≡ₚ started s /\
  (forall w i, pool s !! w = Some (Running i) ->
     exists s', Worker.step_by jobs cancellable ctxErr (Finish w) s = Some s') /\
  (forall r, main s = Returned r -> running s = []).
Proof.
  intros Hrun.
  destruct jobs as [|j js].
  { destruct (empty_run _ _ _ _ _ _ _ Hrun) as (Hm & Hs & Hf & Hp).
    assert (Hn : next s = 0).
    { clear -Hrun. revert done Hrun. induction schedule as [|c rest IH]; intros done Hrun.
      - by injection Hrun as <-.
      - simpl in Hrun. destruct c as [[|w]| | |[|w]|[|w]| |]; try done.
        simpl in Hrun. destruct (cancellable && negb done); [| done]. by apply (IH true). }
    unfold running. rewrite Hs, Hf, Hp, Hn. simpl.
    split; [done |]. split; [lia |]. split; [done |]. split; [| done].
    intros w i Hw. by rewrite lookup_nil in Hw. }
  destruct (reachable _ _ _ _ _ _ _ _ Hrun ltac:(done)) as (_ & Hinv & _).
  pose proof Hinv as [Hsize Hnext Hstarted Hperm _ _ _ Hret].
  split; [done |]. split; [done |]. split; [by rewrite Hstarted |]. split.
  - intros w i Hw. by destruct (finish_enabled _ _ _ _ s w i Hinv Hw).
  - intros r Hr. destruct (Hret r Hr) as [Hall _].
    rewrite running_eq. clear -Hall. induction Hall as [|w ws -> _ IH]; [done | exact IH].
Qed.

Lemma started_jobs_run_once_witness :
  exists s,
    Worker.run collectJobs true Canceled cancelledMidway (init collectJobs 2 0 false)
      = Some s /\
    started s = [0] /\ mem s = 1 /\
    main s = Returned (Some (joinError [errA; Canceled])).
Proof.
  destruct (Worker.run collectJobs true Canceled cancelledMidway (init collectJobs 2 0 false))
    as [s|] eqn:Hrun; [| vm_compute in Hrun; discriminate Hrun].
  exists s. split; [done |].
  destruct (started_jobs_run_once _ _ _ _ _ _ _ _ Hrun) as (Hstarted & _).
  vm_compute in Hrun. injection Hrun as <-.
  split; [exact Hstarted |]. split; reflexivity.
Defined.

End WorkerCancellation.

Module BlockingFacts.
Import Go Worker WorkerDoubles WorkerFacts WorkerCancellation BlockingDoubles.

Section Pool.
Context {St : Type}.
Variable jobs : list (@Blocking.Job St).
Variable cancellable : bool.
Variable ctxErr : error.

Abbreviation settled_jobs := (Blocking.settled <$> jobs).

Lemma settled_lookup i :
  settled_jobs !! i = Blocking.settled <$> (jobs !! i).
Proof. apply list_lookup_fmap. Qed.

Lemma init_settled workers m done :
  Blocking.init jobs workers m done = Worker.init settled_jobs workers m done.
Proof. unfold Blocking.init, Worker.init. by destruct jobs. Qed.

(** Every step of the pool is a step of the pool whose jobs all return. *)
Lemma step_settled c s s' :
  Blocking.step_by jobs cancellable ctxErr c s = Some s' ->
  Worker.step_by settled_jobs cancellable ctxErr c s = Some s'.
Proof.
  unfold Blocking.step_by, Worker.step_by.
  destruct c as [w| | |w|w| |]; try done.
  - rewrite settled_lookup. by destruct (jobs !! next s).
  - rewrite settled_lookup. by destruct (jobs !! next s).
  - rewrite settled_lookup. by destruct (jobs !! next s).
  - destruct (pool s !! w) as [[|i|]|]; try done.
    rewrite settled_lookup. destruct (jobs !! i) as [job|]; [| done]. cbn [fmap option_fmap option_map].
    unfold Blocking.settled. destruct (job (cancelled s) (mem s)) as [[m [err|]]|]; try done.
    cbn [default]. by rewrite length_fmap.
Qed.

(** When the jobs all return the two pools are one. *)
Lemma step_returning c s :
  Forall Blocking.returns jobs ->
  Blocking.step_by jobs cancellable ctxErr c s
  = Worker.step_by settled_jobs cancellable ctxErr c s.
Proof.
  intros Hret. unfold Blocking.step_by, Worker.step_by.
  destruct c as [w| | |w|w| |]; try done.
  - rewrite settled_lookup. by destruct (jobs !! next s).
  - rewrite settled_lookup. by destruct (jobs !! next s).
  - rewrite settled_lookup. by destruct (jobs !! next s).
  - destruct (pool s !! w) as [[|i|]|]; try done.
    rewrite settled_lookup. destruct (jobs !! i) as [job|] eqn:Hjob; [| done].
    cbn [fmap option_fmap option_map].
    rewrite Forall_lookup in Hret. destruct (Hret i job Hjob (cancelled s) (mem s)) as [[m e] Hm].
    unfold Blocking.settled. rewrite Hm. cbn [default]. rewrite length_fmap. by destruct e.
Qed.

Lemma run_settled schedule : forall s s',
  Blocking.run jobs cancellable ctxErr schedule s = Some s' ->
  Worker.run settled_jobs cancellable ctxErr schedule s = Some s'.
Proof.
  induction schedule as [|c rest IH]; intros s s' Hrun; simpl in *; [done |].
  destruct (Blocking.step_by jobs cancellable ctxErr c s) as [s1|] eqn:Hstep; [| done].
  rewrite (step_settled _ _ _ Hstep). by apply IH.
Qed.

Lemma run_returning schedule : forall s,
  Forall Blocking.returns jobs ->
  Blocking.run jobs cancellable ctxErr schedule s
  = Worker.run settled_jobs cancellable ctxErr schedule s.
Proof.
  induction schedule as [|c rest IH]; intros s Hret; simpl; [done |].
  rewrite step_returning by done.
  destruct (Worker.step_by settled_jobs cancellable ctxErr c s); [by apply IH | done].
Qed.

Lemma replay_snoc order i : forall m,
  Blocking.replay jobs (order ++ [i]) m =
  match Blocking.replay jobs order m with
  | Some (m', returned) =>
      match jobs !! i with
      | Some job =>
          match job false m' with
          | Some (m'', e) => Some (m'', returned ++ [(i, e)])
          | None => None
          end
      | None => None
      end
  | None => None
  end.
Proof.
  induction order as [|j order IH]; intros m; simpl.
  - destruct (jobs !! i) as [job|]; [| done]. by destruct (job false m) as [[m' e]|].
  - destruct (jobs !! j) as [job|]; [| done].
    destruct (job false m) as [[m' e]|]; [| done].
    rewrite IH. destruct (Blocking.replay jobs order m') as [[m'' returned]|]; [| done].
    destruct (jobs !! i) as [job'|]; [| done]. by destruct (job' false m'') as [[m3 e']|].
Qed.

(** With a context that is never done, the memory and the list of returned
    jobs are what calling the jobs one after the other, in the order in which
    they returned, gives. *)
Definition replayed (m0 : St) (s : @state St) : Prop :=
  cancelled s = false /\
  Blocking.replay jobs (map fst (finished s)) m0 = Some (mem s, finished s).

Lemma replayed_step m0 c s s' :
  cancellable = false ->
  Blocking.step_by jobs cancellable ctxErr c s = Some s' -> replayed m0 s -> replayed m0 s'.
Proof.
  intros -> Hstep [Hc Hrep]. unfold Blocking.step_by in Hstep.
  destruct c as [w| | |w|w| |]; simpl in Hstep.
  - destruct (main s); try done. destruct (pool s !! w) as [[| |]|]; try done.
    destruct (jobs !! next s); try done. by injection Hstep as <-.
  - destruct (main s); try done. destruct (jobs !! next s); try done.
    destruct (cancelled s); try done.
  - destruct (main s); try done. destruct (jobs !! next s); try done.
    by injection Hstep as <-.
  - destruct (pool s !! w) as [[|i|]|]; try done.
    destruct (jobs !! i) as [job|] eqn:Hjob; try done. rewrite Hc in Hstep.
    destruct (job false (mem s)) as [[m e]|] eqn:Hm; try done.
    assert (Hnext : Blocking.replay jobs (map fst (finished s ++ [(i, e)])) m0
                    = Some (m, finished s ++ [(i, e)])).
    { rewrite map_app. simpl. by rewrite replay_snoc, Hrep, Hjob, Hm. }
    destruct e as [err|].
    + destruct (length (errCh s) <? length jobs); try done. by injection Hstep as <-.
    + by injection Hstep as <-.
  - destruct (main s); try done; destruct (pool s !! w) as [[| |]|]; try done;
      by injection Hstep as <-.
  - destruct (main s); try done. destruct (forallb is_exited (pool s)); try done.
    by injection Hstep as <-.
  - done.
Qed.

Lemma replayed_run m0 schedule : forall s s',
  cancellable = false ->
  Blocking.run jobs cancellable ctxErr schedule s = Some s' -> replayed m0 s -> replayed m0 s'.
Proof.
  induction schedule as [|c rest IH]; intros s s' Hc Hrun Hrep; simpl in Hrun.
  - by injection Hrun as <-.
  - destruct (Blocking.step_by jobs cancellable ctxErr c s) as [s1|] eqn:Hstep; [| done].
    eapply IH; [done | exact Hrun |]. by eapply replayed_step.
Qed.

Lemma halted_returning s :
  Forall Blocking.returns jobs ->
  Blocking.halted jobs cancellable ctxErr s <-> WorkerFacts.halted settled_jobs cancellable ctxErr s.
Proof.
  intros Hret. unfold Blocking.halted, WorkerFacts.halted.
  split; intros H c; [rewrite <- step_returning by done | rewrite step_returning by done];
    apply H.
Qed.

Lemma budget_init workers m done :
  budget settled_jobs cancellable (Worker.init settled_jobs workers m done)
  <= 3 + 3 * length jobs + coerce workers.
Proof.
  assert (Hsum : forall n, sum_list (weight <$> replicate n Idle) = n).
  { intros n. rewrite fmap_replicate. induction n as [|n IH]; simpl in *; [done | by rewrite IH]. }
  unfold budget, Worker.init.
  destruct jobs as [|j js].
  - simpl. destruct (cancellable && negb done); lia.
  - change (Blocking.settled <$> j :: js) with (Blocking.settled j :: (Blocking.settled <$> js)).
    cbv beta iota. cbn [main pool next cancelled]. rewrite Hsum. cbn [length].
    rewrite length_fmap. destruct (cancellable && negb done); lia.
Qed.

End Pool.

(** C7 (amended).  With a context that is never cancelled and jobs that all
    return: every interleaving of [worker.Run] is finite and can always be
    continued until nothing can move; and when nothing can move Run has
    returned, every job of the list was started once, in order, and returned
    once; the memory the jobs share and what each job returned are what
    calling the jobs one after the other, in the order in which they
    returned, gives; the result is nil exactly when no job returned an error
    and otherwise the join of all the errors returned; an empty list returns
    nil with no goroutine started; and the pool has [coerce workers] workers,
    one when the count is below one. *)
Theorem run_completes_every_job {St : Type} (jobs : list (@Blocking.Job St)) ctxErr
    workers m schedule s :
  Forall Blocking.returns jobs ->
  Blocking.run jobs false ctxErr schedule (Blocking.init jobs workers m false) = Some s ->
  (length schedule <= 3 + 3 * length jobs + coerce workers /\
   exists rest s',
     Blocking.run jobs false ctxErr rest s = Some s' /\ Blocking.halted jobs false ctxErr s') /\
  (Blocking.halted jobs false ctxErr s ->
   exists r, main s = Returned r /\
     started s = seq 0 (length jobs) /\
     map fst (finished s) ≡ₚ seq 0 (length jobs) /\
     Blocking.replay jobs (map fst (finished s)) m = Some (mem s, finished s) /\
     r = match failures s with [] => None | errs => Some (joinError errs) end /\
     (r = None <-> Forall (fun done => done.2 = None) (finished s)) /\
     length (pool s) = match jobs with [] => 0 | _ => coerce workers end /\
     (jobs = [] -> schedule = [] /\ r = None)).
Proof.
  intros Hret Hrun.
  assert (Hrep : replayed jobs m s).
  { eapply replayed_run; [done | exact Hrun |].
    unfold replayed, Blocking.init. by destruct jobs. }
  rewrite run_returning, init_settled in Hrun by done.
  destruct (returning_jobs_complete _ _ _ _ _ _ Hrun) as [[Hlen (rest & s' & Hrest & Hhalt)] Hdone].
  split.
  - split.
    + pose proof (budget_init jobs false workers m false). lia.
    + exists rest, s'. rewrite run_returning by done. split; [done |].
      by apply halted_returning.
  - intros Hhalted. apply halted_returning in Hhalted; [| done].
    destruct (Hdone Hhalted) as (r & Hr & Hstarted & Hfin & Hres & Hnil & Hpool & Hempty).
    rewrite length_fmap in *.
    exists r. split; [done |]. split; [done |]. split; [done |].
    split; [by destruct Hrep |]. split; [done |]. split; [done |]. split.
    + rewrite Hpool. by destruct jobs.
    + intros ->. by apply Hempty.
Qed.

(** TestRunCollectsErrors: three jobs, two workers, the first and the last fail. *)
Lemma run_completes_every_job_witness :
  exists s,
    Blocking.run collected false Canceled interleaving (Blocking.init collected 2 0 false)
      = Some s /\
    main s = Returned (Some (joinError [errA; errB])) /\
    started s = [0; 1; 2] /\
    map fst (finished s) ≡ₚ [0; 1; 2] /\
    mem s = 3 /\ finished s = [(1, None); (0, Some errA); (2, Some errB)].
Proof.
  destruct (Blocking.run collected false Canceled interleaving (Blocking.init collected 2 0 false))
    as [s|] eqn:Hrun; [| vm_compute in Hrun; discriminate Hrun].
  exists s. split; [done |].
  assert (Hret : Forall Blocking.returns collected).
  { repeat constructor; intros done n; by eexists. }
  destruct (run_completes_every_job _ _ _ _ _ _ Hret Hrun) as [_ Hdone].
  vm_compute in Hrun. injection Hrun as <-.
  destruct Hdone as (r & Hr & Hstarted & Hfinished & Hreplay & _).
  - intros c. destruct c as [[|[|w]]| | |[|[|w]]|[|[|w]]| |]; reflexivity.
  - split; [reflexivity |]. split; [exact Hstarted |]. split; [exact Hfinished |].
    split; reflexivity.
Defined.

(** C7 as stated fails for a job that never returns: with one worker, the
    first job blocking, nothing can move once that job is handed off; Run has
    not returned and the second job is never executed. *)
Lemma blocked_job_blocks_run :
  exists s,
    Blocking.run stuck false Canceled [HandOff 0] (Blocking.init stuck 1 0 false) = Some s /\
    Blocking.halted stuck false Canceled s /\
    main s = Feeding /\ started s = [0] /\ finished s = [] /\ mem s = 0.
Proof.
  eexists. split; [reflexivity |]. split; [| done].
  intros c. destruct c as [[|w]| | |[|w]|[|w]| |]; reflexivity.
Qed.

(** Whatever the context does, Run cannot hang as long as the jobs all
    return: every interleaving is finite, and from every state it reaches
    some continuation makes Run return. *)
Theorem run_always_returns {St : Type} (jobs : list (@Blocking.Job St)) cancellable ctxErr
    workers m done schedule s :
  Forall Blocking.returns jobs ->
  Blocking.run jobs cancellable ctxErr schedule (Blocking.init jobs workers m done) = Some s ->
  length schedule <= 3 + 3 * length jobs + coerce workers /\
  exists rest s' r,
    Blocking.run jobs cancellable ctxErr rest s = Some s' /\ main s' = Returned r.
Proof.
  intros Hret Hrun. rewrite run_returning, init_settled in Hrun by done.
  split.
  { pose proof (run_budget _ _ _ _ _ _ Hrun).
    pose proof (budget_init jobs cancellable workers m done). lia. }
  assert (Hgo : exists rest s' r,
            Worker.run (Blocking.settled <$> jobs) cancellable ctxErr rest s = Some s' /\
            main s' = Returned r).
  { destruct jobs as [|j js].
    - destruct (empty_run _ _ _ _ _ _ _ Hrun) as (Hm & _). by exists [], s, None.
    - destruct (reachable _ _ _ _ _ _ _ _ Hrun ltac:(done)) as (Hpos & Hinv & _).
      exact (eventually_returns _ _ _ _ _ s (le_n _) Hpos Hinv). }
  destruct Hgo as (rest & s' & r & Hrest & Hr).
  exists rest, s', r. by rewrite run_returning.
Qed.

Lemma run_always_returns_witness :
  exists s rest s' r,
    Blocking.run collected true Canceled [HandOff 0; Cancel] (Blocking.init collected 2 0 false)
      = Some s /\
    Blocking.run collected true Canceled rest s = Some s' /\ main s' = Returned r.
Proof.
  destruct (Blocking.run collected true Canceled [HandOff 0; Cancel]
              (Blocking.init collected 2 0 false)) as [s|] eqn:Hrun;
    [| vm_compute in Hrun; discriminate Hrun].
  assert (Hret : Forall Blocking.returns collected).
  { repeat constructor; intros done n; by eexists. }
  destruct (run_always_returns _ _ _ _ _ _ _ _ Hret Hrun) as (_ & rest & s' & r & Hrest & Hr).
  by exists s, rest, s', r.
Defined.

End BlockingFacts.
